(** * gds2ascii: a shallow embedding of the GDSII stream decoder

    The development follows [gds2ascii.py]: the record reader [readStream],
    the IBM/370 hexadecimal floating point converter [ibm370_to_ieee754],
    the record-name lookup [appendName], the field decoder [extractData]
    and the driver loop of [main].

    Python values are modelled as follows.
    - [bytes] objects are [list byte]; indexing one yields an integer in
      [0, 255], written [bz b].
    - Python integers are [Z].
    - Python floats are IEEE 754 binary64 numbers: [spec_float] with the
      operations of the Standard Library's [SpecFloat] at precision 53 and
      maximal exponent 1024 (round to nearest, ties to even).
    - An exception is a value of [exn]; code that may raise returns a
      [result].
    - The binary file object is a byte string together with a position. *)

From Stdlib Require Import String Ascii.
From Stdlib Require Import ZArith List Bool Lia.
From Stdlib Require Import Strings.Byte.
From Stdlib Require Import Floats.SpecFloat.
From Stdlib Require Import QArith Qpower Qabs Qfield.
Import ListNotations.
Open Scope Z_scope.

(* ================================================================== *)
(** * Python runtime                                                    *)
(* ================================================================== *)

(** The exceptions the program can raise. *)
Inductive exn : Type :=
| StructError          (* struct.error: buffer of the wrong size *)
| KeyError             (* dict lookup of an absent key *)
| IndexError           (* sequence index out of range *)
| TypeError            (* subscripting the integer -1 *)
| UnicodeDecodeError   (* bytes.decode("utf-8") on an invalid byte *)
| ZeroDivisionError    (* float division by zero *)
| OverflowError.       (* math.ldexp: math range error *)

Inductive result (A : Type) : Type :=
| Ok (a : A)
| Raise (e : exn).
Arguments Ok {A} a.
Arguments Raise {A} e.

Definition bind {A B} (m : result A) (k : A -> result B) : result B :=
  match m with
  | Ok a => k a
  | Raise e => Raise e
  end.

Declare Scope py_scope.
Delimit Scope py_scope with py.
Notation "x <- m ;; k" := (bind m (fun x => k))
  (at level 61, m at next level, right associativity) : py_scope.
Open Scope py_scope.

(** [seq[i]] on a Python sequence. *)
Definition getitem {A} (l : list A) (i : nat) : result A :=
  match nth_error l i with
  | Some a => Ok a
  | None => Raise IndexError
  end.

(** The integer value of a byte, as obtained by indexing a [bytes]. *)
Definition bz (b : byte) : Z := Z.of_N (Byte.to_N b).

(** The byte of an integer (taken modulo 256). *)
Definition byte_of_Z (z : Z) : byte :=
  match Byte.of_N (Z.to_N (z mod 256)) with
  | Some b => b
  | None => x00
  end.

Definition bytes_of (l : list Z) : list byte := map byte_of_Z l.

(** [a ^ b] on two integers that index a [bytes]. *)
Definition byte_xor (a b : byte) : byte := byte_of_Z (Z.lxor (bz a) (bz b)).

(** Big-endian unsigned value of a byte string. *)
Definition be_unsigned (bs : list byte) : Z :=
  fold_left (fun acc b => acc * 256 + bz b) bs 0.

(** Sign extension of a [w]-bit pattern, the way [struct] does it:
    patterns with the top bit set denote [u - 2^w]. *)
Definition sign_extend (w : Z) (u : Z) : Z :=
  if u <? 2 ^ (w - 1) then u else u - 2 ^ w.

(** [struct.unpack(fmt, buf)[0]] for the formats the program uses.  Each
    raises [struct.error] unless the buffer has exactly the size of the
    format. *)
Definition unpack_int (size : nat) (buf : list byte) : result Z :=
  if Nat.eqb (length buf) size
  then Ok (sign_extend (8 * Z.of_nat size) (be_unsigned buf))
  else Raise StructError.

Definition unpack_h := unpack_int 2.   (* '>h' *)
Definition unpack_b := unpack_int 1.   (* '>b' *)
Definition unpack_l := unpack_int 4.   (* '>l' *)

(** '>c': a bytes object of length one. *)
Definition unpack_c (buf : list byte) : result (list byte) :=
  if Nat.eqb (length buf) 1 then Ok buf else Raise StructError.

(* ------------------------------------------------------------------ *)
(** ** Floats                                                          *)

Definition float := spec_float.

Definition f64_normalize (m e : Z) (szero : bool) : float :=
  binary_normalize 53 1024 m e szero.

(** [float(n)] for an integer [n]. *)
Definition float_of_int (n : Z) : float := f64_normalize n 0 false.

Definition fadd : float -> float -> float := SFadd 53 1024.
Definition fmul : float -> float -> float := SFmul 53 1024.

Definition is_zero (x : float) : bool :=
  match x with S754_zero _ => true | _ => false end.

(** [x / y] on floats raises on a zero divisor. *)
Definition truediv (x y : float) : result float :=
  if is_zero y then Raise ZeroDivisionError else Ok (SFdiv 53 1024 x y).

(** [math.ldexp(x, i)]: the C function, with a range error when a finite
    non-zero argument overflows. *)
Definition ldexp (x : float) (i : Z) : result float :=
  match x, SFldexp 53 1024 x i with
  | S754_finite _ _ _, S754_infinity _ => Raise OverflowError
  | _, r => Ok r
  end.

Definition is_finite (x : float) : bool :=
  match x with
  | S754_zero _ | S754_finite _ _ _ => true
  | S754_infinity _ | S754_nan => false
  end.

Definition f_one : float := float_of_int 1.
Definition f_minus_one : float := SFopp f_one.
Definition f_256 : float := float_of_int 256.

(** '>f': the four bytes are the bit pattern of a binary32 number, read
    big-endian and widened (exactly) to a Python float. *)
Definition binary32_decode (w : Z) : float :=
  let s := Z.testbit w 31 in
  let e := (w / 2 ^ 23) mod 2 ^ 8 in
  let f := w mod 2 ^ 23 in
  if e =? 255 then (if f =? 0 then S754_infinity s else S754_nan)
  else if e =? 0 then f64_normalize (cond_Zopp s f) (-149) s
  else f64_normalize (cond_Zopp s (2 ^ 23 + f)) (e - 150) s.

Definition unpack_f (buf : list byte) : result float :=
  if Nat.eqb (length buf) 4
  then Ok (binary32_decode (be_unsigned buf))
  else Raise StructError.

(** Exact rational value of a finite float (0 on infinities and NaN). *)
Definition SF2Q (x : float) : Q :=
  match x with
  | S754_finite s m e => (inject_Z (cond_Zopp s (Zpos m)) * Qpower (2 # 1) e)%Q
  | _ => 0%Q
  end.

(* ------------------------------------------------------------------ *)
(** ** Text                                                            *)

Definition ascii_of_byte (b : byte) : ascii := Ascii.ascii_of_byte b.

(** [buf.decode("utf-8")] for a buffer of one byte: only the one-byte
    sequences 0x00..0x7F are valid on their own. *)
Definition decode_utf8 (buf : list byte) : result string :=
  match buf with
  | [] => Ok EmptyString
  | [b] => if bz b <? 128
           then Ok (String (ascii_of_byte b) EmptyString)
           else Raise UnicodeDecodeError
  | _ => Raise UnicodeDecodeError
  end.

(* ------------------------------------------------------------------ *)
(** ** Binary file objects                                             *)

Record stream : Type := mkStream { content : list byte; pos : nat }.

Definition open_rb (data : list byte) : stream := mkStream data 0.

Definition remaining (s : stream) : list byte := skipn (pos s) (content s).

(** The file object [k] bytes further. *)
Definition advance (s : stream) (k : nat) : stream :=
  mkStream (content s) (pos s + k).

(** Computations on a file object that may raise. *)
Definition io (A : Type) : Type := stream -> result A * stream.

Definition io_ret {A} (a : A) : io A := fun s => (Ok a, s).

Definition io_bind {A B} (m : io A) (k : A -> io B) : io B :=
  fun s =>
    match m s with
    | (Ok a, s') => k a s'
    | (Raise e, s') => (Raise e, s')
    end.

Definition io_lift {A} (r : result A) : io A := fun s => (r, s).

Declare Scope io_scope.
Delimit Scope io_scope with io.
Notation "x <~ m ;; k" := (io_bind m (fun x => k))
  (at level 61, m at next level, right associativity) : io_scope.

(** [stream.read(n)]: at most [n] bytes, fewer at the end of the file. *)
Definition read (n : nat) : io (list byte) :=
  fun s =>
    let buf := firstn n (remaining s) in
    (Ok buf, mkStream (content s) (pos s + length buf)).

(** [stream.seek(0, 1)]: a relative seek by zero. *)
Definition seek_cur0 : io unit := fun s => (Ok tt, s).

(* ================================================================== *)
(** * The program                                                       *)
(* ================================================================== *)

(** ** readStream *)

(** The list [[rec_size, [rec_type, dat_type], rec_data]]. *)
Record record : Type := mkRecord {
  rec_size : Z;
  rec_type : Z;
  dat_type : Z;
  rec_data : list (list byte)
}.

(** What [readStream] returns: a record, or the integer -1. *)
Inductive pyrecord : Type :=
| Rec (r : record)
| Minus1.

(** The dict literal [dat_size]. *)
Definition dat_size (k : Z) : result nat :=
  match k with
  | 0 => Ok 1%nat
  | 1 => Ok 1%nat
  | 2 => Ok 2%nat
  | 3 => Ok 4%nat
  | 4 => Ok 4%nat
  | 5 => Ok 8%nat
  | 6 => Ok 1%nat
  | _ => Raise KeyError
  end.

(** [range(0, n)] as a list; empty when [n <= 0]. *)
Definition range0 (n : Z) : list nat := seq 0 (Z.to_nat n).

(** The [for] loop of [readStream]: one [read] per index. *)
Fixpoint read_chunks (idx : list nat) (w : nat) (rec_data : list (list byte))
  : io (list (list byte)) :=
  match idx with
  | [] => io_ret rec_data
  | _ :: idx' =>
      (buf <~ read w ;;
       u <~ seek_cur0 ;;
       read_chunks idx' w (rec_data ++ [buf]))%io
  end.

(** The body of the [try]. *)
Definition readStream_try : io record :=
  (b2 <~ read 2 ;;
   rec_size <~ io_lift (unpack_h b2) ;;
   u <~ seek_cur0 ;;
   b1 <~ read 1 ;;
   rec_type <~ io_lift (unpack_b b1) ;;
   u <~ seek_cur0 ;;
   b1' <~ read 1 ;;
   dat_type <~ io_lift (unpack_b b1') ;;
   u <~ seek_cur0 ;;
   w <~ io_lift (dat_size dat_type) ;;
   rec_data <~ read_chunks (range0 ((rec_size - 4) / Z.of_nat w)) w [] ;;
   io_ret (mkRecord rec_size rec_type dat_type rec_data))%io.

(** [readStream]: the bare [except] turns every exception into -1. *)
Definition readStream (s : stream) : pyrecord * stream :=
  match readStream_try s with
  | (Ok r, s') => (Rec r, s')
  | (Raise _, s') => (Minus1, s')
  end.

(** ** ibm370_to_ieee754 *)

(** One iteration of the mantissa loop:
    [mantissa += ibm_bytes[i] / divisor; divisor *= 256.0]. *)
Definition mantissa_step (ibm_bytes : list byte) (st : float * float) (i : nat)
  : result (float * float) :=
  let '(mantissa, divisor) := st in
  b <- getitem ibm_bytes i ;;
  q <- truediv (float_of_int (bz b)) divisor ;;
  Ok (fadd mantissa q, fmul divisor f_256).

Fixpoint mantissa_loop (ibm_bytes : list byte) (idx : list nat)
  (st : float * float) : result (float * float) :=
  match idx with
  | [] => Ok st
  | i :: idx' =>
      st' <- mantissa_step ibm_bytes st i ;;
      mantissa_loop ibm_bytes idx' st'
  end.

(** Step [1]: the sign. *)
Definition ibm370_sign (b0 : byte) : float :=
  if Z.land (bz b0) 0x80 =? 0 then f_one else f_minus_one.

(** Step [2]: the base-2 exponent. *)
Definition ibm370_exponent2 (b0 : byte) : Z :=
  4 * (Z.land (bz b0) 0x7f - 64).

(** Step [3]: [mantissa = 0; divisor = 256.0; for i in range(1, 8): ...]. *)
Definition ibm370_mantissa (ibm_bytes : list byte) : result float :=
  st <- mantissa_loop ibm_bytes (seq 1 7) (float_of_int 0, f_256) ;;
  Ok (fst st).

(** The converter, with [debug=False]. *)
Definition ibm370_to_ieee754 (ibm_bytes : list byte) : result float :=
  b0 <- getitem ibm_bytes 0 ;;
  let sign := ibm370_sign b0 in
  let exponent2 := ibm370_exponent2 b0 in
  mantissa <- ibm370_mantissa ibm_bytes ;;
  x <- ldexp mantissa exponent2 ;;
  Ok (fmul sign x).

(** ** appendName *)

(** The dict literal [name_list]. *)
Definition name_list (k : Z) : result string :=
  match k with
  | 0x00 => Ok "HEADER"%string
  | 0x01 => Ok "BGNLIB"%string
  | 0x02 => Ok "LIBNAME"%string
  | 0x03 => Ok "UNITS"%string
  | 0x04 => Ok "ENDLIB"%string
  | 0x05 => Ok "BGNSTR"%string
  | 0x06 => Ok "STRNAME"%string
  | 0x07 => Ok "ENDSTR"%string
  | 0x08 => Ok "BONDARY"%string
  | 0x09 => Ok "PATH"%string
  | 0x0A => Ok "SERF"%string
  | 0x0B => Ok "AREF"%string
  | 0x0C => Ok "TEXT"%string
  | 0x0D => Ok "LAYER"%string
  | 0x0E => Ok "DATATYPE"%string
  | 0x0F => Ok "WIDTH"%string
  | 0x10 => Ok "XY"%string
  | 0x11 => Ok "ENDEL"%string
  | 0x12 => Ok "SNAME"%string
  | 0x13 => Ok "COLROW"%string
  | 0x15 => Ok "NODE"%string
  | 0x16 => Ok "TEXTTYPE"%string
  | 0x17 => Ok "PRESENTATION"%string
  | 0x19 => Ok "STRING"%string
  | 0x1A => Ok "STRANS"%string
  | 0x1B => Ok "MAG"%string
  | 0x1C => Ok "ANGLE"%string
  | 0x1F => Ok "REFLIBS"%string
  | 0x20 => Ok "FONTS"%string
  | 0x21 => Ok "PATHTYPE"%string
  | 0x22 => Ok "GENERATIONS"%string
  | 0x23 => Ok "ATTRATABLE"%string
  | 0x26 => Ok "ELFLAGS"%string
  | 0x2A => Ok "NODETYPE"%string
  | 0x2B => Ok "PROPATTR"%string
  | 0x2C => Ok "PROPVALUE"%string
  | 0x2D => Ok "BOX"%string
  | 0x2E => Ok "BOXTYPE"%string
  | 0x2F => Ok "PLEX"%string
  | 0x32 => Ok "TAPENUM"%string
  | 0x33 => Ok "TAPECODE"%string
  | 0x36 => Ok "FORMAT"%string
  | 0x37 => Ok "MASK"%string
  | 0x38 => Ok "ENDMASKS"%string
  | _ => Raise KeyError
  end.

Definition appendName (rcd : pyrecord) : result string :=
  match rcd with
  | Minus1 => Raise TypeError
  | Rec r => name_list (rec_type r)
  end.

(** ** extractData *)

(** The values [extractData] puts in its list. *)
Inductive pyvalue : Type :=
| PInt (n : Z)
| PFloat (x : float)
| PStr (s : string).

(** [for i in list(range(0, n)): data.append(f(record[2][i]))]. *)
Fixpoint extract_loop (f : list byte -> result pyvalue)
  (rec_data : list (list byte)) (idx : list nat) (data : list pyvalue)
  : result (list pyvalue) :=
  match idx with
  | [] => Ok data
  | i :: idx' =>
      chunk <- getitem rec_data i ;;
      v <- f chunk ;;
      extract_loop f rec_data idx' (data ++ [v])
  end.

Definition dec_int16 (chunk : list byte) : result pyvalue :=
  n <- unpack_h chunk ;; Ok (PInt n).
Definition dec_int32 (chunk : list byte) : result pyvalue :=
  n <- unpack_l chunk ;; Ok (PInt n).
Definition dec_real32 (chunk : list byte) : result pyvalue :=
  x <- unpack_f chunk ;; Ok (PFloat x).
Definition dec_real64 (chunk : list byte) : result pyvalue :=
  x <- ibm370_to_ieee754 chunk ;; Ok (PFloat x).
Definition dec_char (chunk : list byte) : result pyvalue :=
  c <- unpack_c chunk ;; s <- decode_utf8 c ;; Ok (PStr s).

Definition extractData (rcd : pyrecord) : result (list pyvalue) :=
  match rcd with
  | Minus1 => Raise TypeError
  | Rec r =>
      let data := [] in
      if dat_type r =? 0x00 then Ok data
      else if dat_type r =? 0x01 then Ok data
      else if dat_type r =? 0x02 then
        extract_loop dec_int16 (rec_data r) (range0 ((rec_size r - 4) / 2)) data
      else if dat_type r =? 0x03 then
        extract_loop dec_int32 (rec_data r) (range0 ((rec_size r - 4) / 4)) data
      else if dat_type r =? 0x04 then
        extract_loop dec_real32 (rec_data r) (range0 ((rec_size r - 4) / 4)) data
      else if dat_type r =? 0x05 then
        extract_loop dec_real64 (rec_data r) (range0 ((rec_size r - 4) / 8)) data
      else
        extract_loop dec_char (rec_data r) (range0 (rec_size r - 4)) data
  end.

(** ** main *)

Definition entry : Type := string * list pyvalue.

(** How a run of the loop ends: the [break] with the accumulated
    [asciiOut], or an exception nobody catches. *)
Inductive outcome : Type :=
| Done (asciiOut : list entry)
| Uncaught (e : exn).

(** [record[1][0] == 0x04], evaluated after [extractData] succeeded. *)
Definition is_endlib (rcd : pyrecord) : bool :=
  match rcd with
  | Rec r => rec_type r =? 0x04
  | Minus1 => false
  end.

(** One iteration of the [while True] loop. *)
Inductive iteration : Type :=
| Break (asciiOut : list entry)
| Continue (ifile : stream) (asciiOut : list entry)
| Exc (e : exn).

Definition loop_body (ifile : stream) (asciiOut : list entry) : iteration :=
  let '(rcd, ifile') := readStream ifile in
  match extractData rcd with
  | Raise e => Exc e
  | Ok data =>
      match appendName rcd with
      | Raise e => Exc e
      | Ok name =>
          let asciiOut' := asciiOut ++ [(name, data)] in
          if is_endlib rcd then Break asciiOut' else Continue ifile' asciiOut'
      end
  end.

(** The loop, with a bound on the number of iterations. *)
Fixpoint main_loop (fuel : nat) (ifile : stream) (asciiOut : list entry)
  : option outcome :=
  match fuel with
  | O => None
  | S fuel' =>
      match loop_body ifile asciiOut with
      | Break out => Some (Done out)
      | Exc e => Some (Uncaught e)
      | Continue ifile' out => main_loop fuel' ifile' out
      end
  end.

(** Every iteration that continues has consumed a four-byte header, so
    one more iteration than there are bytes is always enough. *)
Definition main (input : list byte) : option outcome :=
  main_loop (S (length input)) (open_rb input) [].

(** The loop as a transition system over the states of the driver. *)
Inductive dstate : Type :=
| Reading (ifile : stream) (asciiOut : list entry)
| Finished (o : outcome).

Inductive step : dstate -> dstate -> Prop :=
| step_break ifile out out' :
    loop_body ifile out = Break out' ->
    step (Reading ifile out) (Finished (Done out'))
| step_exc ifile out e :
    loop_body ifile out = Exc e ->
    step (Reading ifile out) (Finished (Uncaught e))
| step_continue ifile out ifile' out' :
    loop_body ifile out = Continue ifile' out' ->
    step (Reading ifile out) (Reading ifile' out').

Inductive steps : dstate -> dstate -> Prop :=
| steps_refl st : steps st st
| steps_cons st1 st2 st3 : step st1 st2 -> steps st2 st3 -> steps st1 st3.

(** ** Auxiliary definitions used in the statements *)

(** The chunks a loop of [n] reads of width [w] takes out of the bytes
    [r] that remain: full chunks first, then a short one and empty ones
    once the bytes run out. *)
Fixpoint chunks_of (n w : nat) (r : list byte) : list (list byte) :=
  match n with
  | O => []
  | S n' => firstn w r :: chunks_of n' w (skipn w r)
  end.

(** The three header fields as [readStream] decodes them. *)
Definition header_fields (b0 b1 t d : byte) : Z * Z * Z :=
  (sign_extend 16 (be_unsigned [b0; b1]),
   sign_extend 8 (be_unsigned [t]),
   sign_extend 8 (be_unsigned [d])).

(** A record as the format defines it: a known data type, a length of at
    least four whose payload part is a whole number of elements, and one
    chunk of the element width per element. *)
Definition valid_record (r : record) : Prop :=
  exists w,
    dat_size (dat_type r) = Ok w /\
    4 <= rec_size r /\
    (rec_size r - 4) mod Z.of_nat w = 0 /\
    Z.of_nat (length (rec_data r)) = (rec_size r - 4) / Z.of_nat w /\
    Forall (fun c => length c = w) (rec_data r).

(** The bytes of a record with type [rt], data type [dt] and the given
    payload. *)
Definition frame (rt dt : byte) (payload : list byte) : list byte :=
  let len := 4 + Z.of_nat (length payload) in
  byte_of_Z (len / 256) :: byte_of_Z len :: rt :: dt :: payload.

(** Monadic map: the functional reading of the loops of [extractData]. *)
Fixpoint mapM {A B} (f : A -> result B) (l : list A) : result (list B) :=
  match l with
  | [] => Ok []
  | a :: l' => b <- f a ;; bs <- mapM f l' ;; Ok (b :: bs)
  end.

(** Two's complement reading of the [w] low bits of [u]: the bits below
    the top one count positively, the top bit counts [- 2^(w-1)]. *)
Definition twos_complement (w : Z) (u : Z) : Z :=
  u mod 2 ^ (w - 1) - (if Z.testbit u (w - 1) then 2 ^ (w - 1) else 0).

(** The two stages of [binary_round]: [round_start] scales the exact
    mantissa to the exponent of the format, keeping the round and sticky
    bits of what was shifted out; [round_finish] rounds to nearest even
    and renormalises. *)
Definition exact_rec (m : Z) : shr_record := Build_shr_record m false false.

Definition round_start (m : positive) (e : Z) : shr_record * Z :=
  let F := fexp 53 1024 (Zpos (digits2_pos m) + e) in
  (Nat.iter (Z.to_nat (F - e)) shr_1 (exact_rec (Zpos m * 2 ^ Z.max 0 (e - F))), F).

Definition round_finish (sx : bool) (st : shr_record * Z) : float :=
  let '(mrs', e') := st in
  let '(mrs'', e'') :=
    shr_fexp 53 1024
      (round_nearest_even (shr_m mrs') (loc_of_shr_record mrs')) e' loc_Exact in
  match shr_m mrs'' with
  | Z0 => S754_zero sx
  | Zpos m => if Z.leb e'' (1024 - 53) then S754_finite sx m e'' else S754_infinity sx
  | Zneg _ => S754_nan
  end.

(** The float [256.0 ** i]. *)
Definition pow256 (i : Z) : float := S754_finite false (2 ^ 52) (8 * i - 52).

(** The value the format assigns to eight bytes, in exact rational
    arithmetic and in the words of the format: the sign from the top bit
    of byte 0, the base-16 exponent in excess-64 from its other seven
    bits, and the fraction [sum_{i=1..7} b[i] / 256^i]. *)
Fixpoint exact_fraction_from (i : Z) (bs : list byte) : Q :=
  match bs with
  | [] => 0%Q
  | b :: bs' =>
      (inject_Z (bz b) / Qpower (256 # 1) i + exact_fraction_from (i + 1) bs')%Q
  end.

Definition exact_fraction (rest : list byte) : Q := exact_fraction_from 1 rest.

Definition exact_sign (b0 : byte) : Q :=
  if Z.testbit (bz b0) 7 then (- (1))%Q else 1%Q.

Definition exact_exponent2 (b0 : byte) : Z := 4 * (Z.land (bz b0) 0x7F - 64).

Definition exact_value (b0 : byte) (rest : list byte) : Q :=
  (exact_sign b0 * exact_fraction rest * Qpower (2 # 1) (exact_exponent2 b0))%Q.

(** The value of a binary32 bit pattern [w], in the words of IEEE 754:
    one sign bit, eight exponent bits biased by 127 and 23 fraction
    bits, with an implicit leading one unless the exponent field is 0. *)
Definition ieee754_single_value (w : Z) : Q :=
  let s := Z.testbit w 31 in
  let e := (w / 2 ^ 23) mod 2 ^ 8 in
  let f := w mod 2 ^ 23 in
  let sign := if s then (- (1))%Q else 1%Q in
  if e =? 0
  then (sign * (inject_Z f / inject_Z (2 ^ 23)) * Qpower (2 # 1) (-126))%Q
  else (sign * (1 + inject_Z f / inject_Z (2 ^ 23)) * Qpower (2 # 1) (e - 127))%Q.

(** [x] is the number that the pattern [w] denotes: an infinity or a NaN
    for the exponent field 255, a signed zero for the patterns with only
    the sign bit, and otherwise the finite float of that sign and
    value. *)
Definition is_ieee754_single (w : Z) (x : float) : Prop :=
  let s := Z.testbit w 31 in
  let e := (w / 2 ^ 23) mod 2 ^ 8 in
  let f := w mod 2 ^ 23 in
  if e =? 255 then (if f =? 0 then x = S754_infinity s else x = S754_nan)
  else if (e =? 0) && (f =? 0) then x = S754_zero s
  else (exists m ex, x = S754_finite s m ex) /\
       Qeq (SF2Q x) (ieee754_single_value w).

(** ** Further definitions used in the statements *)

(** A computation on a file object keeps the file: it does not change
    the content, does not move the position backwards and does not move
    it past the end (a position already past the end stays). *)
Definition keeps_file {A} (m : io A) : Prop :=
  forall s,
    content (snd (m s)) = content s /\
    (pos s <= pos (snd (m s)))%nat /\
    (pos (snd (m s)) <= Nat.max (pos s) (length (content s)))%nat.

(** The sign bit of a float ([math.copysign(1.0, x) < 0]). *)
Definition sign_bit (x : float) : bool :=
  match x with
  | S754_zero s | S754_infinity s | S754_finite s _ _ => s
  | S754_nan => false
  end.

(** A normal number: finite, not zero, with all 53 bits of precision. *)
Definition is_normal (x : float) : bool :=
  match x with
  | S754_finite _ m _ => Pos.eqb (digits2_pos m) 53
  | _ => false
  end.

(** One eight-byte element: the converter returns a finite float within
    a relative error of 2^-53 of the value the bytes denote. *)
Definition real64_of (c : list byte) (x : float) : Prop :=
  ibm370_to_ieee754 c = Ok x /\
  is_finite x = true /\
  exists b0 rest,
    c = b0 :: rest /\
    Qle (Qabs (SF2Q x - exact_value b0 rest) * inject_Z (2 ^ 53))
        (Qabs (exact_value b0 rest)).

(** The decoder that [extractData] applies to each element of a record
    of data type [dt]; none for the two types it returns no data for. *)
Definition element_decoder (dt : Z) : option (list byte -> result pyvalue) :=
  if dt =? 0x00 then None
  else if dt =? 0x01 then None
  else if dt =? 0x02 then Some dec_int16
  else if dt =? 0x03 then Some dec_int32
  else if dt =? 0x04 then Some dec_real32
  else if dt =? 0x05 then Some dec_real64
  else Some dec_char.

(** [extractData] read as a map over the chunks of a record. *)
Definition decode_chunks (dt : Z) (chunks : list (list byte))
  : result (list pyvalue) :=
  match element_decoder dt with
  | None => Ok []
  | Some f => mapM f chunks
  end.

(** A record as a file holds it: the byte of its type, the byte of its
    data type and its payload. *)
Record raw_record : Type := mkRaw {
  raw_type : byte;
  raw_tag : byte;
  raw_payload : list byte
}.

(** Its bytes in the file. *)
Definition encode (f : raw_record) : list byte :=
  frame (raw_type f) (raw_tag f) (raw_payload f).

(** The element width of a data type (1 for the unknown ones). *)
Definition elem_width (dt : Z) : nat :=
  match dat_size dt with
  | Ok w => w
  | Raise _ => 1%nat
  end.

(** A raw record is well framed when its data type is a known one, its
    payload is a whole number of elements and its length fits the
    signed 16-bit length field. *)
Definition well_framed (f : raw_record) : Prop :=
  (exists w, dat_size (bz (raw_tag f)) = Ok w) /\
  (length (raw_payload f) mod elem_width (bz (raw_tag f)) = 0)%nat /\
  4 + Z.of_nat (length (raw_payload f)) < 2 ^ 15.

(** The record that the bytes of a raw record stand for. *)
Definition record_of (f : raw_record) : record :=
  let w := elem_width (bz (raw_tag f)) in
  mkRecord (4 + Z.of_nat (length (raw_payload f)))
           (sign_extend 8 (be_unsigned [raw_type f]))
           (bz (raw_tag f))
           (chunks_of (length (raw_payload f) / w) w (raw_payload f)).

(** The entry that the loop of [main] makes of a record: the data
    first, then the name. *)
Definition entry_of (r : record) : result entry :=
  data <- extractData (Rec r) ;;
  name <- appendName (Rec r) ;;
  Ok (name, data).

(** The outcome of a run whose entries are [es]. *)
Definition outcome_of (es : result (list entry)) : outcome :=
  match es with
  | Ok out => Done out
  | Raise e => Uncaught e
  end.

(* ================================================================== *)
(** * Properties                                                        *)
(* ================================================================== *)

(** ** Bytes and integers *)

Lemma bz_range (b : byte) : 0 <= bz b < 256.
Proof.
  unfold bz. pose proof (Byte.to_N_bounded b). lia.
Qed.

Lemma byte_of_Z_bz (b : byte) : byte_of_Z (bz b) = b.
Proof.
  unfold byte_of_Z, bz.
  rewrite Z.mod_small by (pose proof (Byte.to_N_bounded b); lia).
  rewrite N2Z.id, Byte.of_to_N. reflexivity.
Qed.

Lemma bz_byte_of_Z (z : Z) : bz (byte_of_Z z) = z mod 256.
Proof.
  unfold byte_of_Z, bz.
  destruct (Byte.of_N (Z.to_N (z mod 256))) as [b|] eqn:E.
  - apply Byte.to_of_N in E. rewrite E.
    rewrite Z2N.id; [reflexivity|]. apply Z.mod_pos_bound. lia.
  - exfalso. apply Byte.of_N_None_iff in E.
    pose proof (Z.mod_pos_bound z 256). lia.
Qed.

Lemma be_unsigned_snoc (l : list byte) (b : byte) :
  be_unsigned (l ++ [b]) = be_unsigned l * 256 + bz b.
Proof.
  unfold be_unsigned. rewrite fold_left_app. reflexivity.
Qed.

Lemma be_unsigned_range (l : list byte) :
  0 <= be_unsigned l < 256 ^ Z.of_nat (length l).
Proof.
  induction l as [|b l IH] using rev_ind.
  - cbn. lia.
  - rewrite be_unsigned_snoc, length_app. simpl length.
    replace (Z.of_nat (length l + 1)) with (Z.of_nat (length l) + 1) by lia.
    rewrite Z.pow_add_r by lia.
    pose proof (bz_range b). simpl Z.pow. nia.
Qed.

(** [sign_extend] is the two's complement value: the only integer of the
    signed range that is congruent to the pattern. *)
Lemma sign_extend_range (w u : Z) :
  0 < w -> 0 <= u < 2 ^ w ->
  - 2 ^ (w - 1) <= sign_extend w u < 2 ^ (w - 1).
Proof.
  intros Hw Hu. unfold sign_extend.
  assert (E : 2 ^ w = 2 * 2 ^ (w - 1)).
  { replace w with (1 + (w - 1)) at 1 by lia. rewrite Z.pow_add_r by lia. reflexivity. }
  destruct (Z.ltb_spec u (2 ^ (w - 1))); lia.
Qed.

Lemma sign_extend_mod (w u : Z) :
  0 < w -> 0 <= u < 2 ^ w -> sign_extend w u mod 2 ^ w = u.
Proof.
  intros Hw Hu. unfold sign_extend.
  destruct (Z.ltb_spec u (2 ^ (w - 1))).
  - apply Z.mod_small. lia.
  - replace (u - 2 ^ w) with (u + (-1) * 2 ^ w) by lia.
    rewrite Z.mod_add by lia. apply Z.mod_small. lia.
Qed.

Lemma sign_extend_twos_complement (w u : Z) :
  0 < w -> 0 <= u < 2 ^ w -> sign_extend w u = twos_complement w u.
Proof.
  intros Hw Hu. unfold sign_extend, twos_complement.
  assert (E : 2 ^ w = 2 * 2 ^ (w - 1)).
  { replace w with (1 + (w - 1)) at 1 by lia. rewrite Z.pow_add_r by lia. reflexivity. }
  assert (P : 0 < 2 ^ (w - 1)) by (apply Z.pow_pos_nonneg; lia).
  destruct (Z.ltb_spec u (2 ^ (w - 1))) as [L|L].
  - rewrite Z.mod_small by lia.
    destruct (Z.testbit u (w - 1)) eqn:T; [|lia].
    apply Z.testbit_true in T; [|lia].
    rewrite Z.div_small in T by lia. discriminate.
  - assert (D : u / 2 ^ (w - 1) = 1).
    { symmetry. apply (Z.div_unique u (2 ^ (w - 1)) 1 (u - 2 ^ (w - 1))); lia. }
    assert (M : u mod 2 ^ (w - 1) = u - 2 ^ (w - 1)).
    { symmetry. apply (Z.mod_unique u (2 ^ (w - 1)) 1); lia. }
    rewrite M.
    destruct (Z.testbit u (w - 1)) eqn:T; [lia|].
    apply Z.testbit_false in T; [|lia].
    rewrite D in T. discriminate.
Qed.

(** ** The file object *)

Lemma skipn_min {A} (n : nat) (l : list A) :
  skipn (Nat.min n (length l)) l = skipn n l.
Proof.
  destruct (Nat.le_gt_cases n (length l)) as [L|L].
  - rewrite Nat.min_l by exact L. reflexivity.
  - rewrite Nat.min_r by lia. rewrite skipn_all. symmetry. apply skipn_all2. lia.
Qed.

Lemma read_eq (n : nat) (s : stream) :
  read n s =
  (Ok (firstn n (remaining s)),
   mkStream (content s) (pos s + Nat.min n (length (remaining s)))).
Proof.
  unfold read. rewrite length_firstn. reflexivity.
Qed.

Lemma remaining_advance (s : stream) (k : nat) :
  remaining (mkStream (content s) (pos s + k)) = skipn k (remaining s).
Proof.
  unfold remaining. simpl. rewrite Nat.add_comm. symmetry. apply skipn_skipn.
Qed.

Lemma firstn_plus {A} (a b : nat) (l : list A) :
  firstn (a + b) l = firstn a l ++ firstn b (skipn a l).
Proof.
  revert l. induction a as [|a IH]; intros l; simpl; [reflexivity|].
  destruct l as [|x l]; simpl.
  - rewrite firstn_nil. reflexivity.
  - rewrite IH. reflexivity.
Qed.

Lemma length_chunks_of (n w : nat) (r : list byte) :
  length (chunks_of n w r) = n.
Proof.
  revert r. induction n as [|n IH]; intros r; simpl; [reflexivity|].
  rewrite IH. reflexivity.
Qed.

Lemma concat_chunks_of (n w : nat) (r : list byte) :
  concat (chunks_of n w r) = firstn (n * w) r.
Proof.
  revert r. induction n as [|n IH]; intros r; simpl; [reflexivity|].
  rewrite IH. rewrite firstn_plus. reflexivity.
Qed.

Lemma chunks_of_full (n w : nat) (r : list byte) :
  (n * w <= length r)%nat ->
  Forall (fun c => length c = w) (chunks_of n w r).
Proof.
  revert r. induction n as [|n IH]; intros r H; simpl; constructor.
  - rewrite length_firstn. simpl in H. lia.
  - apply IH. rewrite length_skipn. simpl in H. lia.
Qed.

Lemma chunks_of_app (n w : nat) (r rest : list byte) :
  length r = (n * w)%nat ->
  chunks_of n w (r ++ rest) = chunks_of n w r.
Proof.
  revert r. induction n as [|n IH]; intros r H; simpl; [reflexivity|].
  simpl in H.
  rewrite firstn_app, skipn_app.
  replace (w - length r)%nat with 0%nat by lia. simpl. rewrite app_nil_r.
  f_equal.
  assert (L : length (skipn w r) = (n * w)%nat) by (rewrite length_skipn; lia).
  rewrite (IH _ L). reflexivity.
Qed.

(** The reading loop of [readStream] never raises; it returns the chunks
    in order and leaves the position after the bytes it could read. *)
Lemma read_chunks_eq (idx : list nat) (w : nat) (acc : list (list byte)) (s : stream) :
  read_chunks idx w acc s =
  (Ok (acc ++ chunks_of (length idx) w (remaining s)),
   mkStream (content s)
            (pos s + Nat.min (length idx * w) (length (remaining s)))).
Proof.
  revert acc s. induction idx as [|i idx IH]; intros acc s.
  - simpl. unfold io_ret. rewrite app_nil_r, Nat.add_0_r. destruct s; reflexivity.
  - simpl read_chunks. unfold io_bind at 1. rewrite read_eq.
    unfold io_bind at 1, seek_cur0.
    rewrite IH. rewrite remaining_advance, skipn_min. simpl content. simpl pos.
    simpl chunks_of. rewrite <- app_assoc. simpl app.
    f_equal. f_equal. rewrite length_skipn. simpl length. lia.
Qed.

(** ** readStream *)

(** Reading one header field of [n] bytes: with the bytes there, the
    computation goes on with the decoded field, [n] bytes further; with
    fewer bytes left, [struct.unpack] raises. *)
Lemma io_field {A} (n : nat) (bs r : list byte) (k : Z -> io A) (s : stream) :
  remaining s = bs ++ r ->
  length bs = n ->
  (b <~ read n ;; v <~ io_lift (unpack_int n b) ;; u <~ seek_cur0 ;; k v)%io s =
  k (sign_extend (8 * Z.of_nat n) (be_unsigned bs)) (advance s n).
Proof.
  intros R L. unfold io_bind at 1. rewrite read_eq, R.
  rewrite <- L, firstn_app, Nat.sub_diag, firstn_all, firstn_O, app_nil_r.
  rewrite length_app, Nat.min_l by lia.
  unfold io_bind, io_lift, seek_cur0, unpack_int. rewrite Nat.eqb_refl.
  reflexivity.
Qed.

Lemma io_field_short {A} (n : nat) (k : Z -> io A) (s : stream) :
  (length (remaining s) < n)%nat ->
  fst ((b <~ read n ;; v <~ io_lift (unpack_int n b) ;; u <~ seek_cur0 ;; k v)%io s) =
  Raise StructError.
Proof.
  intros H. unfold io_bind at 1. rewrite read_eq, firstn_all2 by lia.
  unfold io_bind, io_lift, unpack_int.
  destruct (Nat.eqb_spec (length (remaining s)) n) as [E|E]; [lia|reflexivity].
Qed.

Lemma remaining_advance_app (s : stream) (bs r : list byte) :
  remaining s = bs ++ r -> remaining (advance s (length bs)) = r.
Proof.
  intros R. unfold advance. rewrite remaining_advance, R.
  rewrite skipn_app, Nat.sub_diag, skipn_all. reflexivity.
Qed.

(** With a whole header in front of it, [readStream] fails exactly on an
    unknown data type; otherwise it returns as many chunks as the floor
    of (length - 4) / width, taken from the bytes that follow. *)
Lemma readStream_header (s : stream) (b0 b1 t d : byte) (rest : list byte) :
  remaining s = b0 :: b1 :: t :: d :: rest ->
  readStream s =
  let '(len, rt, dt) := header_fields b0 b1 t d in
  match dat_size dt with
  | Ok w =>
      let n := Z.to_nat ((len - 4) / Z.of_nat w) in
      (Rec (mkRecord len rt dt (chunks_of n w rest)),
       mkStream (content s) (pos s + 4 + Nat.min (n * w) (length rest)))
  | Raise _ => (Minus1, mkStream (content s) (pos s + 4))
  end.
Proof.
  intros H. unfold readStream, readStream_try, header_fields, unpack_h, unpack_b.
  pose proof (remaining_advance_app s [b0; b1] _ H) as H1.
  pose proof (remaining_advance_app _ [t] _ H1) as H2.
  pose proof (remaining_advance_app _ [d] _ H2) as H3.
  rewrite (io_field 2 [b0; b1] _ _ s H eq_refl).
  rewrite (io_field 1 [t] _ _ _ H1 eq_refl).
  rewrite (io_field 1 [d] _ _ _ H2 eq_refl).
  cbn [length] in *.
  change (8 * Z.of_nat 2) with 16. change (8 * Z.of_nat 1) with 8.
  set (s3 := advance (advance (advance s 2) 1) 1) in *.
  assert (P3 : pos s3 = (pos s + 4)%nat) by (simpl; lia).
  unfold io_bind at 1, io_lift at 1.
  destruct (dat_size (sign_extend 8 (be_unsigned [d]))) as [w|e] eqn:W.
  - unfold io_bind at 1. rewrite read_chunks_eq, H3. unfold io_ret.
    unfold range0. rewrite length_seq. simpl app. simpl content.
    rewrite P3. reflexivity.
  - rewrite <- P3. reflexivity.
Qed.

(** Without a whole header, [readStream] returns -1. *)
Lemma readStream_short (s : stream) :
  (length (remaining s) < 4)%nat -> fst (readStream s) = Minus1.
Proof.
  intros H.
  assert (F : fst (readStream_try s) = Raise StructError).
  { unfold readStream_try, unpack_h, unpack_b.
    destruct (remaining s) as [|b0 [|b1 r]] eqn:R;
      try (apply io_field_short; rewrite R; simpl; lia).
    pose proof (remaining_advance_app s [b0; b1] r R) as R1. cbn [length] in R1.
    rewrite (io_field 2 [b0; b1] r _ s R eq_refl).
    destruct r as [|t r];
      [apply io_field_short; rewrite R1; simpl; lia|].
    pose proof (remaining_advance_app _ [t] r R1) as R2. cbn [length] in R2.
    rewrite (io_field 1 [t] r _ _ R1 eq_refl).
    destruct r as [|d r];
      [apply io_field_short; rewrite R2; simpl; lia|].
    simpl in H. lia. }
  unfold readStream. destruct (readStream_try s) as [[r|e] s'];
    [discriminate F | reflexivity].
Qed.

Lemma dat_size_cases (k : Z) (w : nat) :
  dat_size k = Ok w ->
  (k = 0 /\ w = 1%nat) \/ (k = 1 /\ w = 1%nat) \/ (k = 2 /\ w = 2%nat) \/
  (k = 3 /\ w = 4%nat) \/ (k = 4 /\ w = 4%nat) \/ (k = 5 /\ w = 8%nat) \/
  (k = 6 /\ w = 1%nat).
Proof.
  intros H.
  destruct k as [|p|p]; try discriminate H;
    do 3 (try destruct p as [p|p|]; try discriminate H);
    inversion H; subst; intuition (auto; lia).
Qed.

Lemma dat_size_pos (k : Z) (w : nat) : dat_size k = Ok w -> (0 < w)%nat.
Proof.
  intros H. apply dat_size_cases in H. lia.
Qed.

Lemma dat_size_raise (k : Z) (e : exn) : dat_size k = Raise e -> e = KeyError.
Proof.
  intros H.
  destruct k as [|p|p]; try discriminate H;
    do 3 (try destruct p as [p|p|]; try discriminate H);
    inversion H; reflexivity.
Qed.

(** The number of elements of a record whose payload is whole. *)
Lemma whole_payload (len : Z) (w : nat) :
  (0 < w)%nat -> 4 <= len -> (len - 4) mod Z.of_nat w = 0 ->
  (Z.to_nat ((len - 4) / Z.of_nat w) * w)%nat = Z.to_nat (len - 4).
Proof.
  intros Hw Hl Hm.
  assert (E : len - 4 = Z.of_nat w * ((len - 4) / Z.of_nat w)).
  { apply Z.div_exact; lia. }
  assert (0 <= (len - 4) / Z.of_nat w) by (apply Z.div_pos; lia).
  apply Nat2Z.inj. rewrite Nat2Z.inj_mul, !Z2Nat.id by lia. lia.
Qed.

(** C4.  For a valid record at the current position (a length of at
    least 4, a payload part that is a whole number of elements of a known
    data type, and all its bytes present), [readStream] returns the
    record with its [length - 4] payload bytes, cut in order into chunks
    of the element width, and leaves the position exactly [length] bytes
    after the start of the record. *)
Theorem readStream_valid_advances
  (s : stream) (b0 b1 t d : byte) (rest : list byte) (w : nat) :
  remaining s = b0 :: b1 :: t :: d :: rest ->
  dat_size (sign_extend 8 (be_unsigned [d])) = Ok w ->
  4 <= sign_extend 16 (be_unsigned [b0; b1]) ->
  (sign_extend 16 (be_unsigned [b0; b1]) - 4) mod Z.of_nat w = 0 ->
  sign_extend 16 (be_unsigned [b0; b1]) - 4 <= Z.of_nat (length rest) ->
  exists r s',
    readStream s = (Rec r, s') /\
    valid_record r /\
    rec_size r = sign_extend 16 (be_unsigned [b0; b1]) /\
    rec_type r = sign_extend 8 (be_unsigned [t]) /\
    dat_type r = sign_extend 8 (be_unsigned [d]) /\
    Forall (fun c => length c = w) (rec_data r) /\
    concat (rec_data r) =
      firstn (Z.to_nat (sign_extend 16 (be_unsigned [b0; b1]) - 4)) rest /\
    content s' = content s /\
    Z.of_nat (pos s') =
      Z.of_nat (pos s) + sign_extend 16 (be_unsigned [b0; b1]) /\
    remaining s' =
      skipn (Z.to_nat (sign_extend 16 (be_unsigned [b0; b1]) - 4)) rest.
Proof.
  intros H W L4 M B.
  set (len := sign_extend 16 (be_unsigned [b0; b1])) in *.
  pose proof (dat_size_pos _ _ W) as Wp.
  pose proof (whole_payload len w Wp L4 M) as E.
  pose proof (readStream_header s b0 b1 t d rest H) as R.
  unfold header_fields in R. fold len in R. rewrite W in R.
  cbv zeta in R. rewrite E in R.
  rewrite Nat.min_l in R by lia.
  eexists. eexists. split; [exact R|]. simpl.
  assert (F : Forall (fun c => length c = w)
                (chunks_of (Z.to_nat ((len - 4) / Z.of_nat w)) w rest)).
  { apply chunks_of_full. rewrite E. lia. }
  repeat split; auto.
  - exists w. simpl. repeat split; auto.
    rewrite length_chunks_of. rewrite Z2Nat.id; [reflexivity|].
    apply Z.div_pos; lia.
  - rewrite concat_chunks_of, E. reflexivity.
  - lia.
  - replace (pos s + 4 + Z.to_nat (len - 4))%nat
      with (pos s + (Z.to_nat (len - 4) + 4))%nat by lia.
    rewrite remaining_advance, <- skipn_skipn, H. reflexivity.
Qed.

Lemma readStream_valid_advances_witness :
  exists r s',
    readStream (open_rb (bytes_of [0; 6; 0; 2; 2; 0x58; 0; 4; 4; 0])) = (Rec r, s') /\
    rec_size r = 6 /\ rec_data r = [bytes_of [2; 0x58]] /\ pos s' = 6%nat.
Proof.
  destruct (readStream_valid_advances
              (open_rb (bytes_of [0; 6; 0; 2; 2; 0x58; 0; 4; 4; 0]))
              x00 x06 x00 x02 (bytes_of [2; 0x58; 0; 4; 4; 0]) 2)
    as (r & s' & R & _ & Hs & _ & _ & _ & _ & _ & Hp & _).
  - reflexivity.
  - reflexivity.
  - vm_compute. discriminate.
  - reflexivity.
  - vm_compute. discriminate.
  - exists r, s'. vm_compute in R. inversion R; subst. 
    repeat split; reflexivity.
Defined.

(** C5 (as the code has it).  [readStream] has a single failure value,
    -1, and returns it exactly when fewer than four bytes remain for the
    header or the data type is not a key of [dat_size].  A length that is
    not a whole number of elements and a payload that is cut short are
    not failures: the record comes back with the floor of
    (length - 4) / width chunks, which hold the bytes that were there. *)
Theorem readStream_failure_iff (s : stream) :
  (fst (readStream s) = Minus1 <->
   (length (remaining s) < 4)%nat \/
   exists b0 b1 t d rest,
     remaining s = b0 :: b1 :: t :: d :: rest /\
     dat_size (sign_extend 8 (be_unsigned [d])) = Raise KeyError) /\
  (forall b0 b1 t d rest w,
     remaining s = b0 :: b1 :: t :: d :: rest ->
     dat_size (sign_extend 8 (be_unsigned [d])) = Ok w ->
     fst (readStream s) =
     Rec (mkRecord (sign_extend 16 (be_unsigned [b0; b1]))
                   (sign_extend 8 (be_unsigned [t]))
                   (sign_extend 8 (be_unsigned [d]))
                   (chunks_of
                      (Z.to_nat ((sign_extend 16 (be_unsigned [b0; b1]) - 4)
                                 / Z.of_nat w))
                      w rest))).
Proof.
  split.
  - split.
    + intros F.
      destruct (remaining s) as [|b0 [|b1 [|t [|d rest]]]] eqn:R;
        try (left; simpl; lia).
      right. exists b0, b1, t, d, rest. split; [reflexivity|].
      rewrite (readStream_header s b0 b1 t d rest R) in F.
      unfold header_fields in F.
      destruct (dat_size (sign_extend 8 (be_unsigned [d]))) as [w|e] eqn:W.
      * discriminate F.
      * apply dat_size_raise in W. subst e. reflexivity.
    + intros [Hs | (b0 & b1 & t & d & rest & R & W)].
      * apply readStream_short. exact Hs.
      * rewrite (readStream_header s b0 b1 t d rest R).
        unfold header_fields. rewrite W. reflexivity.
  - intros b0 b1 t d rest w R W.
    rewrite (readStream_header s b0 b1 t d rest R).
    unfold header_fields. rewrite W. reflexivity.
Qed.

Lemma readStream_failure_iff_witness :
  fst (readStream (open_rb (bytes_of [0; 8; 0; 7; 1]))) = Minus1 /\
  fst (readStream (open_rb (bytes_of [0; 7; 0; 2; 1; 2; 3]))) =
    Rec (mkRecord 7 0 2 [bytes_of [1; 2]]).
Proof.
  split.
  - apply (proj1 (readStream_failure_iff (open_rb (bytes_of [0; 8; 0; 7; 1])))).
    right. exists x00, x08, x00, x07, [x01]. split; reflexivity.
  - apply (proj2 (readStream_failure_iff
                    (open_rb (bytes_of [0; 7; 0; 2; 1; 2; 3])))
             x00 x07 x00 x02 (bytes_of [1; 2; 3]) 2%nat); reflexivity.
Defined.

(** C5 fails as stated: a length that is not a whole number of elements
    and a truncated payload both come back as records, and a short header
    and an unknown data type come back as the same value. *)
Lemma readStream_error_kinds_counterexample :
  fst (readStream (open_rb (bytes_of [0; 7; 0; 2; 1; 2; 3]))) =
    Rec (mkRecord 7 0 2 [bytes_of [1; 2]]) /\
  fst (readStream (open_rb (bytes_of [0; 8; 0; 2; 1]))) =
    Rec (mkRecord 8 0 2 [bytes_of [1]; []]) /\
  fst (readStream (open_rb (bytes_of [0; 8; 0]))) =
    fst (readStream (open_rb (bytes_of [0; 8; 0; 7; 1]))).
Proof.
  repeat split; reflexivity.
Qed.

(** ** extractData *)

(** The indexed loops of [extractData] are monadic maps over the chunks
    when they run over all the indices of [rec_data]. *)
Lemma extract_loop_mapM (f : list byte -> result pyvalue)
  (pre l : list (list byte)) (acc : list pyvalue) :
  extract_loop f (pre ++ l) (seq (length pre) (length l)) acc =
  (vs <- mapM f l ;; Ok (acc ++ vs)).
Proof.
  revert pre acc. induction l as [|c l IH]; intros pre acc.
  - simpl. rewrite app_nil_r. reflexivity.
  - simpl. unfold getitem.
    rewrite nth_error_app2, Nat.sub_diag by lia. simpl.
    destruct (f c) as [v|e]; simpl; [|reflexivity].
    replace (pre ++ c :: l) with ((pre ++ [c]) ++ l)
      by (rewrite <- app_assoc; reflexivity).
    replace (S (length pre)) with (length (pre ++ [c]))
      by (rewrite length_app; simpl; lia).
    rewrite IH.
    destruct (mapM f l) as [vs|e]; simpl; [|reflexivity].
    rewrite <- app_assoc. reflexivity.
Qed.

Lemma extract_loop_all (f : list byte -> result pyvalue)
  (l : list (list byte)) (n : Z) :
  Z.of_nat (length l) = n ->
  extract_loop f l (range0 n) [] = mapM f l.
Proof.
  intros <-. unfold range0. rewrite Nat2Z.id.
  pose proof (extract_loop_mapM f [] l []) as E. simpl in E. rewrite E.
  destruct (mapM f l); reflexivity.
Qed.

Lemma mapM_ok {A B} (f : A -> result B) (g : A -> B) (l : list A) :
  Forall (fun a => f a = Ok (g a)) l -> mapM f l = Ok (map g l).
Proof.
  induction 1 as [|a l Ha _ IH]; simpl; [reflexivity|].
  rewrite Ha, IH. reflexivity.
Qed.

Lemma unpack_int_ok (size : nat) (c : list byte) :
  (0 < size)%nat -> length c = size ->
  unpack_int size c = Ok (twos_complement (8 * Z.of_nat size) (be_unsigned c)).
Proof.
  intros S0 L. unfold unpack_int. rewrite L, Nat.eqb_refl.
  destruct size as [|size].
  - lia.
  - rewrite sign_extend_twos_complement; [reflexivity | lia |].
    pose proof (be_unsigned_range c) as R. rewrite L in R.
    replace (2 ^ (8 * Z.of_nat (S size))) with (256 ^ Z.of_nat (S size)); [exact R|].
    change 256 with (2 ^ 8). rewrite <- Z.pow_mul_r by lia. reflexivity.
Qed.

Lemma forallb_ascii_true (l : list byte) :
  forallb (fun b => bz b <? 128) l = true <-> Forall (fun b => bz b < 128) l.
Proof.
  induction l as [|b l IH]; simpl.
  - split; [constructor | reflexivity].
  - rewrite andb_true_iff, IH, Z.ltb_lt. split.
    + intros [H1 H2]. constructor; assumption.
    + intros H. inversion H; subst. split; assumption.
Qed.

Lemma forallb_ascii_false (l : list byte) :
  forallb (fun b => bz b <? 128) l = false <-> Exists (fun b => 128 <= bz b) l.
Proof.
  induction l as [|b l IH]; simpl.
  - split; [discriminate | intros H; inversion H].
  - rewrite andb_false_iff, IH, Z.ltb_ge. split.
    + intros [H|H]; [left | right]; assumption.
    + intros H. inversion H; subst; [left | right]; assumption.
Qed.

Lemma mapM_dec_char (l : list (list byte)) :
  Forall (fun c => length c = 1%nat) l ->
  mapM dec_char l =
  if forallb (fun b => bz b <? 128) (concat l)
  then Ok (map (fun c => PStr (string_of_list_byte c)) l)
  else Raise UnicodeDecodeError.
Proof.
  induction 1 as [|c l Hc _ IH]; [reflexivity|].
  destruct c as [|b [|b' c]]; try discriminate Hc.
  simpl. unfold dec_char at 1. simpl.
  destruct (bz b <? 128); simpl; [|reflexivity].
  rewrite IH. destruct (forallb _ (concat l)); reflexivity.
Qed.

Lemma string_of_list_byte_append (a b : list byte) :
  string_of_list_byte (a ++ b) =
  String.append (string_of_list_byte a) (string_of_list_byte b).
Proof.
  unfold string_of_list_byte.
  induction a as [|x a IH]; [reflexivity|].
  cbn [app map string_of_list_ascii String.append]. rewrite IH. reflexivity.
Qed.

Lemma append_empty_r (s : string) : String.append s EmptyString = s.
Proof.
  induction s as [|c s IH]; [reflexivity|]. cbn [String.append]. rewrite IH. reflexivity.
Qed.

(** The strings of the chunks, put end to end, spell the payload. *)
Lemma concat_chunk_strings (l : list (list byte)) :
  String.concat EmptyString (map string_of_list_byte l) =
  string_of_list_byte (List.concat l).
Proof.
  induction l as [|c l IH]; [reflexivity|].
  cbn [map List.concat]. rewrite string_of_list_byte_append, <- IH.
  destruct l as [|c' l]; cbn [map String.concat].
  - symmetry. apply append_empty_r.
  - reflexivity.
Qed.

Lemma extractData_ascii_eq (r : record) :
  valid_record r ->
  dat_type r = 6 ->
  extractData (Rec r) =
  if forallb (fun b => bz b <? 128) (concat (rec_data r))
  then Ok (map (fun c => PStr (string_of_list_byte c)) (rec_data r))
  else Raise UnicodeDecodeError.
Proof.
  intros (w & W & L4 & M & N & F) T.
  rewrite T in W. inversion W; subst w. clear W.
  unfold extractData. rewrite T. simpl Z.eqb. cbv iota.
  rewrite extract_loop_all.
  - apply mapM_dec_char. exact F.
  - rewrite N. change (Z.of_nat 1) with 1. rewrite Z.div_1_r. reflexivity.
Qed.

(** C7.  On an ASCII record (data type 0x06, which takes the final
    [else]) [extractData] yields, chunk by chunk and in order, the
    one-character string of each payload byte, so that the strings put
    end to end spell the payload; it raises
    [UnicodeDecodeError], the invalid-encoding failure, if and only if
    some payload byte is not a code unit that is valid on its own
    (0x80 and above), and raises nothing else. *)
Theorem extractData_ascii (r : record) :
  valid_record r ->
  dat_type r = 6 ->
  (Forall (fun b => bz b < 128) (concat (rec_data r)) ->
   extractData (Rec r) =
   Ok (map (fun c => PStr (string_of_list_byte c)) (rec_data r))) /\
  String.concat EmptyString (map string_of_list_byte (rec_data r)) =
    string_of_list_byte (concat (rec_data r)) /\
  (extractData (Rec r) = Raise UnicodeDecodeError <->
   Exists (fun b => 128 <= bz b) (concat (rec_data r))) /\
  (forall e, extractData (Rec r) = Raise e -> e = UnicodeDecodeError).
Proof.
  intros V T.
  rewrite (extractData_ascii_eq r V T).
  split; [|split; [apply concat_chunk_strings|]]; repeat split.
  - intros A. apply forallb_ascii_true in A. rewrite A. reflexivity.
  - destruct (forallb _ _) eqn:B; [discriminate|].
    intros _. apply forallb_ascii_false. exact B.
  - intros X. apply forallb_ascii_false in X. rewrite X. reflexivity.
  - intros e. destruct (forallb _ _); [discriminate|].
    intros H. inversion H. reflexivity.
Qed.

Lemma extractData_ascii_witness :
  extractData (Rec (mkRecord 6 0x19 6 [bytes_of [0x41]; bytes_of [0x42]])) =
    Ok [PStr "A"; PStr "B"] /\
  extractData (Rec (mkRecord 6 0x19 6 [bytes_of [0x41]; bytes_of [0xC3]])) =
    Raise UnicodeDecodeError.
Proof.
  split.
  - apply (proj1 (extractData_ascii
                    (mkRecord 6 0x19 6 [bytes_of [0x41]; bytes_of [0x42]])
                    ltac:(exists 1%nat; repeat split; try reflexivity;
                          [discriminate | repeat constructor])
                    eq_refl)).
    repeat constructor.
  - apply (proj1 (proj2 (proj2 (extractData_ascii
                    (mkRecord 6 0x19 6 [bytes_of [0x41]; bytes_of [0xC3]])
                    ltac:(exists 1%nat; repeat split; try reflexivity;
                          [discriminate | repeat constructor])
                    eq_refl)))).
    right. left. vm_compute. discriminate.
Defined.

(** ** The driver loop *)

(** A record that was read took at least its header out of the file. *)
Lemma readStream_consumes (s s' : stream) (r : record) :
  readStream s = (Rec r, s') ->
  (length (remaining s') + 4 <= length (remaining s))%nat.
Proof.
  intros H.
  destruct (remaining s) as [|b0 [|b1 [|t [|d rest]]]] eqn:R;
    try (pose proof (readStream_short s) as S; rewrite R in S;
         rewrite H in S; simpl in S; specialize (S ltac:(lia)); discriminate S).
  rewrite (readStream_header s b0 b1 t d rest R) in H.
  unfold header_fields in H.
  destruct (dat_size (sign_extend 8 (be_unsigned [d]))) as [w|e]; [|discriminate H].
  cbv zeta in H. inversion H; subst. clear H.
  rewrite <- Nat.add_assoc, remaining_advance, length_skipn, R. simpl length. lia.
Qed.

Lemma loop_body_continue (s s' : stream) (acc acc' : list entry) :
  loop_body s acc = Continue s' acc' ->
  (length (remaining s') < length (remaining s))%nat.
Proof.
  unfold loop_body. destruct (readStream s) as [rcd s1] eqn:R.
  destruct rcd as [r|]; [|simpl; discriminate].
  destruct (extractData (Rec r)); [|discriminate].
  destruct (appendName (Rec r)); [|discriminate].
  destruct (is_endlib (Rec r)); [discriminate|].
  intros H. inversion H; subst.
  apply readStream_consumes in R. lia.
Qed.

(** The loop ends within as many iterations as there are bytes left,
    plus one. *)
Lemma main_loop_total (fuel : nat) (s : stream) (acc : list entry) :
  (length (remaining s) < fuel)%nat ->
  exists o, main_loop fuel s acc = Some o.
Proof.
  revert s acc. induction fuel as [|fuel IH]; intros s acc H; [lia|].
  simpl. destruct (loop_body s acc) as [out|s' out|e] eqn:B.
  - eexists; reflexivity.
  - apply IH. apply loop_body_continue in B. lia.
  - eexists; reflexivity.
Qed.

Lemma main_loop_steps (fuel : nat) (s : stream) (acc : list entry) (o : outcome) :
  main_loop fuel s acc = Some o -> steps (Reading s acc) (Finished o).
Proof.
  revert s acc. induction fuel as [|fuel IH]; intros s acc H; [discriminate|].
  simpl in H. destruct (loop_body s acc) as [out|s' out|e] eqn:B.
  - inversion H; subst. eapply steps_cons; [apply step_break; exact B | apply steps_refl].
  - eapply steps_cons; [apply step_continue; exact B | apply IH; exact H].
  - inversion H; subst. eapply steps_cons; [apply step_exc; exact B | apply steps_refl].
Qed.

(** The transition relation is a partial function, and the finished
    states are final. *)
Lemma step_deterministic (st st1 st2 : dstate) :
  step st st1 -> step st st2 -> st1 = st2.
Proof.
  intros H1 H2.
  inversion H1; subst; inversion H2; subst; congruence.
Qed.

Lemma finished_final (o : outcome) (st : dstate) : ~ step (Finished o) st.
Proof.
  intros H. inversion H.
Qed.

Lemma steps_finished (o : outcome) (st : dstate) :
  steps (Finished o) st -> st = Finished o.
Proof.
  intros H. inversion H; subst; [reflexivity|].
  exfalso. eapply finished_final. eassumption.
Qed.

Lemma steps_deterministic (st : dstate) (o1 o2 : outcome) :
  steps st (Finished o1) -> steps st (Finished o2) -> o1 = o2.
Proof.
  intros H1. revert o2.
  remember (Finished o1) as f eqn:F.
  induction H1 as [st | st1 st2 st3 S12 S23 IH]; intros o2 H2; subst.
  - apply steps_finished in H2. congruence.
  - inversion H2; subst.
    + exfalso. eapply finished_final. eassumption.
    + match goal with
      | S' : step st1 ?x |- _ =>
          rewrite (step_deterministic _ _ _ S12 S') in IH
      end.
      apply IH; [reflexivity | assumption].
Qed.

(** What [readStream] returns, and the bytes it leaves, depend on the
    bytes that remain only, not on the position or on what was read
    before. *)
Lemma readStream_remaining (s1 s2 : stream) :
  remaining s1 = remaining s2 ->
  fst (readStream s1) = fst (readStream s2) /\
  (fst (readStream s1) <> Minus1 ->
   remaining (snd (readStream s1)) = remaining (snd (readStream s2))).
Proof.
  intros E.
  destruct (remaining s1) as [|b0 [|b1 [|t [|d rest]]]] eqn:R1;
    try (split; [rewrite !readStream_short by (rewrite <- ?E, ?R1; simpl; lia);
                 reflexivity
                |intros C; exfalso; apply C; apply readStream_short;
                 rewrite R1; simpl; lia]).
  symmetry in E.
  rewrite (readStream_header s1 b0 b1 t d rest R1).
  rewrite (readStream_header s2 b0 b1 t d rest E).
  unfold header_fields.
  destruct (dat_size (sign_extend 8 (be_unsigned [d]))) as [w|e]; cbv zeta.
  - split; [reflexivity|]. intros _. cbn [snd].
    rewrite <- !Nat.add_assoc, !remaining_advance, R1, E. reflexivity.
  - split; [reflexivity|]. intros C. exfalso. apply C. reflexivity.
Qed.

Lemma main_loop_remaining (fuel : nat) (s1 s2 : stream) (acc : list entry) :
  remaining s1 = remaining s2 ->
  main_loop fuel s1 acc = main_loop fuel s2 acc.
Proof.
  revert s1 s2 acc. induction fuel as [|fuel IH]; intros s1 s2 acc E; [reflexivity|].
  cbn [main_loop]. unfold loop_body.
  destruct (readStream_remaining s1 s2 E) as [F Rm].
  destruct (readStream s1) as [rcd1 s1'], (readStream s2) as [rcd2 s2'].
  cbn [fst snd] in F, Rm. subst rcd2.
  destruct (extractData rcd1) as [data|e] eqn:X; [|reflexivity].
  destruct (appendName rcd1) as [name|e]; [|reflexivity].
  destruct (is_endlib rcd1); [reflexivity|].
  apply IH. apply Rm. intros C. subst rcd1. discriminate X.
Qed.

(** C9.  Decoding is deterministic: over a given byte string the loop
    always ends, every run of the driver from the start of the file ends
    in the same outcome, and that outcome is the value the function
    [main] computes from the bytes alone; a file object that has the
    same bytes ahead of it, whatever its position and its past, decodes
    to the same outcome. *)
Theorem decode_deterministic (input : list byte) :
  (exists o,
     main input = Some o /\
     steps (Reading (open_rb input) []) (Finished o) /\
     forall o', steps (Reading (open_rb input) []) (Finished o') -> o' = o) /\
  (forall s, remaining s = input ->
     main_loop (S (length input)) s [] = main input).
Proof.
  split.
  - destruct (main_loop_total (S (length input)) (open_rb input) []) as [o Ho].
    + unfold remaining, open_rb. simpl. lia.
    + exists o. split; [exact Ho|].
      pose proof (main_loop_steps _ _ _ _ Ho) as St.
      split; [exact St|].
      intros o' St'. eapply steps_deterministic; eassumption.
  - intros s R. unfold main. apply main_loop_remaining. exact R.
Qed.

Lemma decode_deterministic_witness :
  main_loop 11 (mkStream (bytes_of [0xFF; 0; 6; 0; 2; 2; 0x58; 0; 4; 4; 0]) 1) [] =
  main (bytes_of [0; 6; 0; 2; 2; 0x58; 0; 4; 4; 0]).
Proof.
  exact (proj2 (decode_deterministic (bytes_of [0; 6; 0; 2; 2; 0x58; 0; 4; 4; 0]))
           (mkStream (bytes_of [0xFF; 0; 6; 0; 2; 2; 0x58; 0; 4; 4; 0]) 1) eq_refl).
Defined.

(** ** Binary64 arithmetic *)

(** *** Digits and shifts *)

Lemma digits2_pos_bounds (p : positive) :
  2 ^ (Zpos (digits2_pos p) - 1) <= Zpos p < 2 ^ Zpos (digits2_pos p).
Proof.
  induction p as [p IH|p IH|]; simpl digits2_pos;
    [change (Zpos p~1) with (2 * Zpos p + 1)
    |change (Zpos p~0) with (2 * Zpos p)
    |simpl; lia];
    rewrite Pos2Z.inj_succ;
    set (d := Zpos (digits2_pos p)) in *;
    assert (0 < d) by (unfold d; lia);
    clearbody d;
    replace (Z.succ d - 1) with d by lia;
    rewrite Z.pow_succ_r by lia;
    assert (E : 2 ^ d = 2 * 2 ^ (d - 1))
      by (rewrite <- Z.pow_succ_r by lia; f_equal; lia);
    lia.
Qed.

Lemma digits2_pos_unique (p : positive) (k : Z) :
  2 ^ (k - 1) <= Zpos p < 2 ^ k -> Zpos (digits2_pos p) = k.
Proof.
  intros [L U]. pose proof (digits2_pos_bounds p) as [L' U'].
  assert (0 < k).
  { destruct (Z.ltb_spec 0 k); [assumption|].
    exfalso. assert (2 ^ k <= 2 ^ 0) by (apply Z.pow_le_mono_r; lia).
    simpl in *. lia. }
  destruct (Z.lt_trichotomy (Zpos (digits2_pos p)) k) as [C|[C|C]]; [|exact C|].
  - assert (2 ^ Zpos (digits2_pos p) <= 2 ^ (k - 1)) by (apply Z.pow_le_mono_r; lia). lia.
  - assert (2 ^ k <= 2 ^ (Zpos (digits2_pos p) - 1)) by (apply Z.pow_le_mono_r; lia). lia.
Qed.

Lemma iter_xO_mul (m d : positive) :
  Zpos (Pos.iter xO m d) = Zpos m * 2 ^ Zpos d.
Proof.
  induction d as [|d IH] using Pos.peano_ind.
  - simpl. lia.
  - rewrite Pos.iter_succ.
    change (Zpos (Pos.iter xO m d)~0) with (2 * Zpos (Pos.iter xO m d)).
    rewrite IH, Pos2Z.inj_succ, Z.pow_succ_r by lia. lia.
Qed.

Lemma digits2_pos_mul_pow2 (m : positive) (t : Z) :
  0 <= t ->
  Zpos (digits2_pos (Z.to_pos (Zpos m * 2 ^ t))) = Zpos (digits2_pos m) + t.
Proof.
  intros Ht. apply digits2_pos_unique.
  pose proof (digits2_pos_bounds m) as [L U].
  assert (P : 0 < 2 ^ t) by (apply Z.pow_pos_nonneg; lia).
  rewrite Z2Pos.id by lia.
  replace (Zpos (digits2_pos m) + t - 1) with (Zpos (digits2_pos m) - 1 + t) by lia.
  rewrite !Z.pow_add_r by lia. nia.
Qed.

Lemma iter_pos_nat {A} (f : A -> A) (n : positive) (x : A) :
  SpecFloat.iter_pos f n x = Nat.iter (Pos.to_nat n) f x.
Proof.
  revert x. induction n as [n IH|n IH|]; intros x; cbn [SpecFloat.iter_pos].
  - rewrite !IH, Pos2Nat.inj_xI.
    replace (S (2 * Pos.to_nat n)) with (Pos.to_nat n + (Pos.to_nat n + 1))%nat by lia.
    rewrite !Nat.iter_add. reflexivity.
  - rewrite !IH, Pos2Nat.inj_xO.
    replace (2 * Pos.to_nat n)%nat with (Pos.to_nat n + Pos.to_nat n)%nat by lia.
    rewrite Nat.iter_add. reflexivity.
  - reflexivity.
Qed.

(** *** The two stages of rounding *)

Lemma shr_nat (mrs : shr_record) (e n : Z) :
  shr mrs e n = (Nat.iter (Z.to_nat n) shr_1 mrs, e + Z.max 0 n).
Proof.
  destruct n as [|p|p]; simpl.
  - rewrite Z.add_0_r. reflexivity.
  - rewrite iter_pos_nat. reflexivity.
  - rewrite Z.add_0_r. reflexivity.
Qed.

Lemma shr_1_double (y : Z) :
  0 < y -> shr_1 (exact_rec (2 * y)) = exact_rec y.
Proof.
  intros H. destruct y as [|p|p]; try lia. reflexivity.
Qed.

Lemma iter_shr_1_pow2 (a : nat) (b x : Z) :
  0 < x -> 0 <= b ->
  Nat.iter a shr_1 (exact_rec (x * 2 ^ (Z.of_nat a + b))) = exact_rec (x * 2 ^ b).
Proof.
  intros Hx. revert b. induction a as [|a IH]; intros b Hb.
  - reflexivity.
  - rewrite Nat.iter_succ.
    replace (Z.of_nat (S a) + b) with (Z.of_nat a + (b + 1)) by lia.
    rewrite IH by lia.
    rewrite Z.pow_add_r by lia. change (2 ^ 1) with 2.
    replace (x * (2 ^ b * 2)) with (2 * (x * 2 ^ b)) by lia.
    apply shr_1_double.
    assert (0 < 2 ^ b) by (apply Z.pow_pos_nonneg; lia). nia.
Qed.

Lemma shl_align_eq (m : positive) (e e' : Z) :
  shl_align m e e' = (Z.to_pos (Zpos m * 2 ^ Z.max 0 (e - e')), Z.min e e').
Proof.
  unfold shl_align. destruct (e' - e) as [|d|d] eqn:E.
  - replace (Z.max 0 (e - e')) with 0 by lia. rewrite Z.mul_1_r.
    rewrite Z.min_l by lia. reflexivity.
  - replace (Z.max 0 (e - e')) with 0 by lia. rewrite Z.mul_1_r.
    rewrite Z.min_l by lia. reflexivity.
  - replace (Z.max 0 (e - e')) with (Zpos d) by lia.
    rewrite <- iter_xO_mul. rewrite Z.min_r by lia. reflexivity.
Qed.

Lemma fexp_eq (x : Z) : fexp 53 1024 x = Z.max (x - 53) (-1074).
Proof. reflexivity. Qed.

Lemma binary_round_stages (s : bool) (m : positive) (e : Z) :
  binary_round 53 1024 s m e = round_finish s (round_start m e).
Proof.
  unfold binary_round, round_start, round_finish.
  rewrite shl_align_eq.
  set (d := Zpos (digits2_pos m)).
  set (F := fexp 53 1024 (d + e)).
  unfold binary_round_aux.
  assert (P : 0 < 2 ^ Z.max 0 (e - F)) by (apply Z.pow_pos_nonneg; lia).
  assert (Q : 0 < Zpos m * 2 ^ Z.max 0 (e - F)) by (apply Z.mul_pos_pos; lia).
  assert (S1 : shr_fexp 53 1024 (Zpos (Z.to_pos (Zpos m * 2 ^ Z.max 0 (e - F))))
                 (Z.min e F) loc_Exact =
               (Nat.iter (Z.to_nat (F - e)) shr_1
                  (exact_rec (Zpos m * 2 ^ Z.max 0 (e - F))), F)).
  { unfold shr_fexp, Zdigits2.
    rewrite digits2_pos_mul_pow2 by lia. fold d.
    replace (d + Z.max 0 (e - F) + Z.min e F) with (d + e) by lia.
    fold F. rewrite shr_nat. rewrite Z2Pos.id by lia.
    change (shr_record_of_loc (Zpos m * 2 ^ Z.max 0 (e - F)) loc_Exact)
      with (exact_rec (Zpos m * 2 ^ Z.max 0 (e - F))).
    replace (Z.to_nat (F - Z.min e F)) with (Z.to_nat (F - e)) by lia.
    f_equal. lia. }
  rewrite S1. reflexivity.
Qed.

(** Scaling the mantissa by a power of two and the exponent the other
    way does not change what is rounded. *)
Lemma round_start_scale (m : positive) (t e : Z) :
  0 <= t ->
  round_start (Z.to_pos (Zpos m * 2 ^ t)) (e - t) = round_start m e.
Proof.
  intros Ht. unfold round_start.
  rewrite digits2_pos_mul_pow2 by lia.
  set (d := Zpos (digits2_pos m)).
  replace (d + t + (e - t)) with (d + e) by lia.
  set (F := fexp 53 1024 (d + e)).
  assert (Pt : 0 < 2 ^ t) by (apply Z.pow_pos_nonneg; lia).
  rewrite Z2Pos.id by (apply Z.mul_pos_pos; lia).
  f_equal.
  destruct (Z.le_gt_cases e F) as [C|C].
  - (* the shift to the right absorbs the scaling *)
    replace (Z.max 0 (e - t - F)) with 0 by lia.
    replace (Z.max 0 (e - F)) with 0 by lia.
    rewrite !Z.mul_1_r.
    replace (Z.to_nat (F - (e - t))) with (Z.to_nat (F - e) + Z.to_nat t)%nat by lia.
    rewrite Nat.iter_add. f_equal.
    pose proof (iter_shr_1_pow2 (Z.to_nat t) 0 (Zpos m)) as I.
    rewrite Z2Nat.id, Z.add_0_r, Z.mul_1_r in I by lia.
    apply I; lia.
  - replace (Z.to_nat (F - e)) with 0%nat by lia.
    replace (Z.max 0 (e - F)) with (e - F) by lia.
    destruct (Z.le_gt_cases (e - t) F) as [C'|C'].
    + replace (Z.max 0 (e - t - F)) with 0 by lia.
      rewrite Z.mul_1_r.
      pose proof (iter_shr_1_pow2 (Z.to_nat (F - (e - t))) (e - F) (Zpos m)) as I.
      rewrite Z2Nat.id in I by lia.
      replace (F - (e - t) + (e - F)) with t in I by lia.
      apply I; lia.
    + replace (Z.to_nat (F - (e - t))) with 0%nat by lia.
      replace (Z.max 0 (e - t - F)) with (e - t - F) by lia.
      replace (Zpos m * 2 ^ t * 2 ^ (e - t - F)) with (Zpos m * 2 ^ (e - F));
        [reflexivity|].
      rewrite <- Z.mul_assoc, <- Z.pow_add_r by lia. f_equal. f_equal. lia.
Qed.

Lemma binary_round_scale (s : bool) (m : positive) (t e : Z) :
  0 <= t ->
  binary_round 53 1024 s (Z.to_pos (Zpos m * 2 ^ t)) (e - t) =
  binary_round 53 1024 s m e.
Proof.
  intros Ht. rewrite !binary_round_stages, round_start_scale by exact Ht.
  reflexivity.
Qed.

Lemma f64_normalize_scale (q t e : Z) (sz : bool) :
  0 < q -> 0 <= t ->
  f64_normalize (q * 2 ^ t) (e - t) sz = f64_normalize q e sz.
Proof.
  intros Hq Ht. destruct q as [|p|p]; try lia.
  assert (Pt : 0 < 2 ^ t) by (apply Z.pow_pos_nonneg; lia).
  unfold f64_normalize, binary_normalize.
  destruct (Zpos p * 2 ^ t) as [|p'|p'] eqn:E; try lia.
  rewrite <- (binary_round_scale false p t e Ht), E. reflexivity.
Qed.

(** *** Shifting right *)

Lemma shr_m_shr_1 (mrs : shr_record) :
  0 <= shr_m mrs -> shr_m (shr_1 mrs) = shr_m mrs / 2.
Proof.
  destruct mrs as [m r s]. simpl. intros H.
  destruct m as [|[p|p|]|p]; try lia; simpl shr_m; try reflexivity.
  - change (Zpos p~1) with (2 * Zpos p + 1).
    apply (Z.div_unique _ 2 _ 1); lia.
  - change (Zpos p~0) with (2 * Zpos p).
    apply (Z.div_unique _ 2 _ 0); lia.
Qed.

Lemma shr_m_iter (n : nat) (mrs : shr_record) :
  0 <= shr_m mrs ->
  shr_m (Nat.iter n shr_1 mrs) = shr_m mrs / 2 ^ Z.of_nat n.
Proof.
  intros H. induction n as [|n IH].
  - simpl. rewrite Z.div_1_r. reflexivity.
  - rewrite Nat.iter_succ, shr_m_shr_1, IH.
    + rewrite Z.div_div by lia.
      rewrite Nat2Z.inj_succ, Z.pow_succ_r by lia. f_equal. lia.
    + rewrite IH. apply Z.div_pos; [exact H|]. apply Z.pow_pos_nonneg; lia.
Qed.

Lemma shr_1_spec (m : Z) (r s : bool) :
  0 <= m ->
  shr_1 (Build_shr_record m r s) = Build_shr_record (m / 2) (Z.odd m) (r || s).
Proof.
  intros H.
  pose proof (shr_m_shr_1 (Build_shr_record m r s) H) as D. cbn [shr_m] in D.
  rewrite <- D.
  destruct m as [|[p|p|]|p]; try lia; reflexivity.
Qed.

(** What the round and sticky bits remember of the bits shifted out:
    twice the number is twice the kept part, plus the round bit at the
    weight of the last kept place, plus a remainder below that weight,
    which is zero exactly when the sticky bit is clear. *)
Lemma shr_iter_inv (n : nat) (N : Z) :
  0 <= N ->
  exists rho,
    2 * N = 2 * shr_m (Nat.iter n shr_1 (exact_rec N)) * 2 ^ Z.of_nat n
            + (if shr_r (Nat.iter n shr_1 (exact_rec N)) then 2 ^ Z.of_nat n else 0)
            + rho /\
    0 <= rho < 2 ^ Z.of_nat n /\
    (shr_s (Nat.iter n shr_1 (exact_rec N)) = false <-> rho = 0) /\
    0 <= shr_m (Nat.iter n shr_1 (exact_rec N)).
Proof.
  intros HN. induction n as [|n (rho & E & B & S & M)].
  - exists 0. cbn [Nat.iter nat_rect exact_rec shr_m shr_r shr_s].
    change (2 ^ Z.of_nat 0) with 1. repeat split; lia.
  - rewrite Nat.iter_succ.
    destruct (Nat.iter n shr_1 (exact_rec N)) as [m r s].
    cbn [shr_m shr_r shr_s] in E, B, S, M.
    rewrite shr_1_spec by exact M. cbn [shr_m shr_r shr_s].
    rewrite Nat2Z.inj_succ, Z.pow_succ_r by lia.
    set (P := 2 ^ Z.of_nat n) in *.
    assert (0 < P) by (apply Z.pow_pos_nonneg; lia).
    pose proof (Z.div_mod m 2 ltac:(lia)) as Dm.
    rewrite Zmod_odd in Dm.
    assert (0 <= m / 2) by (apply Z.div_pos; lia).
    exists ((if r then P else 0) + rho).
    split; [destruct (Z.odd m), r; nia|].
    split; [destruct r; lia|].
    split; [|assumption].
    destruct r, s; simpl orb; split; intros X; try discriminate X; try lia;
      try reflexivity; apply S; lia.
Qed.

(** Rounding to nearest is off by at most half of the last kept place. *)
Lemma round_nearest_even_error (n : nat) (N : Z) :
  0 <= N ->
  Z.abs (2 * round_nearest_even
               (shr_m (Nat.iter n shr_1 (exact_rec N)))
               (loc_of_shr_record (Nat.iter n shr_1 (exact_rec N)))
           * 2 ^ Z.of_nat n - 2 * N) <= 2 ^ Z.of_nat n.
Proof.
  intros HN. destruct (shr_iter_inv n N HN) as (rho & E & B & S & M).
  destruct (Nat.iter n shr_1 (exact_rec N)) as [m r s].
  cbn [shr_m shr_r shr_s] in *.
  set (P := 2 ^ Z.of_nat n) in *.
  assert (0 < P) by (apply Z.pow_pos_nonneg; lia).
  destruct r, s; cbn [loc_of_shr_record round_nearest_even].
  - nia.
  - assert (rho = 0) by (apply S; reflexivity). destruct (Z.even m); nia.
  - nia.
  - assert (rho = 0) by (apply S; reflexivity). nia.
Qed.

(** *** Rounding a mantissa in the normal range *)

Lemma round_nearest_even_bounds (q : Z) (l : location) :
  q <= round_nearest_even q l <= q + 1.
Proof.
  destruct l as [|[ | | ]]; simpl; try lia.
  destruct (Z.even q); lia.
Qed.

Lemma digits2_pos_53 (p : positive) :
  2 ^ 52 <= Zpos p < 2 ^ 53 -> digits2_pos p = 53%positive.
Proof.
  intros H. pose proof (digits2_pos_unique p 53 H) as E.
  injection E. auto.
Qed.

Lemma shr_m_exact (m : Z) : shr_m (exact_rec m) = m.
Proof. reflexivity. Qed.

Lemma loc_exact (m : Z) : loc_of_shr_record (exact_rec m) = loc_Exact.
Proof. reflexivity. Qed.

(** With 53 bits in front of the rounding position, rounding keeps them
    or goes up by one unit, and the unit may carry into a 54th bit. *)
Lemma round_finish_normal (R : shr_record) :
  2 ^ 52 <= shr_m R < 2 ^ 53 ->
  exists (m : positive) (k : Z),
    digits2_pos m = 53%positive /\
    (k = 0 \/ (k = 1 /\ Zpos m = 2 ^ 52)) /\
    Zpos m * 2 ^ k = round_nearest_even (shr_m R) (loc_of_shr_record R) /\
    forall s F, -1074 <= F -> F + k <= 971 ->
      round_finish s (R, F) = S754_finite s m (F + k).
Proof.
  intros B.
  pose proof (round_nearest_even_bounds (shr_m R) (loc_of_shr_record R)) as Q.
  unfold round_finish.
  set (q' := round_nearest_even (shr_m R) (loc_of_shr_record R)) in *.
  destruct (Z.ltb_spec q' (2 ^ 53)) as [C|C].
  - destruct q' as [|p|p] eqn:Eq; try lia.
    assert (D : digits2_pos p = 53%positive) by (apply digits2_pos_53; lia).
    exists p, 0.
    split; [exact D|]. split; [left; reflexivity|]. split; [lia|].
    intros s F HF HF'.
    unfold shr_fexp, Zdigits2. rewrite D, fexp_eq, shr_nat.
    replace (Z.to_nat (Z.max (53 + F - 53) (-1074) - F)) with 0%nat by lia.
    replace (Z.max 0 (Z.max (53 + F - 53) (-1074) - F)) with 0 by lia.
    simpl. destruct (Z.leb_spec (F + 0) 971); [reflexivity | lia].
  - assert (E : q' = 2 ^ 53) by lia.
    exists (2 ^ 52)%positive, 1.
    split; [reflexivity|]. split; [right; split; reflexivity|].
    split; [rewrite E; reflexivity|].
    intros s F HF HF'. rewrite E.
    unfold shr_fexp. change (Zdigits2 (2 ^ 53)) with 54.
    rewrite fexp_eq, shr_nat.
    replace (Z.to_nat (Z.max (54 + F - 53) (-1074) - F)) with 1%nat by lia.
    replace (Z.max 0 (Z.max (54 + F - 53) (-1074) - F)) with 1 by lia.
    simpl. destruct (Z.leb_spec (F + 1) 971); [reflexivity | lia].
Qed.

(** The result of [binary_round] away from underflow and overflow: a
    53-bit mantissa that depends on the given mantissa only, at the
    exponent shifted by the number of digits dropped. *)
Lemma binary_round_normal (q : positive) :
  exists (m : positive) (k : Z),
    digits2_pos m = 53%positive /\
    (k = Zpos (digits2_pos q) - 53 \/
     (k = Zpos (digits2_pos q) - 52 /\ Zpos m = 2 ^ 52 /\ 53 < Zpos (digits2_pos q))) /\
    (Zpos (digits2_pos q) <= 53 -> Zpos m = Zpos q * 2 ^ (53 - Zpos (digits2_pos q))) /\
    (forall s e, -1074 <= Zpos (digits2_pos q) + e - 53 -> e + k <= 971 ->
       binary_round 53 1024 s q e = S754_finite s m (e + k)) /\
    (53 < Zpos (digits2_pos q) ->
     Z.abs (2 * (Zpos m * 2 ^ k) - 2 * Zpos q) <= 2 ^ (Zpos (digits2_pos q) - 53)).
Proof.
  set (d := Zpos (digits2_pos q)).
  pose proof (digits2_pos_bounds q) as [L U]. fold d in L, U.
  assert (Dp : 0 < d) by (unfold d; lia).
  set (R := Nat.iter (Z.to_nat (d - 53)) shr_1
              (exact_rec (Zpos q * 2 ^ Z.max 0 (53 - d)))).
  assert (St : forall e, -1074 <= d + e - 53 -> round_start q e = (R, d + e - 53)).
  { intros e He. unfold round_start. fold d. rewrite fexp_eq.
    replace (Z.max (d + e - 53) (-1074)) with (d + e - 53) by lia.
    replace (d + e - 53 - e) with (d - 53) by lia.
    replace (e - (d + e - 53)) with (53 - d) by lia.
    reflexivity. }
  assert (B : 2 ^ 52 <= shr_m R < 2 ^ 53 /\
              (d <= 53 -> R = exact_rec (Zpos q * 2 ^ (53 - d)))).
  { destruct (Z.le_gt_cases d 53) as [C|C].
    - assert (ER : R = exact_rec (Zpos q * 2 ^ (53 - d))).
      { unfold R. replace (Z.to_nat (d - 53)) with 0%nat by lia.
        replace (Z.max 0 (53 - d)) with (53 - d) by lia. reflexivity. }
      split; [|intros _; exact ER]. rewrite ER, shr_m_exact.
      assert (E1 : 2 ^ 52 = 2 ^ (d - 1) * 2 ^ (53 - d))
        by (rewrite <- Z.pow_add_r by lia; f_equal; lia).
      assert (E2 : 2 ^ 53 = 2 ^ d * 2 ^ (53 - d))
        by (rewrite <- Z.pow_add_r by lia; f_equal; lia).
      assert (0 < 2 ^ (53 - d)) by (apply Z.pow_pos_nonneg; lia).
      rewrite E1, E2. split.
      + apply Z.mul_le_mono_nonneg_r; lia.
      + apply Z.mul_lt_mono_pos_r; lia.
    - split; [|lia]. unfold R.
      replace (Z.max 0 (53 - d)) with 0 by lia. rewrite Z.mul_1_r.
      rewrite shr_m_iter by (rewrite shr_m_exact; lia).
      rewrite shr_m_exact.
      rewrite Z2Nat.id by lia.
      assert (P : 0 < 2 ^ (d - 53)) by (apply Z.pow_pos_nonneg; lia).
      assert (E1 : 2 ^ (d - 1) = 2 ^ (d - 53) * 2 ^ 52)
        by (rewrite <- Z.pow_add_r by lia; f_equal; lia).
      assert (E2 : 2 ^ d = 2 ^ (d - 53) * 2 ^ 53)
        by (rewrite <- Z.pow_add_r by lia; f_equal; lia).
      split.
      + apply Z.div_le_lower_bound; lia.
      + apply Z.div_lt_upper_bound; lia. }
  destruct B as [B BE].
  destruct (round_finish_normal R B) as (m & k0 & Dm & K & V & Fin).
  exists m, (d - 53 + k0).
  assert (K0 : d <= 53 -> k0 = 0 /\ Zpos m = Zpos q * 2 ^ (53 - d)).
  { intros C. rewrite (BE C), shr_m_exact, loc_exact in V.
    change (round_nearest_even ?x loc_Exact) with x in V.
    destruct K as [K|[K Em]].
    - subst k0. split; [reflexivity|]. lia.
    - exfalso. subst k0. rewrite (BE C), shr_m_exact in B.
      rewrite Em in V. change (2 ^ 52 * 2 ^ 1) with (2 ^ 53) in V. lia. }
  repeat split.
  - exact Dm.
  - destruct K as [K|[K Em]]; [left; lia|].
    right. repeat split; [lia | exact Em |].
    destruct (Z.le_gt_cases d 53) as [C|C]; [|lia].
    destruct (K0 C). lia.
  - intros C. apply K0. exact C.
  - intros s e He Hk. rewrite binary_round_stages, St by exact He.
    rewrite Fin by lia. f_equal. lia.
  - intros C.
    pose proof (round_nearest_even_error (Z.to_nat (d - 53)) (Zpos q) ltac:(lia)) as Er.
    rewrite Z2Nat.id in Er by lia.
    assert (ER : R = Nat.iter (Z.to_nat (d - 53)) shr_1 (exact_rec (Zpos q))).
    { unfold R. replace (Z.max 0 (53 - d)) with 0 by lia.
      rewrite Z.mul_1_r. reflexivity. }
    rewrite <- ER, <- V in Er.
    assert (0 <= k0) by lia.
    rewrite Z.pow_add_r by lia.
    replace (2 * (Zpos m * (2 ^ (d - 53) * 2 ^ k0)))
      with (2 * (Zpos m * 2 ^ k0) * 2 ^ (d - 53)) by ring.
    exact Er.
Qed.

(** *** Normalisation, addition and scaling of dyadic numbers *)

Lemma f64_normalize_finite (q e : Z) :
  0 < q ->
  exists (m : positive) (k : Z),
    digits2_pos m = 53%positive /\
    (k = Zdigits2 q - 53 \/
     (k = Zdigits2 q - 52 /\ Zpos m = 2 ^ 52 /\ 53 < Zdigits2 q)) /\
    (Zdigits2 q <= 53 -> Zpos m = q * 2 ^ (53 - Zdigits2 q)) /\
    (forall c sz, -1074 <= Zdigits2 q + (e + c) - 53 -> e + c + k <= 971 ->
       f64_normalize q (e + c) sz = S754_finite false m (e + c + k)) /\
    (53 < Zdigits2 q ->
     Z.abs (2 * (Zpos m * 2 ^ k) - 2 * q) <= 2 ^ (Zdigits2 q - 53)).
Proof.
  intros Hq. destruct q as [|p|p]; try lia.
  destruct (binary_round_normal p) as (m & k & D & K & V & B & Er).
  exists m, k.
  split; [exact D|]. split; [exact K|]. split; [exact V|].
  split; [|exact Er].
  intros c sz L U. unfold f64_normalize, binary_normalize.
  apply B; assumption.
Qed.

Lemma Zdigits2_bounds (q : Z) :
  0 < q -> 2 ^ (Zdigits2 q - 1) <= q < 2 ^ Zdigits2 q.
Proof.
  intros H. destruct q as [|p|p]; try lia. apply digits2_pos_bounds.
Qed.

Lemma Zdigits2_le (q n : Z) : 0 < q < 2 ^ n -> 0 < Zdigits2 q <= n.
Proof.
  intros [H U]. pose proof (Zdigits2_bounds q H) as [L _].
  split; [destruct q; simpl; lia|].
  destruct (Z.le_gt_cases (Zdigits2 q) n) as [C|C]; [exact C|].
  assert (2 ^ n <= 2 ^ (Zdigits2 q - 1)) by (apply Z.pow_le_mono_r; lia). lia.
Qed.

(** Adding two positive numbers of at most 53 bits rounds their exact
    sum once. *)
Lemma fadd_normalize (x y ex ey : Z) :
  0 < x -> 0 < y -> Zdigits2 x <= 53 -> Zdigits2 y <= 53 ->
  -1074 <= Zdigits2 x + ex - 53 -> ex + Zdigits2 x - 53 <= 971 ->
  -1074 <= Zdigits2 y + ey - 53 -> ey + Zdigits2 y - 53 <= 971 ->
  fadd (f64_normalize x ex false) (f64_normalize y ey false) =
  f64_normalize (x * 2 ^ (ex - Z.min ex ey) + y * 2 ^ (ey - Z.min ex ey))
                (Z.min ex ey) false.
Proof.
  intros Hx Hy Dx Dy Lx Ux Ly Uy.
  pose proof (Zdigits2_le x (Zdigits2 x)) as Px.
  pose proof (Zdigits2_le y (Zdigits2 y)) as Py.
  pose proof (Zdigits2_bounds x Hx). pose proof (Zdigits2_bounds y Hy).
  destruct (f64_normalize_finite x ex Hx) as (mx & kx & _ & Kx & Vx & Bx & _).
  destruct (f64_normalize_finite y ey Hy) as (my & ky & _ & Ky & Vy & By & _).
  assert (Ekx : kx = Zdigits2 x - 53) by lia.
  assert (Eky : ky = Zdigits2 y - 53) by lia.
  specialize (Vx Dx). specialize (Vy Dy).
  specialize (Bx 0 false). specialize (By 0 false).
  rewrite !Z.add_0_r in Bx, By.
  rewrite Bx, By by lia.
  set (dx := Zdigits2 x) in *. set (dy := Zdigits2 y) in *.
  set (e := Z.min ex ey).
  unfold fadd, SFadd. rewrite !shl_align_eq. cbn [fst cond_Zopp].
  set (ez := Z.min (ex + kx) (ey + ky)).
  assert (Hmx : 0 < Zpos mx * 2 ^ Z.max 0 (ex + kx - ez))
    by (apply Z.mul_pos_pos; [lia | apply Z.pow_pos_nonneg; lia]).
  assert (Hmy : 0 < Zpos my * 2 ^ Z.max 0 (ey + ky - ez))
    by (apply Z.mul_pos_pos; [lia | apply Z.pow_pos_nonneg; lia]).
  rewrite !Z2Pos.id by assumption.
  rewrite Vx, Vy.
  rewrite <- !Z.mul_assoc, <- !Z.pow_add_r by lia.
  replace (53 - dx + Z.max 0 (ex + kx - ez)) with ((ex - e) + (e - ez)) by lia.
  replace (53 - dy + Z.max 0 (ey + ky - ez)) with ((ey - e) + (e - ez)) by lia.
  rewrite !Z.pow_add_r by lia.
  replace (x * (2 ^ (ex - e) * 2 ^ (e - ez)) + y * (2 ^ (ey - e) * 2 ^ (e - ez)))
    with ((x * 2 ^ (ex - e) + y * 2 ^ (ey - e)) * 2 ^ (e - ez)) by ring.
  replace ez with (e - (e - ez)) at 2 by lia.
  apply f64_normalize_scale; [|lia].
  assert (0 < 2 ^ (ex - e)) by (apply Z.pow_pos_nonneg; lia).
  assert (0 < 2 ^ (ey - e)) by (apply Z.pow_pos_nonneg; lia).
  nia.
Qed.

(** Scaling by a power of two commutes with rounding as long as the
    result stays in the normal range. *)
Lemma ldexp_normalize (q e c : Z) :
  0 < q ->
  -1074 <= Zdigits2 q + e - 53 -> e + Zdigits2 q - 52 <= 971 ->
  -1074 <= Zdigits2 q + (e + c) - 53 -> e + c + Zdigits2 q - 52 <= 971 ->
  ldexp (f64_normalize q e false) c = Ok (f64_normalize q (e + c) false).
Proof.
  intros Hq L1 U1 L2 U2.
  destruct (f64_normalize_finite q e Hq) as (m & k & D & K & _ & B & _).
  pose proof (B 0 false) as B0. rewrite !Z.add_0_r in B0.
  rewrite B0, (B c false) by lia.
  unfold ldexp, SFldexp.
  destruct (binary_round_normal m) as (m' & k' & _ & K' & V' & B' & _).
  rewrite D in K', V', B'.
  assert (k' = 0) by lia. subst k'.
  assert (m' = m) by (specialize (V' ltac:(lia)); simpl in V'; lia). subst m'.
  rewrite B' by lia. rewrite Z.add_0_r.
  replace (e + c + k) with (e + k + c) by lia. reflexivity.
Qed.

(** ** The converter *)

Lemma fmul_pow256 (i : Z) :
  1 <= i <= 7 -> fmul (pow256 i) f_256 = pow256 (i + 1).
Proof.
  intros H.
  assert (C : i = 1 \/ i = 2 \/ i = 3 \/ i = 4 \/ i = 5 \/ i = 6 \/ i = 7) by lia.
  repeat (destruct C as [C|C]; [subst i; reflexivity|]).
  subst i; reflexivity.
Qed.

(** A byte divided by a power of 256 is the byte at a lower exponent. *)
Lemma truediv_byte (b : byte) (i : Z) :
  1 <= i <= 7 ->
  truediv (float_of_int (bz b)) (pow256 i) = Ok (f64_normalize (bz b) (-8 * i) false).
Proof.
  intros H.
  assert (C : i = 1 \/ i = 2 \/ i = 3 \/ i = 4 \/ i = 5 \/ i = 6 \/ i = 7) by lia.
  repeat (destruct C as [C|C]; [subst i; destruct b; vm_compute; reflexivity|]).
  subst i; destruct b; vm_compute; reflexivity.
Qed.

Lemma f64_normalize_zero (e : Z) (sz : bool) : f64_normalize 0 e sz = S754_zero sz.
Proof. reflexivity. Qed.

(** One accumulation of the mantissa loop, on the integers behind the
    floats: the sum is rounded once, and not at all below 2^53. *)
Lemma fadd_byte (N b k : Z) :
  0 <= N < 2 ^ 48 -> 0 <= b < 256 -> 0 <= k <= 6 ->
  fadd (f64_normalize N (-8 * k) false) (f64_normalize b (-8 * (k + 1)) false) =
  f64_normalize (256 * N + b) (-8 * (k + 1)) false.
Proof.
  intros HN Hb Hk.
  assert (DN : 0 < N -> 0 < Zdigits2 N <= 48) by (intros; apply Zdigits2_le; lia).
  assert (Db : 0 < b -> 0 < Zdigits2 b <= 8)
    by (intros; apply Zdigits2_le; change (2 ^ 8) with 256; lia).
  destruct (Z.eq_dec N 0) as [N0|N0]; destruct (Z.eq_dec b 0) as [b0|b0]; subst.
  - reflexivity.
  - rewrite Z.mul_0_r, Z.add_0_l, f64_normalize_zero.
    destruct (f64_normalize_finite b (-8 * (k + 1)) ltac:(lia))
      as (m & j & _ & K & _ & B & _).
    specialize (B 0 false). rewrite !Z.add_0_r in B.
    specialize (Db ltac:(lia)). rewrite B by lia. reflexivity.
  - rewrite Z.add_0_r, f64_normalize_zero.
    destruct (f64_normalize_finite N (-8 * k) ltac:(lia))
      as (m & j & _ & K & _ & B & _).
    specialize (B 0 false). rewrite !Z.add_0_r in B.
    specialize (DN ltac:(lia)).
    assert (X : fadd (f64_normalize N (-8 * k) false) (S754_zero false) =
                f64_normalize N (-8 * k) false)
      by (rewrite B by lia; reflexivity).
    rewrite X.
    replace (256 * N) with (N * 2 ^ 8) by (change (2 ^ 8) with 256; lia).
    replace (-8 * (k + 1)) with (-8 * k - 8) by lia.
    symmetry. apply f64_normalize_scale; lia.
  - specialize (DN ltac:(lia)). specialize (Db ltac:(lia)).
    rewrite fadd_normalize by lia.
    rewrite Z.min_r by lia.
    replace (-8 * k - -8 * (k + 1)) with 8 by lia.
    rewrite Z.sub_diag. change (2 ^ 8) with 256. change (2 ^ 0) with 1.
    f_equal. lia.
Qed.

Lemma mantissa_step_dyadic (bs : list byte) (i : nat) (b : byte) (N : Z) :
  nth_error bs i = Some b ->
  (1 <= i <= 7)%nat ->
  0 <= N < 2 ^ 48 ->
  mantissa_step bs
    (f64_normalize N (-8 * (Z.of_nat i - 1)) false, pow256 (Z.of_nat i)) i =
  Ok (f64_normalize (256 * N + bz b) (-8 * Z.of_nat i) false,
      pow256 (Z.of_nat i + 1)).
Proof.
  intros Hb Hi HN. unfold mantissa_step, getitem. rewrite Hb. cbn [bind].
  rewrite truediv_byte by lia. cbn [bind].
  rewrite fmul_pow256 by lia.
  pose proof (fadd_byte N (bz b) (Z.of_nat i - 1) HN (bz_range b) ltac:(lia)) as A.
  replace (Z.of_nat i - 1 + 1) with (Z.of_nat i) in A by lia.
  rewrite A. reflexivity.
Qed.

Lemma be_unsigned_lt (l : list byte) (k : nat) :
  (length l <= k)%nat -> 0 <= be_unsigned l < 2 ^ (8 * Z.of_nat k).
Proof.
  intros H. pose proof (be_unsigned_range l) as [L U].
  split; [exact L|].
  eapply Z.lt_le_trans; [exact U|].
  change 256 with (2 ^ 8). rewrite <- Z.pow_mul_r by lia.
  apply Z.pow_le_mono_r; lia.
Qed.

(** The mantissa loop computes the big-endian integer of the bytes it
    has seen, scaled by the matching power of 256 and rounded. *)
Lemma mantissa_loop_dyadic (b0 : byte) (todo done : list byte) :
  (length done + length todo <= 7)%nat ->
  mantissa_loop (b0 :: done ++ todo) (seq (S (length done)) (length todo))
    (f64_normalize (be_unsigned done) (-8 * Z.of_nat (length done)) false,
     pow256 (Z.of_nat (length done) + 1)) =
  Ok (f64_normalize (be_unsigned (done ++ todo))
        (-8 * Z.of_nat (length done + length todo)) false,
      pow256 (Z.of_nat (length done + length todo) + 1)).
Proof.
  revert done. induction todo as [|b todo IH]; intros done H.
  - simpl. rewrite app_nil_r, Nat.add_0_r. reflexivity.
  - simpl length in *. cbn [seq mantissa_loop].
    pose proof (mantissa_step_dyadic (b0 :: done ++ b :: todo) (S (length done)) b
                  (be_unsigned done)) as St.
    replace (Z.of_nat (S (length done)) - 1) with (Z.of_nat (length done)) in St by lia.
    replace (Z.of_nat (S (length done))) with (Z.of_nat (length done) + 1) in St by lia.
    rewrite St; clear St.
    + cbn [bind].
      replace (256 * be_unsigned done + bz b) with (be_unsigned (done ++ [b]))
        by (rewrite be_unsigned_snoc; lia).
      specialize (IH (done ++ [b])).
      rewrite length_app in IH. simpl length in IH.
      rewrite <- app_assoc in IH. simpl app in IH.
      replace (length done + 1)%nat with (S (length done)) in IH by lia.
      replace (Z.of_nat (S (length done))) with (Z.of_nat (length done) + 1) in IH by lia.
      rewrite IH by lia.
      replace (S (length done) + length todo)%nat
        with (length done + S (length todo))%nat by lia.
      reflexivity.
    + simpl. rewrite nth_error_app2, Nat.sub_diag by lia. reflexivity.
    + lia.
    + pose proof (be_unsigned_lt done 6 ltac:(lia)). simpl in *. lia.
Qed.

Lemma ibm370_mantissa_eq (b0 : byte) (rest : list byte) :
  length rest = 7%nat ->
  ibm370_mantissa (b0 :: rest) = Ok (f64_normalize (be_unsigned rest) (-56) false).
Proof.
  intros L. unfold ibm370_mantissa.
  pose proof (mantissa_loop_dyadic b0 rest [] ltac:(simpl; lia)) as M.
  simpl length in M. rewrite L in M. simpl app in M.
  change (f64_normalize (be_unsigned []) (-8 * Z.of_nat 0) false)
    with (float_of_int 0) in M.
  change (pow256 (Z.of_nat 0 + 1)) with f_256 in M.
  rewrite M. reflexivity.
Qed.

Lemma ibm370_exponent2_range (b0 : byte) : -256 <= ibm370_exponent2 b0 <= 252.
Proof.
  destruct b0; vm_compute; split; discriminate.
Qed.

Lemma ibm370_to_ieee754_eq (b0 : byte) (rest : list byte) :
  length rest = 7%nat ->
  ibm370_to_ieee754 (b0 :: rest) =
  Ok (fmul (ibm370_sign b0)
        (f64_normalize (be_unsigned rest) (ibm370_exponent2 b0 - 56) false)).
Proof.
  intros L. unfold ibm370_to_ieee754.
  change (getitem (b0 :: rest) 0) with (Ok b0). cbn [bind].
  rewrite ibm370_mantissa_eq by exact L. cbn [bind].
  pose proof (be_unsigned_lt rest 7 ltac:(lia)) as [Lo Hi].
  change (8 * Z.of_nat 7) with 56 in Hi.
  pose proof (ibm370_exponent2_range b0) as E2.
  destruct (Z.eq_dec (be_unsigned rest) 0) as [Z0|NZ].
  - rewrite Z0. reflexivity.
  - pose proof (Zdigits2_le (be_unsigned rest) 56 ltac:(lia)) as D.
    rewrite ldexp_normalize by lia. cbn [bind].
    replace (-56 + ibm370_exponent2 b0) with (ibm370_exponent2 b0 - 56) by lia.
    reflexivity.
Qed.

Lemma binary_round_aux_noshl (s : bool) (m : positive) (e : Z) :
  e <= fexp 53 1024 (Zpos (digits2_pos m) + e) ->
  binary_round_aux 53 1024 s (Zpos m) e loc_Exact = binary_round 53 1024 s m e.
Proof.
  intros H. unfold binary_round. rewrite shl_align_eq.
  replace (Z.max 0 (e - fexp 53 1024 (Zpos (digits2_pos m) + e))) with 0 by lia.
  rewrite Z.min_l by lia. rewrite Z.mul_1_r. reflexivity.
Qed.

Lemma binary_round_53 (s : bool) (m : positive) (e : Z) :
  digits2_pos m = 53%positive -> -1074 <= e <= 971 ->
  binary_round 53 1024 s m e = S754_finite s m e.
Proof.
  intros D He.
  destruct (binary_round_normal m) as (m' & k' & _ & K' & V' & B' & _).
  rewrite D in K', V', B'.
  assert (k' = 0) by lia. subst k'.
  assert (m' = m) by (specialize (V' ltac:(lia)); simpl in V'; lia). subst m'.
  rewrite B' by lia. rewrite Z.add_0_r. reflexivity.
Qed.

(** Multiplying by 1.0 or -1.0 is exact. *)
Lemma fmul_unit (s s' : bool) (m : positive) (e : Z) :
  digits2_pos m = 53%positive -> -1074 <= e <= 971 ->
  fmul (S754_finite s (2 ^ 52) (-52)) (S754_finite s' m e) =
  S754_finite (xorb s s') m e.
Proof.
  intros D He. unfold fmul, SFmul.
  replace (2 ^ 52 * m)%positive with (Z.to_pos (Zpos m * 2 ^ 52))
    by (apply Pos2Z.inj; rewrite Z2Pos.id by lia; lia).
  rewrite binary_round_aux_noshl.
  - replace (-52 + e) with (e - 52) by lia.
    rewrite binary_round_scale by lia.
    apply binary_round_53; assumption.
  - rewrite digits2_pos_mul_pow2, D, fexp_eq by lia. lia.
Qed.

Lemma ibm370_sign_bit (b0 : byte) :
  ibm370_sign b0 = if Z.testbit (bz b0) 7 then f_minus_one else f_one.
Proof.
  destruct b0; reflexivity.
Qed.

(** The sign is applied exactly, to zero as well. *)
Lemma fmul_sign_normalize (s : bool) (N e : Z) :
  0 <= N -> (0 < N -> -1074 <= Zdigits2 N + e - 53 /\ e + Zdigits2 N - 52 <= 971) ->
  fmul (if s then f_minus_one else f_one) (f64_normalize N e false) =
  f64_normalize (cond_Zopp s N) e s.
Proof.
  intros HN R.
  destruct (Z.eq_dec N 0) as [Z0|NZ].
  - subst N. destruct s; reflexivity.
  - destruct (R ltac:(lia)) as [R1 R2].
    destruct (f64_normalize_finite N e ltac:(lia)) as (m & k & D & K & _ & B & _).
    pose proof (B 0 false) as B0. rewrite !Z.add_0_r in B0. rewrite B0 by lia.
    assert (F : fmul (if s then f_minus_one else f_one) (S754_finite false m (e + k))
                = S754_finite s m (e + k)).
    { destruct s.
      - change f_minus_one with (S754_finite true (2 ^ 52) (-52)).
        rewrite fmul_unit by (auto; lia). reflexivity.
      - change f_one with (S754_finite false (2 ^ 52) (-52)).
        rewrite fmul_unit by (auto; lia). reflexivity. }
    rewrite F.
    destruct N as [|p|p]; try lia.
    destruct (binary_round_normal p) as (m' & k' & _ & K' & _ & B' & _).
    unfold f64_normalize, binary_normalize in B0.
    simpl Zdigits2 in *.
    assert (Eq : S754_finite false m (e + k) = S754_finite false m' (e + k')).
    { rewrite <- B0 by lia. apply B'; lia. }
    inversion Eq; subst m'. assert (k' = k) by lia. subst k'.
    unfold f64_normalize, binary_normalize.
    destruct s; cbn [cond_Zopp Z.opp]; rewrite B' by lia; reflexivity.
Qed.

Lemma ibm370_result (b0 : byte) (rest : list byte) :
  length rest = 7%nat ->
  ibm370_to_ieee754 (b0 :: rest) =
  Ok (f64_normalize (cond_Zopp (Z.testbit (bz b0) 7) (be_unsigned rest))
        (ibm370_exponent2 b0 - 56) (Z.testbit (bz b0) 7)).
Proof.
  intros L. rewrite ibm370_to_ieee754_eq by exact L. f_equal.
  rewrite ibm370_sign_bit.
  pose proof (be_unsigned_lt rest 7 ltac:(lia)) as [Lo Hi].
  change (8 * Z.of_nat 7) with 56 in Hi.
  pose proof (ibm370_exponent2_range b0) as E2.
  apply fmul_sign_normalize; [exact Lo|].
  intros P. pose proof (Zdigits2_le (be_unsigned rest) 56 ltac:(lia)). lia.
Qed.

(** *** Exact values *)

Lemma Q2_nonzero : ~ (2 # 1 == 0)%Q.
Proof. discriminate. Qed.

Lemma Q256_nonzero : ~ (256 # 1 == 0)%Q.
Proof. discriminate. Qed.

Lemma be_unsigned_cons (b : byte) (bs : list byte) :
  be_unsigned (b :: bs) = bz b * 256 ^ Z.of_nat (length bs) + be_unsigned bs.
Proof.
  induction bs as [|x bs IH] using rev_ind.
  - unfold be_unsigned. simpl. lia.
  - change (b :: bs ++ [x]) with ((b :: bs) ++ [x]).
    rewrite !be_unsigned_snoc, IH, length_app. simpl length.
    rewrite Nat2Z.inj_add, Z.pow_add_r by lia. change (256 ^ Z.of_nat 1) with 256.
    ring.
Qed.

Lemma exact_fraction_from_eq (i : Z) (bs : list byte) :
  (exact_fraction_from i bs ==
   inject_Z (be_unsigned bs) / Qpower (256 # 1) (i + Z.of_nat (length bs) - 1))%Q.
Proof.
  revert i. induction bs as [|b bs IH]; intros i.
  - simpl. unfold Qdiv. rewrite Qmult_0_l. reflexivity.
  - cbn [exact_fraction_from]. rewrite IH.
    rewrite be_unsigned_cons. simpl length.

    replace (i + 1 + Z.of_nat (length bs) - 1) with (i + Z.of_nat (length bs)) by lia.
    replace (i + Z.of_nat (S (length bs)) - 1) with (i + Z.of_nat (length bs)) by lia.
    rewrite inject_Z_plus, inject_Z_mult.
    rewrite Zpower_Qpower by lia.
    rewrite Qpower_plus by exact Q256_nonzero.
    change (inject_Z 256) with (256 # 1)%Q.
    pose proof (Qpower_not_0 (256 # 1) i Q256_nonzero).
    pose proof (Qpower_not_0 (256 # 1) (Z.of_nat (length bs)) Q256_nonzero).
    field. split; assumption.
Qed.

Lemma exact_fraction_eq (rest : list byte) :
  length rest = 7%nat ->
  (exact_fraction rest == inject_Z (be_unsigned rest) * Qpower (2 # 1) (-56))%Q.
Proof.
  intros L. unfold exact_fraction. rewrite exact_fraction_from_eq, L.
  unfold Qdiv. apply Qmult_comp; [reflexivity|].
  reflexivity.
Qed.

Lemma exact_fraction_range (rest : list byte) :
  length rest = 7%nat -> (0 <= exact_fraction rest < 1)%Q.
Proof.
  intros L. rewrite exact_fraction_eq by exact L.
  pose proof (be_unsigned_lt rest 7 ltac:(lia)) as [Lo Hi].
  change (8 * Z.of_nat 7) with 56 in Hi.
  split.
  - apply Qmult_le_0_compat; [|discriminate].
    change 0%Q with (inject_Z 0). rewrite <- Zle_Qle. exact Lo.
  - assert (E : (1 == inject_Z (2 ^ 56) * Qpower (2 # 1) (-56))%Q) by reflexivity.
    rewrite E. apply Qmult_lt_compat_r; [reflexivity|].
    rewrite <- Zlt_Qlt. exact Hi.
Qed.

Lemma f64_normalize_signed (N e : Z) :
  0 < N ->
  -1074 <= Zdigits2 N + e - 53 -> e + Zdigits2 N - 52 <= 971 ->
  exists (m : positive) (k : Z),
    (Zdigits2 N <= 53 -> k <= 0 /\ Zpos m = N * 2 ^ (- k)) /\
    (53 < Zdigits2 N ->
     1 <= k /\ Z.abs (2 * (Zpos m * 2 ^ k) - 2 * N) <= 2 ^ (Zdigits2 N - 53)) /\
    forall s, f64_normalize (cond_Zopp s N) e s = S754_finite s m (e + k).
Proof.
  intros HN R1 R2. destruct N as [|p|p]; try lia.
  destruct (binary_round_normal p) as (m & k & D & K & V & B & Er).
  simpl Zdigits2 in *.
  exists m, k. split; [|split].
  - intros C. specialize (V C). split; [lia|].
    replace (- k) with (53 - Zpos (digits2_pos p)) by lia. exact V.
  - intros C. split; [lia|]. apply Er. exact C.
  - intros s. unfold f64_normalize, binary_normalize.
    destruct s; cbn [cond_Zopp Z.opp]; apply B; lia.
Qed.

Lemma Q2pow_split (e k : Z) :
  0 <= k -> (Qpower (2 # 1) (e + k) == Qpower (2 # 1) e * inject_Z (2 ^ k))%Q.
Proof.
  intros H. rewrite Qpower_plus by exact Q2_nonzero.
  rewrite Zpower_Qpower by exact H. reflexivity.
Qed.

Lemma Qabs_scaled (z e : Z) :
  (Qabs (inject_Z z * Qpower (2 # 1) e) == inject_Z (Z.abs z) * Qpower (2 # 1) e)%Q.
Proof.
  rewrite Qabs_Qmult.
  rewrite (Qabs_pos (Qpower (2 # 1) e)) by (apply Qpower_0_le; discriminate).
  reflexivity.
Qed.

Lemma cond_Zopp_mul (s : bool) (a b : Z) :
  cond_Zopp s (a * b) = cond_Zopp s a * b.
Proof. destruct s; simpl; lia. Qed.

Lemma cond_Zopp_abs (s : bool) (a b : Z) :
  Z.abs (cond_Zopp s a - cond_Zopp s b) = Z.abs (a - b).
Proof. destruct s; simpl; lia. Qed.

(** The value of a rounded dyadic number: exact below 2^53, and within
    a relative error of 2^-53 of the exact value otherwise. *)
Lemma f64_normalize_value (s : bool) (N e : Z) :
  0 <= N ->
  (0 < N -> -1074 <= Zdigits2 N + e - 53 /\ e + Zdigits2 N - 52 <= 971) ->
  (Qabs (SF2Q (f64_normalize (cond_Zopp s N) e s)
         - inject_Z (cond_Zopp s N) * Qpower (2 # 1) e) * inject_Z (2 ^ 53)
   <= Qabs (inject_Z (cond_Zopp s N) * Qpower (2 # 1) e))%Q /\
  (N < 2 ^ 53 ->
   (SF2Q (f64_normalize (cond_Zopp s N) e s)
    == inject_Z (cond_Zopp s N) * Qpower (2 # 1) e)%Q).
Proof.
  intros HN R.
  destruct (Z.eq_dec N 0) as [Z0|NZ].
  { subst N. replace (cond_Zopp s 0) with 0 by (destruct s; reflexivity).
    rewrite f64_normalize_zero. simpl SF2Q. split.
    - rewrite Qmult_0_l. discriminate.
    - intros _. rewrite Qmult_0_l. reflexivity. }
  destruct (R ltac:(lia)) as [R1 R2].
  destruct (f64_normalize_signed N e ltac:(lia) R1 R2) as (m & k & Sm & Lg & F).
  rewrite F. cbn [SF2Q].
  assert (Ex : Zdigits2 N <= 53 ->
               (inject_Z (cond_Zopp s (Zpos m)) * Qpower (2 # 1) (e + k)
                == inject_Z (cond_Zopp s N) * Qpower (2 # 1) e)%Q).
  { intros C. destruct (Sm C) as [K0 Em]. rewrite Em, cond_Zopp_mul.
    rewrite inject_Z_mult, Zpower_Qpower by lia.
    rewrite <- Qmult_assoc, <- Qpower_plus by exact Q2_nonzero.
    replace (- k + (e + k)) with e by lia. reflexivity. }
  split.
  - destruct (Z.le_gt_cases (Zdigits2 N) 53) as [C|C].
    + rewrite (Ex C).
      setoid_replace (inject_Z (cond_Zopp s N) * Qpower (2 # 1) e
                      - inject_Z (cond_Zopp s N) * Qpower (2 # 1) e)%Q
        with 0%Q by ring.
      rewrite Qmult_0_l. apply Qabs_nonneg.
    + destruct (Lg ltac:(lia)) as [K1 Er].
      rewrite Q2pow_split by lia.
      setoid_replace (inject_Z (cond_Zopp s (Zpos m)) * (Qpower (2 # 1) e * inject_Z (2 ^ k))
                      - inject_Z (cond_Zopp s N) * Qpower (2 # 1) e)%Q
        with (inject_Z (cond_Zopp s (Zpos m * 2 ^ k) - cond_Zopp s N) * Qpower (2 # 1) e)%Q
        by (rewrite cond_Zopp_mul; unfold Zminus;
            rewrite inject_Z_plus, inject_Z_mult, inject_Z_opp; ring).
      rewrite !Qabs_scaled, cond_Zopp_abs.
      replace (Z.abs (cond_Zopp s N)) with N by (destruct s; simpl; lia).
      setoid_replace (inject_Z (Z.abs (Zpos m * 2 ^ k - N)) * Qpower (2 # 1) e * inject_Z (2 ^ 53))%Q
        with (inject_Z (Z.abs (Zpos m * 2 ^ k - N) * 2 ^ 53) * Qpower (2 # 1) e)%Q
        by (rewrite inject_Z_mult; ring).
      apply Qmult_le_compat_r; [|apply Qpower_0_le; discriminate].
      rewrite <- Zle_Qle.
      pose proof (Zdigits2_bounds N ltac:(lia)) as [Lo _].
      assert (P : 2 ^ (Zdigits2 N - 53) * 2 ^ 53 = 2 * 2 ^ (Zdigits2 N - 1)).
      { rewrite <- Z.pow_add_r by lia. rewrite <- Z.pow_succ_r by lia. f_equal. lia. }
      lia.
  - intros Hs. apply Ex.
    pose proof (Zdigits2_le N 53 ltac:(lia)). lia.
Qed.

(** ** The converter: the claims *)

Lemma exact_value_eq (b0 : byte) (rest : list byte) :
  length rest = 7%nat ->
  (exact_value b0 rest ==
   inject_Z (cond_Zopp (Z.testbit (bz b0) 7) (be_unsigned rest))
   * Qpower (2 # 1) (ibm370_exponent2 b0 - 56))%Q.
Proof.
  intros L. unfold exact_value, exact_sign.
  change (exact_exponent2 b0) with (ibm370_exponent2 b0).
  rewrite exact_fraction_eq by exact L.
  unfold Zminus. rewrite (Qpower_plus _ _ (- 56)) by exact Q2_nonzero.
  destruct (Z.testbit (bz b0) 7); cbn [cond_Zopp].
  - rewrite inject_Z_opp. ring.
  - ring.
Qed.

Lemma mantissa_le_one (N : Z) :
  0 <= N < 2 ^ 56 ->
  SFleb (S754_zero false) (f64_normalize N (-56) false) = true /\
  SFleb (f64_normalize N (-56) false) f_one = true.
Proof.
  intros [Lo Hi].
  destruct (Z.eq_dec N 0) as [Z0|NZ]; [subst; split; reflexivity|].
  pose proof (Zdigits2_le N 56 ltac:(lia)) as D.
  destruct (f64_normalize_finite N (-56) ltac:(lia)) as (m & k & Dm & K & _ & B & _).
  specialize (B 0 false). rewrite !Z.add_0_r in B. rewrite B by lia.
  split; [reflexivity|].
  change f_one with (S754_finite false (2 ^ 52) (-52)).
  unfold SFleb, SFcompare.
  destruct (Z.compare_spec (-56 + k) (-52)) as [E|E|E]; try reflexivity; try lia.
  assert (Zpos m = 2 ^ 52) by lia.
  assert (m = (2 ^ 52)%positive) by lia. subst m. reflexivity.
Qed.

(** C1 (as the code has it).  For every 8-byte input [b0 :: rest],
    [ibm370_to_ieee754] takes the sign from bit 7 of byte 0 and
    [exponent2 = 4 * ((b[0] & 0x7F) - 64)], accumulates the fraction
    [sum_{i=1..7} b[i] / 256^i] (exactly a value of [0, 1)) in binary64,
    where the sum is rounded to 53 bits and so lies in [0, 1], scales it
    with [ldexp] and applies the sign.  The result is the exact value
    [sign * fraction * 2^exponent2] rounded once to binary64 (to
    nearest, ties to even, with the sign kept on zero): its relative
    error is at most 2^-53, and it is the exact value whenever the 56-bit
    fraction is below 2^53. *)
Theorem ibm370_to_ieee754_rounds (b0 : byte) (rest : list byte) :
  length rest = 7%nat ->
  ibm370_sign b0 = (if Z.testbit (bz b0) 7 then f_minus_one else f_one) /\
  ibm370_exponent2 b0 = 4 * (Z.land (bz b0) 0x7F - 64) /\
  (0 <= exact_fraction rest < 1)%Q /\
  (exists mantissa,
     ibm370_mantissa (b0 :: rest) = Ok mantissa /\
     mantissa = f64_normalize (be_unsigned rest) (-56) false /\
     SFleb (S754_zero false) mantissa = true /\
     SFleb mantissa f_one = true /\
     (Qabs (SF2Q mantissa - exact_fraction rest) * inject_Z (2 ^ 53)
      <= exact_fraction rest)%Q /\
     (be_unsigned rest < 2 ^ 53 -> (SF2Q mantissa == exact_fraction rest)%Q) /\
     ibm370_to_ieee754 (b0 :: rest) =
       (x <- ldexp mantissa (ibm370_exponent2 b0) ;;
        Ok (fmul (ibm370_sign b0) x))) /\
  (exists x,
     ibm370_to_ieee754 (b0 :: rest) = Ok x /\
     x = f64_normalize (cond_Zopp (Z.testbit (bz b0) 7) (be_unsigned rest))
           (ibm370_exponent2 b0 - 56) (Z.testbit (bz b0) 7) /\
     (Qabs (SF2Q x - exact_value b0 rest) * inject_Z (2 ^ 53)
      <= Qabs (exact_value b0 rest))%Q /\
     (be_unsigned rest < 2 ^ 53 -> (SF2Q x == exact_value b0 rest)%Q)).
Proof.
  intros L.
  pose proof (be_unsigned_lt rest 7 ltac:(lia)) as [Lo Hi].
  change (8 * Z.of_nat 7) with 56 in Hi.
  pose proof (ibm370_exponent2_range b0) as E2.
  split; [apply ibm370_sign_bit|].
  split; [reflexivity|].
  split; [apply exact_fraction_range; exact L|].
  split.
  - exists (f64_normalize (be_unsigned rest) (-56) false).
    split; [apply ibm370_mantissa_eq; exact L|].
    split; [reflexivity|].
    destruct (mantissa_le_one (be_unsigned rest) ltac:(lia)) as [M0 M1].
    split; [exact M0|]. split; [exact M1|].
    assert (R : 0 < be_unsigned rest ->
                -1074 <= Zdigits2 (be_unsigned rest) + -56 - 53 /\
                -56 + Zdigits2 (be_unsigned rest) - 52 <= 971).
    { intros P. pose proof (Zdigits2_le (be_unsigned rest) 56 ltac:(lia)). lia. }
    destruct (f64_normalize_value false (be_unsigned rest) (-56) Lo R) as [Er Ex].
    cbn [cond_Zopp] in Er, Ex.
    rewrite <- exact_fraction_eq in Er, Ex by exact L.
    rewrite (Qabs_pos (exact_fraction rest)) in Er
      by (apply exact_fraction_range; exact L).
    split; [exact Er|]. split; [exact Ex|].
    unfold ibm370_to_ieee754. change (getitem (b0 :: rest) 0) with (Ok b0).
    cbn [bind]. rewrite ibm370_mantissa_eq by exact L. reflexivity.
  - eexists. split; [apply ibm370_result; exact L|].
    split; [reflexivity|].
    assert (R : 0 < be_unsigned rest ->
                -1074 <= Zdigits2 (be_unsigned rest) + (ibm370_exponent2 b0 - 56) - 53 /\
                ibm370_exponent2 b0 - 56 + Zdigits2 (be_unsigned rest) - 52 <= 971).
    { intros P. pose proof (Zdigits2_le (be_unsigned rest) 56 ltac:(lia)). lia. }
    destruct (f64_normalize_value (Z.testbit (bz b0) 7) (be_unsigned rest)
                (ibm370_exponent2 b0 - 56) Lo R) as [Er Ex].
    rewrite <- exact_value_eq in Er, Ex by exact L.
    split; [exact Er | exact Ex].
Qed.

Lemma ibm370_to_ieee754_rounds_witness :
  exists x,
    ibm370_to_ieee754 (bytes_of [0x41; 0x10; 0; 0; 0; 0; 0; 0]) = Ok x /\
    Qeq (SF2Q x) (exact_value x41 (bytes_of [0x10; 0; 0; 0; 0; 0; 0])).
Proof.
  destruct (ibm370_to_ieee754_rounds x41 (bytes_of [0x10; 0; 0; 0; 0; 0; 0]) eq_refl)
    as (_ & _ & _ & _ & x & Hx & _ & _ & Ex).
  exists x. split; [exact Hx|].
  apply Ex. vm_compute. reflexivity.
Defined.

(** C1 fails as stated: on the bytes 40 FF FF FF FF FF FF FF the
    accumulated mantissa is 1.0, which is not below 1, and the result 1.0
    is not [sign * mantissa * 2^exponent2] for the fraction
    [1 - 2^-56] of the formula. *)
Lemma ibm370_formula_counterexample :
  ibm370_mantissa (bytes_of [0x40; 0xFF; 0xFF; 0xFF; 0xFF; 0xFF; 0xFF; 0xFF])
    = Ok f_one /\
  SFltb f_one f_one = false /\
  ibm370_to_ieee754 (bytes_of [0x40; 0xFF; 0xFF; 0xFF; 0xFF; 0xFF; 0xFF; 0xFF])
    = Ok f_one /\
  ~ Qeq (SF2Q f_one)
        (exact_value x40 (bytes_of [0xFF; 0xFF; 0xFF; 0xFF; 0xFF; 0xFF; 0xFF])).
Proof.
  split; [vm_compute; reflexivity|].
  split; [reflexivity|].
  split; [vm_compute; reflexivity|].
  vm_compute. discriminate.
Qed.

Lemma f64_normalize_is_finite (s : bool) (N e : Z) :
  0 <= N ->
  (0 < N -> -1074 <= Zdigits2 N + e - 53 /\ e + Zdigits2 N - 52 <= 971) ->
  is_finite (f64_normalize (cond_Zopp s N) e s) = true.
Proof.
  intros HN R. destruct (Z.eq_dec N 0) as [Z0|NZ].
  - subst N. destruct s; reflexivity.
  - destruct (R ltac:(lia)) as [R1 R2].
    destruct (f64_normalize_signed N e ltac:(lia) R1 R2) as (m & k & _ & _ & F).
    rewrite F. reflexivity.
Qed.

Lemma ibm370_total (bs : list byte) :
  length bs = 8%nat ->
  exists x, ibm370_to_ieee754 bs = Ok x /\ is_finite x = true.
Proof.
  intros L. destruct bs as [|b0 rest]; [discriminate L|].
  assert (L' : length rest = 7%nat) by (simpl in L; lia).
  eexists. split; [apply ibm370_result; exact L'|].
  pose proof (be_unsigned_lt rest 7 ltac:(lia)) as [Lo Hi].
  change (8 * Z.of_nat 7) with 56 in Hi.
  pose proof (ibm370_exponent2_range b0) as E2.
  apply f64_normalize_is_finite; [exact Lo|].
  intros P. pose proof (Zdigits2_le (be_unsigned rest) 56 ltac:(lia)). lia.
Qed.

(** C2.  [ibm370_to_ieee754] is a function of its eight bytes that
    returns a finite float on every one of the 2^64 inputs: no index is
    out of range, no divisor is zero and [ldexp] never overflows.  Eight
    zero bytes give exactly +0.0, as an instance of the general
    computation: so does every input with a zero fraction and a clear
    sign bit, whatever its exponent. *)
Theorem ibm370_total_zero :
  (forall bs, length bs = 8%nat ->
     exists x, ibm370_to_ieee754 bs = Ok x /\ is_finite x = true) /\
  ibm370_to_ieee754 (bytes_of [0; 0; 0; 0; 0; 0; 0; 0]) = Ok (S754_zero false) /\
  (forall b0, Z.testbit (bz b0) 7 = false ->
     ibm370_to_ieee754 (b0 :: bytes_of [0; 0; 0; 0; 0; 0; 0]) = Ok (S754_zero false)).
Proof.
  split; [|split].
  - exact ibm370_total.
  - vm_compute. reflexivity.
  - intros b0 T. rewrite ibm370_result by reflexivity. rewrite T. reflexivity.
Qed.

Lemma ibm370_total_zero_witness :
  (exists x,
     ibm370_to_ieee754 (bytes_of [0xC1; 0x10; 0; 0; 0; 0; 0; 0]) = Ok x /\
     is_finite x = true) /\
  ibm370_to_ieee754 (x7f :: bytes_of [0; 0; 0; 0; 0; 0; 0]) = Ok (S754_zero false).
Proof.
  split.
  - apply (proj1 ibm370_total_zero). reflexivity.
  - apply (proj2 (proj2 ibm370_total_zero)). reflexivity.
Defined.

(** C3.  The two reference inputs convert to the doubles nearest to
    0.001 and to 1e-9, the very values of the float quotients 1/1000 and
    1/10^9; both are within a relative error of 2^-53 of the decimal
    value. *)
Theorem ibm370_reference_values :
  ibm370_to_ieee754 (bytes_of [0x3e; 0x41; 0x89; 0x37; 0x4b; 0xc6; 0xa7; 0xf0])
    = truediv (float_of_int 1) (float_of_int 1000) /\
  ibm370_to_ieee754 (bytes_of [0x39; 0x44; 0xb8; 0x2f; 0xa0; 0x9b; 0x5a; 0x54])
    = truediv (float_of_int 1) (float_of_int 1000000000) /\
  (exists x,
     ibm370_to_ieee754 (bytes_of [0x3e; 0x41; 0x89; 0x37; 0x4b; 0xc6; 0xa7; 0xf0])
       = Ok x /\
     Qle (Qabs (SF2Q x - (1 # 1000)) * inject_Z (2 ^ 53)) (1 # 1000)) /\
  (exists x,
     ibm370_to_ieee754 (bytes_of [0x39; 0x44; 0xb8; 0x2f; 0xa0; 0x9b; 0x5a; 0x54])
       = Ok x /\
     Qle (Qabs (SF2Q x - (1 # 1000000000)) * inject_Z (2 ^ 53)) (1 # 1000000000)).
Proof.
  split; [vm_compute; reflexivity|].
  split; [vm_compute; reflexivity|].
  split; eexists; (split; [vm_compute; reflexivity|]); vm_compute; discriminate.
Qed.

Lemma binary_round_aux_opp (s : bool) (m e : Z) (l : location) :
  binary_round_aux 53 1024 (negb s) m e l = SFopp (binary_round_aux 53 1024 s m e l).
Proof.
  unfold binary_round_aux.
  destruct (shr_fexp 53 1024 m e l) as [mrs' e'].
  destruct (shr_fexp 53 1024 _ e' loc_Exact) as [mrs'' e''].
  destruct (shr_m mrs''); try reflexivity.
  destruct (e'' <=? 1024 - 53); reflexivity.
Qed.

(** Negating one factor negates the product, rounding included. *)
Lemma fmul_opp_l (a x : float) :
  fmul (SFopp a) x = SFopp (fmul a x).
Proof.
  unfold fmul.
  destruct a as [sa|sa| |sa ma ea], x as [sx|sx| |sx mx ex]; cbn [SFopp SFmul];
    try reflexivity;
    try (destruct sa, sx; reflexivity).
  rewrite <- binary_round_aux_opp. destruct sa, sx; reflexivity.
Qed.

Lemma mantissa_step_head (b b' : byte) (rest : list byte) (st : float * float) (i : nat) :
  mantissa_step (b :: rest) st (S i) = mantissa_step (b' :: rest) st (S i).
Proof. reflexivity. Qed.

Lemma mantissa_loop_head (b b' : byte) (rest : list byte) (k n : nat) (st : float * float) :
  mantissa_loop (b :: rest) (seq (S k) n) st =
  mantissa_loop (b' :: rest) (seq (S k) n) st.
Proof.
  revert k st. induction n as [|n IH]; intros k st; [reflexivity|].
  cbn [seq mantissa_loop]. rewrite (mantissa_step_head b b').
  destruct (mantissa_step (b' :: rest) st (S k)) as [st'|e]; cbn [bind];
    [apply IH | reflexivity].
Qed.

Lemma ibm370_sign_xor (b0 : byte) :
  ibm370_sign (byte_xor b0 x80) = SFopp (ibm370_sign b0).
Proof. destruct b0; reflexivity. Qed.

Lemma ibm370_exponent2_xor (b0 : byte) :
  ibm370_exponent2 (byte_xor b0 x80) = ibm370_exponent2 b0.
Proof. destruct b0; reflexivity. Qed.

(** C10.  Flipping the sign bit of byte 0 negates the result: the
    exponent and the mantissa do not see the bit, and the sign factor
    turns into its opposite.  This holds for -0.0 and +0.0 as for every
    other value, and on inputs that are too short both sides raise the
    same exception. *)
Theorem ibm370_sign_flip (b0 : byte) (rest : list byte) :
  ibm370_to_ieee754 (byte_xor b0 x80 :: rest) =
  (x <- ibm370_to_ieee754 (b0 :: rest) ;; Ok (SFopp x)).
Proof.
  unfold ibm370_to_ieee754.
  change (getitem (byte_xor b0 x80 :: rest) 0) with (Ok (byte_xor b0 x80)).
  change (getitem (b0 :: rest) 0) with (Ok b0).
  cbn [bind]. rewrite ibm370_sign_xor, ibm370_exponent2_xor.
  unfold ibm370_mantissa.
  rewrite (mantissa_loop_head (byte_xor b0 x80) b0 rest 0 7).
  destruct (mantissa_loop (b0 :: rest) (seq 1 7) (float_of_int 0, f_256))
    as [st|e]; cbn [bind]; [|reflexivity].
  destruct (ldexp (fst st) (ibm370_exponent2 b0)) as [x|e]; cbn [bind];
    [|reflexivity].
  rewrite fmul_opp_l. reflexivity.
Qed.

(** ** Typed fields *)

(** The widening of a binary32 pattern is exact: the float [unpack_f]
    returns is the number the pattern denotes. *)
Lemma binary32_decode_standard (w : Z) :
  is_ieee754_single w (binary32_decode w).
Proof.
  unfold is_ieee754_single, binary32_decode, ieee754_single_value.
  set (s := Z.testbit w 31).
  set (e := (w / 2 ^ 23) mod 2 ^ 8).
  set (f := w mod 2 ^ 23).
  assert (He : 0 <= e < 256) by (apply Z.mod_pos_bound; reflexivity).
  assert (Hf : 0 <= f < 2 ^ 23) by (apply Z.mod_pos_bound; reflexivity).
  destruct (Z.eqb_spec e 255) as [E255|E255]; [destruct (f =? 0); reflexivity|].
  destruct (Z.eqb_spec e 0) as [E0|E0].
  - destruct (Z.eqb_spec f 0) as [F0|F0]; cbn [andb].
    + rewrite F0. destruct s; reflexivity.
    + assert (R : 0 < f -> -1074 <= Zdigits2 f + -149 - 53 /\
                           -149 + Zdigits2 f - 52 <= 971).
      { intros P. pose proof (Zdigits2_le f 23 ltac:(lia)). lia. }
      split.
      * destruct (R ltac:(lia)) as [R1 R2].
        destruct (f64_normalize_signed f (-149) ltac:(lia) R1 R2) as (m & k & _ & _ & F).
        rewrite F. eauto.
      * destruct (f64_normalize_value s f (-149) ltac:(lia) R) as [_ Ex].
        rewrite Ex by lia.
        setoid_replace (Qpower (2 # 1) (-149))
          with (/ inject_Z (2 ^ 23) * Qpower (2 # 1) (-126))%Q by reflexivity.
        destruct s; cbn [cond_Zopp]; [rewrite inject_Z_opp|]; unfold Qdiv; ring.
  - cbn [andb].
    assert (P : 0 < 2 ^ 23 + f) by lia.
    assert (R : 0 < 2 ^ 23 + f ->
                -1074 <= Zdigits2 (2 ^ 23 + f) + (e - 150) - 53 /\
                e - 150 + Zdigits2 (2 ^ 23 + f) - 52 <= 971).
    { intros _. pose proof (Zdigits2_le (2 ^ 23 + f) 24 ltac:(lia)). lia. }
    split.
    + destruct (R P) as [R1 R2].
      destruct (f64_normalize_signed (2 ^ 23 + f) (e - 150) P R1 R2)
        as (m & k & _ & _ & F).
      rewrite F. eauto.
    + destruct (f64_normalize_value s (2 ^ 23 + f) (e - 150) ltac:(lia) R) as [_ Ex].
      rewrite Ex by lia.
      replace (e - 150) with (-23 + (e - 127)) by lia.
      rewrite Qpower_plus by exact Q2_nonzero.
      setoid_replace (Qpower (2 # 1) (-23)) with (/ inject_Z (2 ^ 23))%Q by reflexivity.
      assert (I : (inject_Z (2 ^ 23) * / inject_Z (2 ^ 23) == 1)%Q) by reflexivity.
      destruct s; cbn [cond_Zopp]; [rewrite inject_Z_opp|];
        rewrite inject_Z_plus; unfold Qdiv.
      * setoid_replace (- (inject_Z (2 ^ 23) + inject_Z f)
                        * (/ inject_Z (2 ^ 23) * Qpower (2 # 1) (e - 127)))%Q
          with (- (inject_Z (2 ^ 23) * / inject_Z (2 ^ 23) + inject_Z f * / inject_Z (2 ^ 23))
                * Qpower (2 # 1) (e - 127))%Q by ring.
        rewrite I. ring.
      * setoid_replace ((inject_Z (2 ^ 23) + inject_Z f)
                        * (/ inject_Z (2 ^ 23) * Qpower (2 # 1) (e - 127)))%Q
          with ((inject_Z (2 ^ 23) * / inject_Z (2 ^ 23) + inject_Z f * / inject_Z (2 ^ 23))
                * Qpower (2 # 1) (e - 127))%Q by ring.
        rewrite I. ring.
Qed.

Lemma valid_record_loop (r : record) (w : nat) :
  dat_size (dat_type r) = Ok w ->
  valid_record r ->
  Z.of_nat (length (rec_data r)) = (rec_size r - 4) / Z.of_nat w /\
  Forall (fun c => length c = w) (rec_data r).
Proof.
  intros W (w' & W' & _ & _ & N & F).
  rewrite W in W'. inversion W'; subst w'. split; assumption.
Qed.

(** C6.  [extractData] chooses the interpretation by the data type
    alone.  NoData (0x00) and BitArray (0x01) give the empty list.  On a
    valid Int16 (0x02) or Int32 (0x03) record every chunk gives, in
    order, the two's complement integer of its 16 or 32 big-endian bits,
    and on a valid Real32 (0x04) record every chunk gives the float that
    its four big-endian bytes denote as an IEEE 754 single-precision
    pattern. *)
Theorem extractData_typed (r : record) :
  (dat_type r = 0 \/ dat_type r = 1 -> extractData (Rec r) = Ok []) /\
  (valid_record r -> dat_type r = 2 ->
   extractData (Rec r) =
   Ok (map (fun c => PInt (twos_complement 16 (be_unsigned c))) (rec_data r))) /\
  (valid_record r -> dat_type r = 3 ->
   extractData (Rec r) =
   Ok (map (fun c => PInt (twos_complement 32 (be_unsigned c))) (rec_data r))) /\
  (valid_record r -> dat_type r = 4 ->
   exists xs,
     extractData (Rec r) = Ok (map PFloat xs) /\
     Forall2 (fun c x => is_ieee754_single (be_unsigned c) x) (rec_data r) xs).
Proof.
  split; [|split; [|split]].
  - intros [T|T]; unfold extractData; rewrite T; reflexivity.
  - intros V T.
    destruct (valid_record_loop r 2 ltac:(rewrite T; reflexivity) V) as [N F].
    unfold extractData. rewrite T. cbn [Z.eqb Pos.eqb].
    rewrite extract_loop_all by exact N.
    apply mapM_ok. eapply Forall_impl; [|exact F].
    intros c L. unfold dec_int16, unpack_h.
    rewrite unpack_int_ok by (auto; lia). reflexivity.
  - intros V T.
    destruct (valid_record_loop r 4 ltac:(rewrite T; reflexivity) V) as [N F].
    unfold extractData. rewrite T. cbn [Z.eqb Pos.eqb].
    rewrite extract_loop_all by exact N.
    apply mapM_ok. eapply Forall_impl; [|exact F].
    intros c L. unfold dec_int32, unpack_l.
    rewrite unpack_int_ok by (auto; lia). reflexivity.
  - intros V T.
    destruct (valid_record_loop r 4 ltac:(rewrite T; reflexivity) V) as [N F].
    exists (map (fun c => binary32_decode (be_unsigned c)) (rec_data r)).
    split.
    + unfold extractData. rewrite T. cbn [Z.eqb Pos.eqb].
      rewrite extract_loop_all by exact N.
      rewrite map_map. apply mapM_ok. eapply Forall_impl; [|exact F].
      intros c L. unfold dec_real32, unpack_f. rewrite L. reflexivity.
    + clear N F V T. induction (rec_data r) as [|c l IH]; constructor.
      * apply binary32_decode_standard.
      * exact IH.
Qed.

Lemma extractData_typed_witness :
  extractData (Rec (mkRecord 8 0x0D 2 [bytes_of [0xFF; 0xFE]; bytes_of [0x02; 0x58]]))
    = Ok [PInt (-2); PInt 600] /\
  exists xs,
    extractData (Rec (mkRecord 8 0x1B 4 [bytes_of [0xBF; 0xC0; 0; 0]])) = Ok (map PFloat xs) /\
    Forall2 (fun c x => is_ieee754_single (be_unsigned c) x)
            [bytes_of [0xBF; 0xC0; 0; 0]] xs.
Proof.
  split.
  - apply (proj1 (proj2 (extractData_typed
             (mkRecord 8 0x0D 2 [bytes_of [0xFF; 0xFE]; bytes_of [0x02; 0x58]])))).
    + exists 2%nat. repeat split; try reflexivity; [discriminate|].
      repeat constructor.
    + reflexivity.
  - apply (proj2 (proj2 (proj2 (extractData_typed
             (mkRecord 8 0x1B 4 [bytes_of [0xBF; 0xC0; 0; 0]]))))).
    + exists 4%nat. repeat split; try reflexivity; [discriminate|].
      repeat constructor.
    + reflexivity.
Defined.

(** ** Whole streams *)

Lemma mapM_total {A B} (f : A -> result B) (l : list A) :
  Forall (fun a => exists b, f a = Ok b) l -> exists bs, mapM f l = Ok bs.
Proof.
  induction 1 as [|a l [b Hb] _ [bs IH]]; simpl.
  - eexists; reflexivity.
  - rewrite Hb, IH. eexists; reflexivity.
Qed.

(** On a valid record [extractData] can only fail on text that is not
    ASCII. *)
Lemma extractData_total (r : record) :
  valid_record r ->
  (dat_type r = 6 -> Forall (fun b => bz b < 128) (concat (rec_data r))) ->
  exists data, extractData (Rec r) = Ok data.
Proof.
  intros V A. pose proof V as (w & W & _ & _ & N & F).
  destruct (dat_size_cases _ _ W) as [[T Ew]|[[T Ew]|[[T Ew]|[[T Ew]|[[T Ew]|[[T Ew]|[T Ew]]]]]]];
    subst w;
    try (unfold extractData; rewrite T; cbn [Z.eqb Pos.eqb];
         try (eexists; reflexivity);
         rewrite extract_loop_all by exact N;
         apply mapM_total; (eapply Forall_impl; [|exact F]); intros c L).
  - unfold dec_int16, unpack_h, unpack_int. rewrite L. eexists; reflexivity.
  - unfold dec_int32, unpack_l, unpack_int. rewrite L. eexists; reflexivity.
  - unfold dec_real32, unpack_f. rewrite L. eexists; reflexivity.
  - unfold dec_real64. destruct (ibm370_total c L) as (x & Hx & _).
    rewrite Hx. eexists; reflexivity.
  - rewrite (extractData_ascii_eq r V T).
    rewrite (proj2 (forallb_ascii_true _) (A T)). eexists; reflexivity.
Qed.

Lemma sign_extend_small (w u : Z) :
  0 < w -> 0 <= u < 2 ^ (w - 1) -> sign_extend w u = u.
Proof.
  intros Hw Hu. unfold sign_extend.
  destruct (Z.ltb_spec u (2 ^ (w - 1))); lia.
Qed.

Lemma frame_length_field (n : Z) :
  0 <= n < 2 ^ 15 ->
  sign_extend 16 (be_unsigned [byte_of_Z (n / 256); byte_of_Z n]) = n.
Proof.
  intros H. change (2 ^ 15) with 32768 in H.
  unfold be_unsigned. cbn [fold_left]. rewrite !bz_byte_of_Z.
  assert (D : 0 <= n / 256 < 128).
  { split; [apply Z.div_pos; lia | apply Z.div_lt_upper_bound; lia]. }
  rewrite (Z.mod_small (n / 256)) by lia.
  pose proof (Z.div_mod n 256 ltac:(lia)) as E.
  replace (0 * 256 + n / 256) with (n / 256) by lia.
  replace (n / 256 * 256 + n mod 256) with n by lia.
  apply sign_extend_small; [lia|]. change (2 ^ (16 - 1)) with 32768. lia.
Qed.

Lemma tag_field (dt : byte) (w : nat) :
  dat_size (bz dt) = Ok w -> sign_extend 8 (be_unsigned [dt]) = bz dt.
Proof.
  intros W. apply dat_size_cases in W.
  change (be_unsigned [dt]) with (0 * 256 + bz dt). rewrite Z.mul_0_l, Z.add_0_l.
  apply sign_extend_small; [lia|]. change (2 ^ (8 - 1)) with 128.
  pose proof (bz_range dt). lia.
Qed.

(** Reading back a framed record: the record has the payload cut into
    elements, and the file is left at the first byte after it. *)
Lemma readStream_frame (s : stream) (rt dt : byte) (payload rest : list byte) (w : nat) :
  remaining s = frame rt dt payload ++ rest ->
  dat_size (bz dt) = Ok w ->
  (length payload mod w = 0)%nat ->
  4 + Z.of_nat (length payload) < 2 ^ 15 ->
  readStream s =
  (Rec (mkRecord (4 + Z.of_nat (length payload))
                 (sign_extend 8 (be_unsigned [rt])) (bz dt)
                 (chunks_of (length payload / w) w payload)),
   mkStream (content s) (pos s + 4 + length payload)) /\
  remaining (mkStream (content s) (pos s + 4 + length payload)) = rest.
Proof.
  intros R W M B.
  pose proof (dat_size_pos _ _ W) as Wp.
  unfold frame in R. cbn [app] in R.
  rewrite (readStream_header s _ _ rt dt (payload ++ rest) R).
  unfold header_fields.
  rewrite frame_length_field by lia.
  rewrite (tag_field dt w W), W. cbv zeta.
  replace (4 + Z.of_nat (length payload) - 4) with (Z.of_nat (length payload)) by lia.
  rewrite <- Nat2Z.inj_div, Nat2Z.id.
  assert (E : (length payload / w * w)%nat = length payload).
  { pose proof (Nat.div_mod_eq (length payload) w). lia. }
  rewrite E, chunks_of_app by (symmetry; exact E).
  rewrite length_app, Nat.min_l by lia.
  split; [reflexivity|].
  rewrite <- Nat.add_assoc, remaining_advance, R.
  cbn [skipn Nat.add]. rewrite skipn_app, Nat.sub_diag, skipn_all. reflexivity.
Qed.

Lemma frame_valid (rt dt : byte) (payload : list byte) (w : nat) :
  dat_size (bz dt) = Ok w ->
  (length payload mod w = 0)%nat ->
  valid_record (mkRecord (4 + Z.of_nat (length payload))
                         (sign_extend 8 (be_unsigned [rt])) (bz dt)
                         (chunks_of (length payload / w) w payload)) /\
  concat (chunks_of (length payload / w) w payload) = payload.
Proof.
  intros W M. pose proof (dat_size_pos _ _ W) as Wp.
  assert (E : (length payload / w * w)%nat = length payload).
  { pose proof (Nat.div_mod_eq (length payload) w). lia. }
  split.
  - exists w. cbn [dat_type rec_size rec_data].
    replace (4 + Z.of_nat (length payload) - 4) with (Z.of_nat (length payload)) by lia.
    split; [exact W|]. split; [lia|]. split.
    + rewrite <- Nat2Z.inj_mod, M. reflexivity.
    + split.
      * rewrite length_chunks_of, Nat2Z.inj_div. reflexivity.
      * apply chunks_of_full. lia.
  - rewrite concat_chunks_of, E. apply firstn_all.
Qed.

Lemma extractData_empty (rt : Z) (dt : byte) (w : nat) :
  dat_size (bz dt) = Ok w ->
  extractData (Rec (mkRecord 4 rt (bz dt) [])) = Ok [].
Proof.
  intros W. apply dat_size_cases in W.
  destruct W as [[T _]|[[T _]|[[T _]|[[T _]|[[T _]|[[T _]|[T _]]]]]]];
    unfold extractData; cbn [dat_type rec_size rec_data]; rewrite T; reflexivity.
Qed.

(** The loop leaves through [break] exactly on a record of type 0x04
    that was read and decoded, with the entry of that record appended. *)
Lemma loop_body_break (s : stream) (acc out : list entry) :
  loop_body s acc = Break out <->
  exists r s' data,
    readStream s = (Rec r, s') /\
    rec_type r = 4 /\
    extractData (Rec r) = Ok data /\
    out = acc ++ [("ENDLIB"%string, data)].
Proof.
  unfold loop_body. split.
  - destruct (readStream s) as [rcd s'] eqn:R.
    destruct rcd as [r|]; [|simpl; discriminate].
    destruct (extractData (Rec r)) as [data|e] eqn:X; [|discriminate].
    destruct (appendName (Rec r)) as [name|e] eqn:A; [|discriminate].
    destruct (is_endlib (Rec r)) eqn:E; [|discriminate].
    intros H. inversion H; subst. simpl in E. apply Z.eqb_eq in E.
    simpl in A. rewrite E in A. inversion A; subst.
    exists r, s', data. repeat split; auto.
  - intros (r & s' & data & R & T & X & O). rewrite R, X.
    simpl. rewrite T. simpl. subst out. reflexivity.
Qed.

(** C8.  A stream made of a HEADER record (type 0x00, any data type,
    a payload that is a whole number of elements and, for text, ASCII)
    followed by an ENDLIB record (type 0x04, length 4, no payload)
    decodes to exactly two entries, the second one that of ENDLIB, and
    the loop ends without an exception.  In general the driver goes from
    reading to done exactly when it has read and decoded a record of
    type 0x04, and then the entry of that record is the last of the
    output. *)
Theorem header_endlib_decodes
  (dt dt' : byte) (payload : list byte) (w w' : nat) :
  dat_size (bz dt) = Ok w ->
  dat_size (bz dt') = Ok w' ->
  (length payload mod w = 0)%nat ->
  4 + Z.of_nat (length payload) < 2 ^ 15 ->
  (bz dt = 6 -> Forall (fun b => bz b < 128) payload) ->
  (exists vals,
     extractData (Rec (mkRecord (4 + Z.of_nat (length payload)) 0 (bz dt)
                         (chunks_of (length payload / w) w payload))) = Ok vals /\
     main (frame x00 dt payload ++ frame x04 dt' []) =
     Some (Done [("HEADER"%string, vals); ("ENDLIB"%string, [])])) /\
  (forall s acc out,
     step (Reading s acc) (Finished (Done out)) <->
     exists r s' data,
       readStream s = (Rec r, s') /\
       rec_type r = 4 /\
       extractData (Rec r) = Ok data /\
       out = acc ++ [("ENDLIB"%string, data)]).
Proof.
  intros W W' M B A. split.
  - set (input := frame x00 dt payload ++ frame x04 dt' []).
    destruct (frame_valid x00 dt payload w W M) as [V C].
    destruct (extractData_total _ V) as [vals X].
    { cbn [dat_type rec_data]. rewrite C. exact A. }
    change (sign_extend 8 (be_unsigned [x00])) with 0 in X.
    exists vals. split; [exact X|].
    destruct (readStream_frame (open_rb input) x00 dt payload (frame x04 dt' []) w
                eq_refl W M B) as [R1 S1].
    change (sign_extend 8 (be_unsigned [x00])) with 0 in R1.
    set (s1 := mkStream (content (open_rb input))
                        (pos (open_rb input) + 4 + length payload)) in *.
    assert (S1' : remaining s1 = frame x04 dt' [] ++ []) by (rewrite app_nil_r; exact S1).
    destruct (readStream_frame s1 x04 dt' [] [] w' S1' W' (Nat.Div0.mod_0_l w')
                ltac:(simpl; lia)) as [R2 _].
    change (sign_extend 8 (be_unsigned [x04])) with 4 in R2.
    replace (length (@nil byte) / w')%nat with 0%nat in R2
      by (symmetry; apply Nat.Div0.div_0_l).
    cbn [length chunks_of Z.of_nat] in R2. change (4 + 0) with 4 in R2.
    assert (B1 : loop_body (open_rb input) [] =
                 Continue s1 [("HEADER"%string, vals)]).
    { unfold loop_body. rewrite R1, X. reflexivity. }
    assert (B2 : loop_body s1 [("HEADER"%string, vals)] =
                 Break [("HEADER"%string, vals); ("ENDLIB"%string, [])]).
    { apply loop_body_break. do 3 eexists. split; [exact R2|].
      split; [reflexivity|]. split; [apply (extractData_empty 4 dt' w' W')|].
      reflexivity. }
    unfold main. fold input.
    assert (L : exists n, length input = S n).
    { unfold input, frame. cbn [length app]. eexists; reflexivity. }
    destruct L as [n L]. rewrite L.
    cbn [main_loop]. rewrite B1, B2. reflexivity.
  - intros s acc out. rewrite <- loop_body_break. split.
    + intros H. inversion H; subst. assumption.
    + intros H. apply step_break. exact H.
Qed.

Lemma header_endlib_decodes_witness :
  main (bytes_of [0; 6; 0; 2; 2; 0x58; 0; 4; 4; 0]) =
  Some (Done [("HEADER"%string, [PInt 600]); ("ENDLIB"%string, [])]).
Proof.
  destruct (proj1 (header_endlib_decodes x02 x00 (bytes_of [2; 0x58]) 2 1
                     eq_refl eq_refl eq_refl eq_refl
                     ltac:(intros H; discriminate H)))
    as (vals & X & H).
  vm_compute in X. inversion X; subst vals. exact H.
Defined.

(* ================================================================== *)
(** * Further properties                                                *)
(* ================================================================== *)

(** ** The file object under [readStream] *)

Section KeepsFile.

Context {A B : Type}.

Lemma keeps_file_ret (a : A) : keeps_file (io_ret a).
Proof. intros s. simpl. repeat split; lia. Qed.

Lemma keeps_file_lift (r : result A) : keeps_file (io_lift r).
Proof. intros s. simpl. repeat split; lia. Qed.

Lemma keeps_file_bind (m : io A) (k : A -> io B) :
  keeps_file m -> (forall a, keeps_file (k a)) -> keeps_file (io_bind m k).
Proof.
  intros Hm Hk s. unfold io_bind.
  specialize (Hm s). destruct (m s) as [[a|e] s1]; cbn [snd] in *.
  - specialize (Hk a s1). destruct Hm as (C1 & L1 & U1), Hk as (C2 & L2 & U2).
    rewrite C1 in *. repeat split; [congruence | lia | lia].
  - exact Hm.
Qed.
End KeepsFile.

Lemma keeps_file_read (n : nat) : keeps_file (read n).
Proof.
  intros s. unfold read, remaining. cbn [snd content pos].
  pose proof (length_firstn n (skipn (pos s) (content s))) as L.
  rewrite length_skipn in L. repeat split; lia.
Qed.

Lemma keeps_file_seek : keeps_file seek_cur0.
Proof. intros s. simpl. repeat split; lia. Qed.

Lemma keeps_file_read_chunks (idx : list nat) (w : nat) (acc : list (list byte)) :
  keeps_file (read_chunks idx w acc).
Proof.
  revert acc. induction idx as [|i idx IH]; intros acc; cbn [read_chunks].
  - apply keeps_file_ret.
  - apply keeps_file_bind; [apply keeps_file_read|]. intros buf.
    apply keeps_file_bind; [apply keeps_file_seek|]. intros _. apply IH.
Qed.

Lemma keeps_file_readStream_try : keeps_file readStream_try.
Proof.
  unfold readStream_try.
  repeat (first [ apply keeps_file_ret
                | apply keeps_file_read_chunks
                | apply keeps_file_bind;
                  [first [apply keeps_file_read | apply keeps_file_lift
                         | apply keeps_file_seek | apply keeps_file_read_chunks]
                  | intros ? ] ]).
Qed.

(** X1.  Whatever it returns, a record or -1, [readStream] leaves the
    content of the file as it was, never moves the position backwards,
    and never moves it past the end of the file. *)
Theorem readStream_keeps_file (s : stream) :
  content (snd (readStream s)) = content s /\
  (pos s <= pos (snd (readStream s)))%nat /\
  (pos (snd (readStream s)) <= Nat.max (pos s) (length (content s)))%nat.
Proof.
  pose proof (keeps_file_readStream_try s) as H. unfold readStream.
  destruct (readStream_try s) as [[r|e] s']; exact H.
Qed.


(** ** Edge cases of [readStream] *)

(** X2.  A declared length that leaves room for no element, because it
    is below 4 plus the element width (zero and negative lengths
    included), gives a record without data and consumes exactly the four
    header bytes: the bytes that follow are read as the next header. *)
Theorem readStream_no_payload
  (s : stream) (b0 b1 t d : byte) (rest : list byte) (w : nat) :
  remaining s = b0 :: b1 :: t :: d :: rest ->
  dat_size (sign_extend 8 (be_unsigned [d])) = Ok w ->
  sign_extend 16 (be_unsigned [b0; b1]) - 4 < Z.of_nat w ->
  readStream s =
  (Rec (mkRecord (sign_extend 16 (be_unsigned [b0; b1]))
                 (sign_extend 8 (be_unsigned [t]))
                 (sign_extend 8 (be_unsigned [d])) []),
   advance s 4) /\
  remaining (advance s 4) = rest.
Proof.
  intros R W L. pose proof (dat_size_pos _ _ W) as Wp.
  rewrite (readStream_header s b0 b1 t d rest R). unfold header_fields.
  rewrite W. cbv zeta.
  assert (N : Z.to_nat ((sign_extend 16 (be_unsigned [b0; b1]) - 4) / Z.of_nat w) = 0%nat).
  { destruct (Z.le_gt_cases 0 (sign_extend 16 (be_unsigned [b0; b1]) - 4)) as [P|P].
    - rewrite Z.div_small by lia. reflexivity.
    - assert ((sign_extend 16 (be_unsigned [b0; b1]) - 4) / Z.of_nat w < 0)
        by (apply Z.div_lt_upper_bound; lia).
      lia. }
  rewrite N. cbn [chunks_of Nat.mul Nat.min]. rewrite Nat.add_0_r.
  split; [reflexivity|].
  unfold advance. rewrite remaining_advance, R. reflexivity.
Qed.

Lemma readStream_no_payload_witness :
  readStream (open_rb (bytes_of [0xFF; 0xFE; 0x10; 3; 0; 4; 4; 0])) =
  (Rec (mkRecord (-2) 0x10 3 []),
   advance (open_rb (bytes_of [0xFF; 0xFE; 0x10; 3; 0; 4; 4; 0])) 4).
Proof.
  apply (readStream_no_payload
           (open_rb (bytes_of [0xFF; 0xFE; 0x10; 3; 0; 4; 4; 0]))
           xff xfe x10 x03 (bytes_of [0; 4; 4; 0]) 4 eq_refl eq_refl).
  vm_compute. reflexivity.
Defined.


(** ** The converter beyond the claims *)

Lemma mantissa_loop_app (bs : list byte) (l1 l2 : list nat) (st : float * float) :
  mantissa_loop bs (l1 ++ l2) st =
  (st' <- mantissa_loop bs l1 st ;; mantissa_loop bs l2 st').
Proof.
  revert st. induction l1 as [|i l1 IH]; intros st; [reflexivity|].
  cbn [app mantissa_loop].
  destruct (mantissa_step bs st i) as [st1|e]; cbn [bind]; [apply IH | reflexivity].
Qed.

(** The loop looks at the bytes at its indices only. *)
Lemma mantissa_loop_ext (bs bs' : list byte) (idx : list nat) (st : float * float) :
  (forall i, In i idx -> nth_error bs i = nth_error bs' i) ->
  mantissa_loop bs idx st = mantissa_loop bs' idx st.
Proof.
  revert st. induction idx as [|i idx IH]; intros st H; [reflexivity|].
  cbn [mantissa_loop].
  assert (E : mantissa_step bs st i = mantissa_step bs' st i).
  { unfold mantissa_step, getitem. rewrite (H i (or_introl eq_refl)). reflexivity. }
  rewrite E. destruct (mantissa_step bs' st i) as [st1|e]; cbn [bind]; [|reflexivity].
  apply IH. intros j Hj. apply H. right. exact Hj.
Qed.

Lemma ibm370_short (bs : list byte) :
  (length bs < 8)%nat -> ibm370_to_ieee754 bs = Raise IndexError.
Proof.
  intros H. destruct bs as [|b0 rest]; [reflexivity|]. simpl in H.
  unfold ibm370_to_ieee754. change (getitem (b0 :: rest) 0) with (Ok b0).
  cbn [bind]. unfold ibm370_mantissa.
  replace 7%nat with (length rest + S (6 - length rest))%nat at 1 by lia.
  rewrite seq_app, mantissa_loop_app.
  pose proof (mantissa_loop_dyadic b0 rest [] ltac:(simpl; lia)) as M.
  cbn [length app Nat.add] in M.
  change (f64_normalize (be_unsigned []) (-8 * Z.of_nat 0) false)
    with (float_of_int 0) in M.
  change (pow256 (Z.of_nat 0 + 1)) with f_256 in M.
  rewrite M. cbn [bind seq mantissa_loop].
  unfold mantissa_step at 1. unfold getitem.
  replace (nth_error (b0 :: rest) (1 + length rest)) with (@None byte).
  - reflexivity.
  - symmetry. apply nth_error_None. simpl. lia.
Qed.

Lemma ibm370_first8 (bs : list byte) :
  (8 <= length bs)%nat -> ibm370_to_ieee754 bs = ibm370_to_ieee754 (firstn 8 bs).
Proof.
  intros H. destruct bs as [|b0 rest]; [simpl in H; lia|].
  unfold ibm370_to_ieee754, ibm370_mantissa. cbn [firstn getitem nth_error bind].
  rewrite (mantissa_loop_ext (b0 :: rest) (b0 :: firstn 7 rest)); [reflexivity|].
  intros i Hi. apply in_seq in Hi.
  destruct i as [|i]; [reflexivity|]. cbn [nth_error].
  rewrite nth_error_firstn.
  destruct (Nat.ltb_spec i 7); [reflexivity | lia].
Qed.

(** X3.  [ibm370_to_ieee754] raises [IndexError] exactly on inputs of
    fewer than eight bytes, it raises nothing else, and it looks at the
    first eight bytes of its input only. *)
Theorem ibm370_input_length (bs : list byte) :
  (ibm370_to_ieee754 bs = Raise IndexError <-> (length bs < 8)%nat) /\
  (forall e, ibm370_to_ieee754 bs = Raise e -> e = IndexError) /\
  ibm370_to_ieee754 bs = ibm370_to_ieee754 (firstn 8 bs).
Proof.
  assert (T : (8 <= length bs)%nat -> exists x, ibm370_to_ieee754 bs = Ok x).
  { intros H. rewrite ibm370_first8 by exact H.
    destruct (ibm370_total (firstn 8 bs)) as (x & Hx & _).
    - rewrite length_firstn. lia.
    - exists x. exact Hx. }
  split; [split|split].
  - intros E. destruct (Nat.lt_ge_cases (length bs) 8) as [C|C]; [exact C|].
    destruct (T C) as [x Hx]. rewrite Hx in E. discriminate E.
  - apply ibm370_short.
  - intros e E. destruct (Nat.lt_ge_cases (length bs) 8) as [C|C].
    + rewrite ibm370_short in E by exact C. inversion E. reflexivity.
    + destruct (T C) as [x Hx]. rewrite Hx in E. discriminate E.
  - destruct (Nat.lt_ge_cases (length bs) 8) as [C|C].
    + rewrite firstn_all2 by lia. reflexivity.
    + apply ibm370_first8. exact C.
Qed.

(** ** Sign, zero and range of the converted reals *)

Lemma be_unsigned_zero (l : list byte) :
  be_unsigned l = 0 <-> Forall (fun b => bz b = 0) l.
Proof.
  induction l as [|b l IH].
  - split; [constructor | reflexivity].
  - rewrite be_unsigned_cons.
    pose proof (be_unsigned_range l) as R.
    assert (Hb : 0 <= bz b) by (unfold bz; lia).
    assert (P : 0 < 256 ^ Z.of_nat (length l)) by (apply Z.pow_pos_nonneg; lia).
    split.
    + intros H.
      assert (B0 : bz b = 0) by nia.
      constructor; [exact B0|]. apply IH. rewrite B0 in H. lia.
    + intros H. inversion H as [|? ? B0 Hl]; subst.
      apply IH in Hl. rewrite B0, Hl. lia.
Qed.

Lemma f64_normalize_pos (s : bool) (q : positive) (e : Z) :
  f64_normalize (cond_Zopp s (Zpos q)) e s = binary_round 53 1024 s q e.
Proof. destruct s; reflexivity. Qed.

Lemma Zdigits2_le_56 (N : Z) : 0 < N < 2 ^ 56 -> 1 <= Zdigits2 N <= 56.
Proof.
  intros [P U]. destruct N as [|q|q]; try lia.
  pose proof (digits2_pos_bounds q) as B. cbn [Zdigits2].
  split; [lia|].
  destruct (Z.le_gt_cases (Zpos (digits2_pos q)) 56) as [L|G]; [exact L|].
  exfalso. destruct B as [B _].
  assert (2 ^ 56 <= 2 ^ (Zpos (digits2_pos q) - 1)) by (apply Z.pow_le_mono_r; lia).
  lia.
Qed.

(** X4.  The float that eight bytes convert to has the sign of the top
    bit of byte 0, also when it is a zero; it is a zero exactly when the
    seven fraction bytes are all zero, whatever the exponent field; and
    every other result is a normal number with its binary exponent
    between -365 and 200: the converter produces no subnormal number, no
    infinity and no NaN. *)
Theorem ibm370_sign_zero_normal (b0 : byte) (rest : list byte) :
  length rest = 7%nat ->
  exists x,
    ibm370_to_ieee754 (b0 :: rest) = Ok x /\
    sign_bit x = Z.testbit (bz b0) 7 /\
    (is_zero x = true <-> Forall (fun b => bz b = 0) rest) /\
    (is_zero x = false ->
     is_normal x = true /\
     exists m e, x = S754_finite (Z.testbit (bz b0) 7) m e /\ -365 <= e <= 200).
Proof.
  intros L. rewrite (ibm370_result b0 rest L). eexists. split; [reflexivity|].
  pose proof (be_unsigned_lt rest 7 ltac:(lia)) as R.
  change (2 ^ (8 * Z.of_nat 7)) with (2 ^ 56) in R.
  pose proof (ibm370_exponent2_range b0) as E.
  rewrite <- be_unsigned_zero.
  set (sg := Z.testbit (bz b0) 7).
  destruct (be_unsigned rest) as [|q|q] eqn:N; [| |lia].
  - replace (f64_normalize (cond_Zopp sg 0) (ibm370_exponent2 b0 - 56) sg)
      with (S754_zero sg) by (destruct sg; reflexivity).
    cbn [sign_bit is_zero]. split; [reflexivity|]. split; [tauto | discriminate].
  - rewrite f64_normalize_pos.
    destruct (binary_round_normal q) as (m & k & D & K & _ & F & _).
    pose proof (Zdigits2_le_56 (Zpos q) ltac:(lia)) as Dq. cbn [Zdigits2] in Dq.
    rewrite (F sg (ibm370_exponent2 b0 - 56)) by lia.
    cbn [sign_bit is_zero is_normal]. split; [reflexivity|]. split.
    + split; discriminate.
    + intros _. split.
      * rewrite D. reflexivity.
      * exists m, (ibm370_exponent2 b0 - 56 + k). split; [reflexivity | lia].
Qed.

Lemma ibm370_sign_zero_normal_witness :
  exists x,
    ibm370_to_ieee754 (x80 :: bytes_of [0; 0; 0; 0; 0; 0; 0]) = Ok x /\
    sign_bit x = true /\ is_zero x = true.
Proof.
  destruct (ibm370_sign_zero_normal x80 (bytes_of [0; 0; 0; 0; 0; 0; 0]) eq_refl)
    as (x & Hx & S & Z0 & _).
  exists x. split; [exact Hx|]. split; [exact S|].
  apply Z0. repeat constructor.
Defined.

(** ** Equal values, equal floats *)

Lemma f64_normalize_signed_scale (s : bool) (N t e : Z) :
  0 <= N -> 0 <= t ->
  f64_normalize (cond_Zopp s (N * 2 ^ t)) (e - t) s =
  f64_normalize (cond_Zopp s N) e s.
Proof.
  intros HN Ht. destruct N as [|q|q]; [| |lia].
  - rewrite Z.mul_0_l. destruct s; reflexivity.
  - assert (P : 0 < Zpos q * 2 ^ t)
      by (apply Z.mul_pos_pos; [lia | apply Z.pow_pos_nonneg; lia]).
    rewrite <- (Z2Pos.id (Zpos q * 2 ^ t) P).
    rewrite !f64_normalize_pos. apply binary_round_scale. exact Ht.
Qed.

(** Two dyadic numbers of the same value differ by a power of two in
    their integer parts. *)
Lemma dyadic_eq_scale (N N' e e' : Z) :
  e' <= e ->
  (inject_Z N * Qpower (2 # 1) e == inject_Z N' * Qpower (2 # 1) e')%Q ->
  N' = N * 2 ^ (e - e').
Proof.
  intros Le H.
  replace e with (e' + (e - e')) in H by lia.
  rewrite Q2pow_split in H by lia.
  assert (H' : (inject_Z (N * 2 ^ (e - e')) * Qpower (2 # 1) e'
                == inject_Z N' * Qpower (2 # 1) e')%Q).
  { rewrite inject_Z_mult. rewrite <- H. ring. }
  apply Qmult_inj_r in H'; [|apply Qpower_not_0; exact Q2_nonzero].
  symmetry. apply inject_Z_injective. exact H'.
Qed.

Lemma cond_Zopp_Q_inj (s : bool) (N N' : Z) (x y : Q) :
  (inject_Z (cond_Zopp s N) * x == inject_Z (cond_Zopp s N') * y)%Q ->
  (inject_Z N * x == inject_Z N' * y)%Q.
Proof.
  destruct s; cbn [cond_Zopp]; [|trivial].
  rewrite !inject_Z_opp. intros H.
  setoid_replace (inject_Z N * x)%Q with (- (- inject_Z N * x))%Q by ring.
  rewrite H. ring.
Qed.

Lemma ibm370_same_value (s : bool) (N N' e e' : Z) :
  0 <= N -> 0 <= N' -> e' <= e ->
  (inject_Z (cond_Zopp s N) * Qpower (2 # 1) e
   == inject_Z (cond_Zopp s N') * Qpower (2 # 1) e')%Q ->
  f64_normalize (cond_Zopp s N) e s = f64_normalize (cond_Zopp s N') e' s.
Proof.
  intros HN HN' Le H. apply cond_Zopp_Q_inj in H.
  rewrite (dyadic_eq_scale N N' e e' Le H).
  replace e' with (e - (e - e')) at 2 by lia.
  symmetry. apply f64_normalize_signed_scale; lia.
Qed.

(** X5.  The converter is a function of the value the bytes denote: two
    encodings with the same sign bit and the same exact value, such as a
    normalised number and the same number with its fraction shifted
    right by hexadecimal digits and its exponent raised, convert to the
    same float. *)
Theorem ibm370_value_determined (b0 b0' : byte) (rest rest' : list byte) :
  length rest = 7%nat ->
  length rest' = 7%nat ->
  Z.testbit (bz b0) 7 = Z.testbit (bz b0') 7 ->
  Qeq (exact_value b0 rest) (exact_value b0' rest') ->
  ibm370_to_ieee754 (b0 :: rest) = ibm370_to_ieee754 (b0' :: rest').
Proof.
  intros L L' S V.
  rewrite (ibm370_result b0 rest L), (ibm370_result b0' rest' L').
  rewrite (exact_value_eq b0 rest L), (exact_value_eq b0' rest' L') in V.
  rewrite <- S in *.
  pose proof (be_unsigned_range rest) as [R _].
  pose proof (be_unsigned_range rest') as [R' _].
  f_equal.
  destruct (Z.le_ge_cases (ibm370_exponent2 b0' - 56) (ibm370_exponent2 b0 - 56))
    as [C|C].
  - apply ibm370_same_value; assumption.
  - symmetry. apply ibm370_same_value; try assumption. symmetry. exact V.
Qed.

Lemma ibm370_value_determined_witness :
  ibm370_to_ieee754 (bytes_of [0x41; 0x10; 0; 0; 0; 0; 0; 0]) =
  ibm370_to_ieee754 (bytes_of [0x43; 0x00; 0x10; 0; 0; 0; 0; 0]).
Proof.
  apply (ibm370_value_determined x41 x43
           (bytes_of [0x10; 0; 0; 0; 0; 0; 0])
           (bytes_of [0x00; 0x10; 0; 0; 0; 0; 0])
           eq_refl eq_refl eq_refl).
  vm_compute. reflexivity.
Defined.

(** ** The exponent field scales exactly *)

Lemma ldexp_zero (s : bool) (c : Z) : ldexp (S754_zero s) c = Ok (S754_zero s).
Proof. reflexivity. Qed.

Lemma ldexp_normal (s : bool) (m : positive) (e c : Z) :
  digits2_pos m = 53%positive ->
  -1074 <= e + c <= 971 ->
  ldexp (S754_finite s m e) c = Ok (S754_finite s m (e + c)).
Proof.
  intros D R. unfold ldexp. cbn [SFldexp].
  rewrite (binary_round_53 s m (e + c) D R). reflexivity.
Qed.

(** X6.  Changing the exponent field only scales the result by the
    power of 16 exactly: the conversion of the same fraction under
    another exponent is the [ldexp] of the first result, with the same
    53 significant bits. *)
Theorem ibm370_exponent_scaling (b0 b0' : byte) (rest : list byte) :
  length rest = 7%nat ->
  Z.testbit (bz b0) 7 = Z.testbit (bz b0') 7 ->
  ibm370_to_ieee754 (b0' :: rest) =
  (x <- ibm370_to_ieee754 (b0 :: rest) ;;
   ldexp x (ibm370_exponent2 b0' - ibm370_exponent2 b0)).
Proof.
  intros L S.
  rewrite (ibm370_result b0 rest L), (ibm370_result b0' rest L). cbn [bind].
  rewrite <- S. set (sg := Z.testbit (bz b0) 7).
  pose proof (be_unsigned_lt rest 7 ltac:(lia)) as R.
  change (2 ^ (8 * Z.of_nat 7)) with (2 ^ 56) in R.
  pose proof (ibm370_exponent2_range b0) as E.
  pose proof (ibm370_exponent2_range b0') as E'.
  destruct (be_unsigned rest) as [|q|q] eqn:N; [| |lia].
  - replace (cond_Zopp sg 0) with 0 by (destruct sg; reflexivity).
    rewrite !f64_normalize_zero. reflexivity.
  - rewrite !f64_normalize_pos.
    destruct (binary_round_normal q) as (m & k & D & K & _ & F & _).
    pose proof (Zdigits2_le_56 (Zpos q) ltac:(lia)) as Dq. cbn [Zdigits2] in Dq.
    rewrite (F sg (ibm370_exponent2 b0 - 56)) by lia.
    rewrite (F sg (ibm370_exponent2 b0' - 56)) by lia.
    rewrite ldexp_normal by (trivial; lia).
    do 2 f_equal. lia.
Qed.

Lemma ibm370_exponent_scaling_witness :
  ibm370_to_ieee754 (bytes_of [0x42; 0x10; 0; 0; 0; 0; 0; 0]) =
  (x <- ibm370_to_ieee754 (bytes_of [0x41; 0x10; 0; 0; 0; 0; 0; 0]) ;; ldexp x 4).
Proof.
  apply (ibm370_exponent_scaling x41 x42 (bytes_of [0x10; 0; 0; 0; 0; 0; 0])
           eq_refl eq_refl).
Defined.

(** ** Eight-byte reals in [extractData] *)

Lemma ibm370_real64_of (c : list byte) :
  length c = 8%nat -> exists x, real64_of c x.
Proof.
  intros L. destruct c as [|b0 rest]; [discriminate L|].
  assert (L7 : length rest = 7%nat) by (simpl in L; lia).
  pose proof (be_unsigned_lt rest 7 ltac:(lia)) as R.
  change (2 ^ (8 * Z.of_nat 7)) with (2 ^ 56) in R.
  pose proof (ibm370_exponent2_range b0) as E.
  assert (Rg : 0 < be_unsigned rest ->
               -1074 <= Zdigits2 (be_unsigned rest) + (ibm370_exponent2 b0 - 56) - 53 /\
               ibm370_exponent2 b0 - 56 + Zdigits2 (be_unsigned rest) - 52 <= 971).
  { intros P. pose proof (Zdigits2_le (be_unsigned rest) 56 ltac:(lia)). lia. }
  eexists. split; [apply (ibm370_result b0 rest L7)|]. split.
  - apply f64_normalize_is_finite; [lia | exact Rg].
  - exists b0, rest. split; [reflexivity|].
    rewrite (exact_value_eq b0 rest L7).
    apply f64_normalize_value; [lia | exact Rg].
Qed.

Lemma mapM_dec_real64 (l : list (list byte)) :
  Forall (fun c => length c = 8%nat) l ->
  exists xs, mapM dec_real64 l = Ok (map PFloat xs) /\ Forall2 real64_of l xs.
Proof.
  induction l as [|c l IH]; intros F.
  - exists []. split; [reflexivity | constructor].
  - inversion F as [|? ? Hc Hl]; subst.
    destruct (ibm370_real64_of c Hc) as (x & Hx).
    destruct (IH Hl) as (xs & E & F2).
    exists (x :: xs). split; [|constructor; assumption].
    cbn [mapM]. unfold dec_real64 at 1. rewrite (proj1 Hx). cbn [bind].
    rewrite E. reflexivity.
Qed.

(** X7.  On a valid record of eight-byte reals (data type 5)
    [extractData] never fails: it returns one float per element, in
    order, each the conversion of its eight bytes, finite and within a
    relative error of 2^-53 of the value the bytes denote. *)
Theorem extractData_real64 (r : record) :
  valid_record r ->
  dat_type r = 5 ->
  exists xs,
    extractData (Rec r) = Ok (map PFloat xs) /\
    Forall2 real64_of (rec_data r) xs.
Proof.
  intros V T.
  assert (W : dat_size (dat_type r) = Ok 8%nat) by (rewrite T; reflexivity).
  destruct (valid_record_loop r 8 W V) as [N F].
  unfold extractData. rewrite T. cbn [Z.eqb Pos.eqb].
  rewrite extract_loop_all by exact N.
  apply mapM_dec_real64. exact F.
Qed.

Lemma extractData_real64_witness :
  exists xs,
    extractData
      (Rec (mkRecord 12 0x03 5 [bytes_of [0x3e; 0x41; 0x89; 0x37; 0x4b; 0xc6; 0xa7; 0xf0]]))
    = Ok (map PFloat xs) /\
    Forall2 real64_of [bytes_of [0x3e; 0x41; 0x89; 0x37; 0x4b; 0xc6; 0xa7; 0xf0]] xs.
Proof.
  apply (extractData_real64
           (mkRecord 12 0x03 5 [bytes_of [0x3e; 0x41; 0x89; 0x37; 0x4b; 0xc6; 0xa7; 0xf0]])).
  - exists 8%nat. cbn [dat_type rec_size rec_data].
    repeat split; try reflexivity; try lia. repeat constructor.
  - reflexivity.
Defined.

(** ** What [readStream] hands over *)

(** A record comes out of [readStream] only from a header of four bytes
    with a known data type; the record and the new position are then
    fixed by the header and the bytes after it. *)
Lemma readStream_rec_inv (s s' : stream) (r : record) :
  readStream s = (Rec r, s') ->
  exists b0 b1 t d rest w,
    remaining s = b0 :: b1 :: t :: d :: rest /\
    dat_size (sign_extend 8 (be_unsigned [d])) = Ok w /\
    r = mkRecord (sign_extend 16 (be_unsigned [b0; b1]))
                 (sign_extend 8 (be_unsigned [t]))
                 (sign_extend 8 (be_unsigned [d]))
                 (chunks_of
                    (Z.to_nat ((sign_extend 16 (be_unsigned [b0; b1]) - 4) / Z.of_nat w))
                    w rest) /\
    s' = mkStream (content s)
           (pos s + 4 +
            Nat.min
              (Z.to_nat ((sign_extend 16 (be_unsigned [b0; b1]) - 4) / Z.of_nat w) * w)
              (length rest)).
Proof.
  intros H.
  destruct (remaining s) as [|b0 [|b1 [|t [|d rest]]]] eqn:R;
    try (pose proof (readStream_short s) as S; rewrite R in S;
         rewrite H in S; simpl in S; specialize (S ltac:(lia)); discriminate S).
  rewrite (readStream_header s b0 b1 t d rest R) in H.
  unfold header_fields in H.
  destruct (dat_size (sign_extend 8 (be_unsigned [d]))) as [w|e] eqn:W;
    [|discriminate H].
  cbv zeta in H. inversion H; subst. clear H.
  exists b0, b1, t, d, rest, w. repeat split; try reflexivity. exact W.
Qed.

Lemma chunks_of_le (n w : nat) (r : list byte) :
  Forall (fun c => (length c <= w)%nat) (chunks_of n w r).
Proof.
  revert r. induction n as [|n IH]; intros r; simpl; constructor.
  - rewrite length_firstn. lia.
  - apply IH.
Qed.

Lemma field_range (w : nat) (l : list byte) :
  (0 < w)%nat -> length l = w ->
  - 2 ^ (8 * Z.of_nat w - 1) <= sign_extend (8 * Z.of_nat w) (be_unsigned l)
    < 2 ^ (8 * Z.of_nat w - 1).
Proof.
  intros P L. apply sign_extend_range; [lia|].
  apply be_unsigned_lt. lia.
Qed.

(** X8.  Whatever the header says, a record returned by [readStream]
    accounts for the bytes it consumed: the bytes that were ahead are
    the four header bytes, then the chunks of the record in order, then
    what is still ahead.  The header fields are the signed big-endian
    readings of those four bytes, so the length lies in [-2^15, 2^15),
    the record type in [-128, 128) and the data type in [0, 6]; there
    is one chunk per whole element that the length announces, none when
    it is below 4, and no chunk is longer than an element. *)
Theorem readStream_partition (s s' : stream) (r : record) :
  readStream s = (Rec r, s') ->
  exists b0 b1 t d w,
    remaining s = b0 :: b1 :: t :: d :: concat (rec_data r) ++ remaining s' /\
    rec_size r = sign_extend 16 (be_unsigned [b0; b1]) /\
    rec_type r = sign_extend 8 (be_unsigned [t]) /\
    dat_type r = sign_extend 8 (be_unsigned [d]) /\
    dat_size (dat_type r) = Ok w /\
    Z.of_nat (length (rec_data r)) = Z.max 0 ((rec_size r - 4) / Z.of_nat w) /\
    Forall (fun c => (length c <= w)%nat) (rec_data r) /\
    - 2 ^ 15 <= rec_size r < 2 ^ 15 /\
    -128 <= rec_type r < 128 /\
    0 <= dat_type r <= 6.
Proof.
  intros H.
  destruct (readStream_rec_inv s s' r H) as (b0 & b1 & t & d & rest & w & R & W & Er & Es).
  subst r s'. cbn [rec_size rec_type dat_type rec_data].
  exists b0, b1, t, d, w.
  set (n := Z.to_nat ((sign_extend 16 (be_unsigned [b0; b1]) - 4) / Z.of_nat w)).
  split; [|repeat split; try reflexivity].
  - rewrite <- Nat.add_assoc, remaining_advance, R. cbn [Nat.add skipn].
    rewrite skipn_min, concat_chunks_of, firstn_skipn. reflexivity.
  - exact W.
  - rewrite length_chunks_of. subst n. lia.
  - apply chunks_of_le.
  - apply (field_range 2 [b0; b1]); [lia | reflexivity].
  - apply (field_range 2 [b0; b1]); [lia | reflexivity].
  - apply (field_range 1 [t]); [lia | reflexivity].
  - apply (field_range 1 [t]); [lia | reflexivity].
  - apply dat_size_cases in W. lia.
  - apply dat_size_cases in W. lia.
Qed.

Lemma readStream_partition_witness :
  exists b0 b1 t d w,
    bytes_of [0; 7; 0x0D; 2; 0; 1; 0xAA; 0xBB] =
      b0 :: b1 :: t :: d :: concat [bytes_of [0; 1]] ++ bytes_of [0xAA; 0xBB] /\
    dat_size 2 = Ok w.
Proof.
  destruct (readStream_partition
              (open_rb (bytes_of [0; 7; 0x0D; 2; 0; 1; 0xAA; 0xBB]))
              (mkStream (bytes_of [0; 7; 0x0D; 2; 0; 1; 0xAA; 0xBB]) 6)
              (mkRecord 7 0x0D 2 [bytes_of [0; 1]]) eq_refl)
    as (b0 & b1 & t & d & w & P & _ & _ & _ & W & _).
  exists b0, b1, t, d, w. split; [exact P | exact W].
Defined.

(** ** [extractData] on the records of [readStream] *)

Lemma extract_loop_count (f : list byte -> result pyvalue)
  (l : list (list byte)) (n : Z) :
  length l = Z.to_nat n ->
  extract_loop f l (range0 n) [] = mapM f l.
Proof.
  intros H. unfold range0. rewrite <- H.
  pose proof (extract_loop_mapM f [] l []) as E. simpl in E. rewrite E.
  destruct (mapM f l); reflexivity.
Qed.

(** When the record holds one chunk per element that its length
    announces, the loops of [extractData] index exactly the chunks. *)
Lemma extractData_chunks (r : record) (w : nat) :
  dat_size (dat_type r) = Ok w ->
  length (rec_data r) = Z.to_nat ((rec_size r - 4) / Z.of_nat w) ->
  extractData (Rec r) = decode_chunks (dat_type r) (rec_data r).
Proof.
  intros W N. unfold extractData, decode_chunks, element_decoder.
  destruct (dat_size_cases _ _ W) as [[T Ew]|[[T Ew]|[[T Ew]|[[T Ew]|[[T Ew]|[[T Ew]|[T Ew]]]]]]];
    subst w; rewrite T in *; cbn [Z.eqb Pos.eqb]; try reflexivity;
    apply extract_loop_count; try exact N.
  rewrite N. change (Z.of_nat 1) with 1. rewrite Z.div_1_r. reflexivity.
Qed.

(** X9.  On every record that [readStream] returns, [extractData] is a
    map of the element decoder of the data type over the chunks, in
    order: the element counts that [extractData] recomputes with its own
    divisors agree with the number of chunks [readStream] stored, so
    that indexing the chunks never fails and no chunk is left out. *)
Theorem extractData_after_readStream (s s' : stream) (r : record) :
  readStream s = (Rec r, s') ->
  extractData (Rec r) = decode_chunks (dat_type r) (rec_data r).
Proof.
  intros H.
  destruct (readStream_rec_inv s s' r H) as (b0 & b1 & t & d & rest & w & _ & W & Er & _).
  subst r. apply (extractData_chunks _ w); cbn [dat_type rec_data rec_size].
  - exact W.
  - apply length_chunks_of.
Qed.

Lemma extractData_after_readStream_witness :
  extractData (Rec (mkRecord 7 0x0D 2 [bytes_of [0xFF; 0xFE]])) =
  decode_chunks 2 [bytes_of [0xFF; 0xFE]].
Proof.
  apply (extractData_after_readStream
           (open_rb (bytes_of [0; 7; 0x0D; 2; 0xFF; 0xFE; 0xAA; 0xBB]))
           (mkStream (bytes_of [0; 7; 0x0D; 2; 0xFF; 0xFE; 0xAA; 0xBB]) 6)
           (mkRecord 7 0x0D 2 [bytes_of [0xFF; 0xFE]]) eq_refl).
Defined.

(** ** Records cut short by the end of the file *)

Lemma mapM_ok_iff {A B} (f : A -> result B) (l : list A) :
  (exists bs, mapM f l = Ok bs) <-> Forall (fun a => exists b, f a = Ok b) l.
Proof.
  split; [|apply mapM_total].
  induction l as [|a l IH]; intros [bs H]; constructor.
  - cbn [mapM] in H. destruct (f a) as [b|e]; [exists b; reflexivity | discriminate H].
  - apply IH. cbn [mapM] in H. destruct (f a) as [b|e]; [|discriminate H].
    cbn [bind] in H. destruct (mapM f l) as [bs'|e]; [eexists; reflexivity | discriminate H].
Qed.

Lemma mapM_raise {A B} (f : A -> result B) (l : list A) (e : exn) :
  mapM f l = Raise e -> Exists (fun a => f a = Raise e) l.
Proof.
  induction l as [|a l IH]; intros H; [discriminate H|].
  cbn [mapM] in H. destruct (f a) as [b|e'] eqn:F.
  - cbn [bind] in H. destruct (mapM f l) as [bs|e'']; [discriminate H|].
    cbn [bind] in H. right. apply IH. exact H.
  - cbn [bind] in H. left. inversion H; subst. exact F.
Qed.

(** The elements are all whole exactly when the bytes suffice. *)
Lemma mapM_chunks_of (f : list byte -> result pyvalue) (w n : nat) (r : list byte) :
  (0 < w)%nat ->
  (forall c, (length c <= w)%nat -> ((exists v, f c = Ok v) <-> length c = w)) ->
  ((exists vs, mapM f (chunks_of n w r) = Ok vs) <-> (n * w <= length r)%nat).
Proof.
  intros Hw Hf. rewrite mapM_ok_iff.
  revert r. induction n as [|n IH]; intros r; cbn [chunks_of].
  - split; [intros _; simpl; lia | constructor].
  - split.
    + intros H. inversion H as [|? ? H1 H2]; subst.
      apply Hf in H1; [|rewrite length_firstn; lia].
      apply IH in H2. rewrite length_firstn in H1. rewrite length_skipn in H2.
      simpl. lia.
    + intros H. simpl in H. constructor.
      * apply Hf; rewrite length_firstn; lia.
      * apply IH. rewrite length_skipn. lia.
Qed.

Lemma dec_int16_cases (c : list byte) :
  ((exists v, dec_int16 c = Ok v) <-> length c = 2%nat) /\
  (forall e, dec_int16 c = Raise e -> e = StructError).
Proof.
  unfold dec_int16, unpack_h, unpack_int.
  destruct (Nat.eqb_spec (length c) 2) as [E|E]; cbn [bind]; split.
  - split; [intros _; exact E | intros _; eexists; reflexivity].
  - discriminate.
  - split; [intros [v H]; discriminate H | intros H; contradiction].
  - intros e H. inversion H. reflexivity.
Qed.

Lemma dec_int32_cases (c : list byte) :
  ((exists v, dec_int32 c = Ok v) <-> length c = 4%nat) /\
  (forall e, dec_int32 c = Raise e -> e = StructError).
Proof.
  unfold dec_int32, unpack_l, unpack_int.
  destruct (Nat.eqb_spec (length c) 4) as [E|E]; cbn [bind]; split.
  - split; [intros _; exact E | intros _; eexists; reflexivity].
  - discriminate.
  - split; [intros [v H]; discriminate H | intros H; contradiction].
  - intros e H. inversion H. reflexivity.
Qed.

Lemma dec_real32_cases (c : list byte) :
  ((exists v, dec_real32 c = Ok v) <-> length c = 4%nat) /\
  (forall e, dec_real32 c = Raise e -> e = StructError).
Proof.
  unfold dec_real32, unpack_f.
  destruct (Nat.eqb_spec (length c) 4) as [E|E]; cbn [bind]; split.
  - split; [intros _; exact E | intros _; eexists; reflexivity].
  - discriminate.
  - split; [intros [v H]; discriminate H | intros H; contradiction].
  - intros e H. inversion H. reflexivity.
Qed.

Lemma ibm370_long (bs : list byte) :
  (8 <= length bs)%nat -> exists x, ibm370_to_ieee754 bs = Ok x.
Proof.
  intros H. rewrite ibm370_first8 by exact H.
  destruct (ibm370_total (firstn 8 bs)) as (x & Hx & _).
  - rewrite length_firstn. lia.
  - exists x. exact Hx.
Qed.

Lemma dec_real64_cases (c : list byte) :
  ((exists v, dec_real64 c = Ok v) <-> (8 <= length c)%nat) /\
  (forall e, dec_real64 c = Raise e -> e = IndexError).
Proof.
  unfold dec_real64.
  destruct (Nat.lt_ge_cases (length c) 8) as [C|C].
  - rewrite (ibm370_short c C). cbn [bind]. split.
    + split; [intros [v H]; discriminate H | lia].
    + intros e H. inversion H. reflexivity.
  - destruct (ibm370_long c C) as [x Hx]. rewrite Hx. cbn [bind]. split.
    + split; [intros _; exact C | intros _; eexists; reflexivity].
    + discriminate.
Qed.

Lemma dec_char_cases (c : list byte) :
  ((exists v, dec_char c = Ok v) <->
   exists b, c = [b] /\ bz b < 128) /\
  (forall e, dec_char c = Raise e -> e = StructError \/ e = UnicodeDecodeError).
Proof.
  unfold dec_char, unpack_c.
  destruct c as [|b [|b' c]]; cbn [length Nat.eqb bind decode_utf8]; split.
  - split; [intros [v H]; discriminate H | intros (b & H & _); discriminate H].
  - intros e H. inversion H. left. reflexivity.
  - destruct (Z.ltb_spec (bz b) 128) as [L|L]; cbn [bind].
    + split; [intros _; exists b; split; [reflexivity | exact L]
             | intros _; eexists; reflexivity].
    + split; [intros [v H]; discriminate H
             | intros (b1 & H & L1); inversion H; subst; lia].
  - intros e H. destruct (bz b <? 128); cbn [bind] in H; [discriminate H|].
    inversion H. right. reflexivity.
  - split; [intros [v H]; discriminate H | intros (b1 & H & _); discriminate H].
  - intros e H. inversion H. left. reflexivity.
Qed.

Lemma mapM_dec_char_chunks (n : nat) (r : list byte) :
  (exists vs, mapM dec_char (chunks_of n 1 r) = Ok vs) <->
  (n <= length r)%nat /\ Forall (fun b => bz b < 128) (firstn n r).
Proof.
  rewrite mapM_ok_iff.
  revert r. induction n as [|n IH]; intros r; cbn [chunks_of].
  - split; [intros _; split; [lia | constructor] | constructor].
  - destruct r as [|b r].
    + split.
      * intros H. inversion H as [|? ? H1 _]; subst.
        apply (proj1 (dec_char_cases _)) in H1. destruct H1 as (b & E & _).
        discriminate E.
      * intros [H _]. simpl in H. lia.
    + cbn [firstn skipn length]. split.
      * intros H. inversion H as [|? ? H1 H2]; subst.
        apply (proj1 (dec_char_cases _)) in H1. destruct H1 as (b1 & E & L).
        inversion E; subst. apply IH in H2. destruct H2 as [H2 H3].
        split; [lia | constructor; assumption].
      * intros [H1 H2]. inversion H2 as [|? ? L F]; subst. constructor.
        -- apply (proj1 (dec_char_cases _)). exists b. split; [reflexivity | exact L].
        -- apply IH. split; [lia | exact F].
Qed.

(** X10.  A record of decoded data (data types 2 to 6) read off the file
    decodes exactly when the file holds all the elements its header
    announces (and, for ASCII, those bytes are below 128).  When the
    file ends inside the record, [readStream] still returns a record,
    with short or empty chunks, and [extractData] raises on it:
    [struct.error] for the integer and four-byte real types,
    [IndexError] for eight-byte reals, [struct.error] or
    [UnicodeDecodeError] for ASCII. *)
Theorem extractData_truncated
  (s : stream) (b0 b1 t d : byte) (rest : list byte) (w : nat) :
  remaining s = b0 :: b1 :: t :: d :: rest ->
  dat_size (sign_extend 8 (be_unsigned [d])) = Ok w ->
  2 <= sign_extend 8 (be_unsigned [d]) <= 6 ->
  ((exists data, extractData (fst (readStream s)) = Ok data) <->
   (sign_extend 16 (be_unsigned [b0; b1]) - 4) / Z.of_nat w * Z.of_nat w
     <= Z.of_nat (length rest) /\
   (sign_extend 8 (be_unsigned [d]) = 6 ->
    Forall (fun b => bz b < 128)
      (firstn (Z.to_nat (sign_extend 16 (be_unsigned [b0; b1]) - 4)) rest))) /\
  (forall e, extractData (fst (readStream s)) = Raise e ->
     (sign_extend 8 (be_unsigned [d]) <= 4 -> e = StructError) /\
     (sign_extend 8 (be_unsigned [d]) = 5 -> e = IndexError) /\
     (sign_extend 8 (be_unsigned [d]) = 6 ->
      e = StructError \/ e = UnicodeDecodeError)).
Proof.
  intros R W T.
  rewrite (readStream_header s b0 b1 t d rest R). unfold header_fields.
  rewrite W. cbv zeta. cbn [fst].
  set (len := sign_extend 16 (be_unsigned [b0; b1])) in *.
  set (dt := sign_extend 8 (be_unsigned [d])) in *.
  set (n := Z.to_nat ((len - 4) / Z.of_nat w)).
  rewrite (extractData_chunks _ w) by (try exact W; apply length_chunks_of).
  cbn [dat_type rec_data].
  pose proof (dat_size_pos _ _ W) as Wp.
  assert (Cnt : (len - 4) / Z.of_nat w * Z.of_nat w <= Z.of_nat (length rest)
                <-> (n * w <= length rest)%nat).
  { subst n. destruct (Z.le_gt_cases 0 ((len - 4) / Z.of_nat w)) as [P|P].
    - rewrite <- (Z2Nat.id _ P) at 1. lia.
    - replace (Z.to_nat ((len - 4) / Z.of_nat w)) with 0%nat by lia. nia. }
  assert (Full : forall (f : list byte -> result pyvalue) (E : exn),
            (forall c, (length c <= w)%nat ->
                       ((exists v, f c = Ok v) <-> length c = w)) ->
            (forall c e, f c = Raise e -> e = E) ->
            dt <> 6 ->
            ((exists data, mapM f (chunks_of n w rest) = Ok data) <->
             (len - 4) / Z.of_nat w * Z.of_nat w <= Z.of_nat (length rest) /\
             (dt = 6 -> Forall (fun b => bz b < 128) (firstn (Z.to_nat (len - 4)) rest))) /\
            (forall e, mapM f (chunks_of n w rest) = Raise e -> e = E)).
  { intros f E Hf He D6. split.
    - rewrite (mapM_chunks_of f w n rest Wp Hf), Cnt. tauto.
    - intros e H. apply mapM_raise in H. apply Exists_exists in H.
      destruct H as (c & _ & Hc). apply (He c e Hc). }
  unfold decode_chunks, element_decoder.
  destruct (dat_size_cases _ _ W) as [[D Ew]|[[D Ew]|[[D Ew]|[[D Ew]|[[D Ew]|[[D Ew]|[D Ew]]]]]]];
    try lia; rewrite D in *; cbn [Z.eqb Pos.eqb].
  - destruct (Full dec_int16 StructError) as [F1 F2];
      [intros c _; rewrite Ew; apply dec_int16_cases
      |intros c; apply dec_int16_cases | lia |].
    split; [exact F1|]. intros e H. rewrite (F2 e H). repeat split; intros; lia || trivial.
  - destruct (Full dec_int32 StructError) as [F1 F2];
      [intros c _; rewrite Ew; apply dec_int32_cases
      |intros c; apply dec_int32_cases | lia |].
    split; [exact F1|]. intros e H. rewrite (F2 e H). repeat split; intros; lia || trivial.
  - destruct (Full dec_real32 StructError) as [F1 F2];
      [intros c _; rewrite Ew; apply dec_real32_cases
      |intros c; apply dec_real32_cases | lia |].
    split; [exact F1|]. intros e H. rewrite (F2 e H). repeat split; intros; lia || trivial.
  - destruct (Full dec_real64 IndexError) as [F1 F2];
      [intros c Lc; rewrite (proj1 (dec_real64_cases c)); lia
      |intros c; apply dec_real64_cases | lia |].
    split; [exact F1|]. intros e H. rewrite (F2 e H). repeat split; intros; lia || trivial.
  - subst w. split.
    + rewrite mapM_dec_char_chunks. rewrite Cnt.
      subst n. change (Z.of_nat 1) with 1. rewrite Z.div_1_r, Nat.mul_1_r.
      split; [intros [A B]; split; [exact A | intros _; exact B]
             | intros [A B]; split; [exact A | apply B; reflexivity]].
    + intros e H. apply mapM_raise in H. apply Exists_exists in H.
      destruct H as (c & _ & Hc). apply dec_char_cases in Hc.
      repeat split; intros; lia || trivial.
Qed.

Lemma extractData_truncated_witness :
  extractData (fst (readStream (open_rb (bytes_of [0; 8; 0x0D; 2; 0; 1; 7])))) =
  Raise StructError.
Proof.
  destruct (extractData_truncated
              (open_rb (bytes_of [0; 8; 0x0D; 2; 0; 1; 7]))
              x00 x08 x0d x02 (bytes_of [0; 1; 7]) 2 eq_refl eq_refl
              ltac:(vm_compute; split; discriminate)) as [_ E].
  destruct (extractData (fst (readStream (open_rb (bytes_of [0; 8; 0x0D; 2; 0; 1; 7])))))
    as [data|e] eqn:X; [discriminate X|].
  destruct (E e eq_refl) as [E4 _]. rewrite (E4 ltac:(vm_compute; discriminate)).
  reflexivity.
Defined.

(** ** The table of record names *)

Lemma name_list_range (k : Z) (n : string) :
  name_list k = Ok n -> 0 <= k <= 0x38.
Proof.
  intros H. destruct k as [|p|p]; [lia | | discriminate H].
  do 6 (destruct p as [p|p|]; try discriminate H; try lia).
Qed.

Lemma name_list_raise (k : Z) (e : exn) :
  name_list k = Raise e -> e = KeyError.
Proof.
  intros H. destruct k as [|p|p]; [discriminate H | | inversion H; reflexivity].
  do 6 (destruct p as [p|p|];
        try discriminate H; try (inversion H; reflexivity)).
Qed.

Lemma Z_range_forallb (P : Z -> bool) (n : nat) :
  forallb P (map Z.of_nat (seq 0 n)) = true ->
  forall k, 0 <= k < Z.of_nat n -> P k = true.
Proof.
  intros H k Hk. rewrite forallb_forall in H. apply H.
  apply in_map_iff. exists (Z.to_nat k). split; [lia|].
  apply in_seq. lia.
Qed.

Lemma name_list_injective (k k' : Z) (n : string) :
  name_list k = Ok n -> name_list k' = Ok n -> k = k'.
Proof.
  intros H H'.
  pose proof (name_list_range k n H) as R.
  pose proof (name_list_range k' n H') as R'.
  pose (same := fun a b : Z =>
          match name_list a, name_list b with
          | Ok x, Ok y => String.eqb x y
          | _, _ => false
          end).
  assert (C : forallb (fun a => forallb (fun b => implb (same a b) (a =? b))
                                  (map Z.of_nat (seq 0 57)))
                (map Z.of_nat (seq 0 57)) = true) by (vm_compute; reflexivity).
  pose proof (Z_range_forallb _ 57 C k ltac:(lia)) as C1. cbv beta in C1.
  pose proof (Z_range_forallb _ 57 C1 k' ltac:(lia)) as C2. cbv beta in C2.
  unfold same in C2. rewrite H, H', String.eqb_refl in C2.
  apply Z.eqb_eq. exact C2.
Qed.

Lemma name_list_missing (k : Z) :
  name_list k = Raise KeyError <->
  k < 0 \/ 0x38 < k \/
  In k [0x14; 0x18; 0x1D; 0x1E; 0x24; 0x25; 0x27; 0x28; 0x29; 0x30; 0x31; 0x34; 0x35].
Proof.
  pose (missing := [0x14; 0x18; 0x1D; 0x1E; 0x24; 0x25; 0x27; 0x28; 0x29;
                    0x30; 0x31; 0x34; 0x35]).
  fold missing.
  destruct (Z.lt_ge_cases k 0) as [N|N].
  { split; [intros _; left; exact N|]. intros _. destruct k; try lia. reflexivity. }
  destruct (Z.lt_ge_cases 0x38 k) as [G|G].
  { split; [intros _; right; left; exact G|]. intros _.
    destruct (name_list k) as [n|e] eqn:E.
    - apply name_list_range in E. lia.
    - apply name_list_raise in E. subst e. reflexivity. }
  assert (C : forallb (fun a => Bool.eqb
                         (match name_list a with Raise _ => true | Ok _ => false end)
                         (existsb (Z.eqb a) missing))
                (map Z.of_nat (seq 0 57)) = true) by (vm_compute; reflexivity).
  pose proof (Z_range_forallb _ 57 C k ltac:(lia)) as C1. cbv beta in C1.
  apply Bool.eqb_prop in C1.
  split.
  - intros H. rewrite H in C1. right. right.
    symmetry in C1. apply existsb_exists in C1. destruct C1 as (x & Hx & E).
    apply Z.eqb_eq in E. subst x. exact Hx.
  - intros [H|[H|H]]; try lia.
    assert (X : existsb (Z.eqb k) missing = true).
    { apply existsb_exists. exists k. split; [exact H | apply Z.eqb_refl]. }
    rewrite X in C1. destruct (name_list k) as [n|e] eqn:E; [discriminate C1|].
    apply name_list_raise in E. subst e. reflexivity.
Qed.

(** X11.  [appendName] knows 44 record types.  It raises, and then
    always [KeyError], exactly on the 13 codes of [0, 0x38] that its
    table leaves out and on every code outside that range, negative
    codes (type bytes from 0x80) included; distinct types have distinct
    names, so a name in the output identifies the record type; and the
    name is ENDLIB for type 4 only. *)
Theorem appendName_table :
  (forall r,
     appendName (Rec r) = Raise KeyError <->
     rec_type r < 0 \/ 0x38 < rec_type r \/
     In (rec_type r)
        [0x14; 0x18; 0x1D; 0x1E; 0x24; 0x25; 0x27; 0x28; 0x29; 0x30; 0x31; 0x34; 0x35]) /\
  (forall r e, appendName (Rec r) = Raise e -> e = KeyError) /\
  (forall r r' n,
     appendName (Rec r) = Ok n -> appendName (Rec r') = Ok n ->
     rec_type r = rec_type r') /\
  (forall r, appendName (Rec r) = Ok "ENDLIB"%string <-> rec_type r = 0x04).
Proof.
  split; [|split; [|split]].
  - intros r. apply name_list_missing.
  - intros r e. apply name_list_raise.
  - intros r r' n. apply name_list_injective.
  - intros r. cbn [appendName]. split.
    + intros H. apply (name_list_injective (rec_type r) 4 "ENDLIB"); [exact H | reflexivity].
    + intros H. rewrite H. reflexivity.
Qed.

(** ** The exceptions that end a run *)

Lemma extract_loop_raise (f : list byte -> result pyvalue)
  (l : list (list byte)) (idx : list nat) (acc : list pyvalue) (e : exn) :
  extract_loop f l idx acc = Raise e ->
  e = IndexError \/ exists c, f c = Raise e.
Proof.
  revert acc. induction idx as [|i idx IH]; intros acc H; [discriminate H|].
  cbn [extract_loop] in H. unfold getitem in H.
  destruct (nth_error l i) as [c|]; cbn [bind] in H.
  - destruct (f c) as [v|e'] eqn:F; cbn [bind] in H.
    + apply (IH _ H).
    + inversion H; subst. right. exists c. exact F.
  - inversion H. left. reflexivity.
Qed.

Lemma extractData_raise (r : record) (e : exn) :
  extractData (Rec r) = Raise e ->
  e = StructError \/ e = IndexError \/ e = UnicodeDecodeError.
Proof.
  unfold extractData.
  repeat match goal with
         | |- context [if ?b then _ else _] => destruct b
         end;
    try discriminate;
    intros H; apply extract_loop_raise in H;
    (destruct H as [H|[c H]]; [right; left; exact H|]).
  - apply dec_int16_cases in H. left. exact H.
  - apply dec_int32_cases in H. left. exact H.
  - apply dec_real32_cases in H. left. exact H.
  - apply dec_real64_cases in H. right. left. exact H.
  - apply dec_char_cases in H. destruct H as [H|H]; [left | right; right]; exact H.
Qed.

Lemma main_loop_uncaught (fuel : nat) (s : stream) (acc : list entry) (e : exn) :
  main_loop fuel s acc = Some (Uncaught e) ->
  exists s' acc', loop_body s' acc' = Exc e.
Proof.
  revert s acc. induction fuel as [|fuel IH]; intros s acc H; [discriminate H|].
  cbn [main_loop] in H.
  destruct (loop_body s acc) as [out|s1 out|e1] eqn:B.
  - discriminate H.
  - apply (IH _ _ H).
  - inversion H; subst. exists s, acc. exact B.
Qed.

Lemma loop_body_exc (s : stream) (acc : list entry) (e : exn) :
  loop_body s acc = Exc e ->
  (e = TypeError /\ fst (readStream s) = Minus1) \/
  (exists r,
     fst (readStream s) = Rec r /\
     ((extractData (Rec r) = Raise e /\
       (e = StructError \/ e = IndexError \/ e = UnicodeDecodeError)) \/
      (e = KeyError /\
       (exists data, extractData (Rec r) = Ok data) /\
       appendName (Rec r) = Raise KeyError))).
Proof.
  unfold loop_body. destruct (readStream s) as [[r|] s']; cbn [fst].
  - intros H. right. exists r. split; [reflexivity|].
    destruct (extractData (Rec r)) as [data|e1] eqn:X.
    + destruct (appendName (Rec r)) as [name|e2] eqn:N.
      * destruct (is_endlib (Rec r)); discriminate H.
      * inversion H; subst. pose proof (name_list_raise _ _ N). subst e.
        right. split; [reflexivity|]. split; [exists data; reflexivity | reflexivity].
    + inversion H; subst. left. split; [reflexivity|].
      apply (extractData_raise r e X).
  - cbn [extractData]. intros H. inversion H. left. split; reflexivity.
Qed.

(** X12.  What can end a run with an exception.  The -1 that
    [readStream] returns for a failed read is never tested: the
    iteration raises [TypeError] exactly when [readStream] returned -1.
    Every other exception comes from a record that was read: from
    [extractData] ([struct.error], [IndexError] or
    [UnicodeDecodeError]), or, when the data decoded, [KeyError] from
    [appendName].  A run of [main] never ends with any other
    exception; the float conversions never raise a division or range
    error. *)
Theorem uncaught_exceptions :
  (forall s acc, loop_body s acc = Exc TypeError <-> fst (readStream s) = Minus1) /\
  (forall s acc e,
     loop_body s acc = Exc e -> e <> TypeError ->
     exists r,
       fst (readStream s) = Rec r /\
       ((extractData (Rec r) = Raise e /\
         (e = StructError \/ e = IndexError \/ e = UnicodeDecodeError)) \/
        (e = KeyError /\
         (exists data, extractData (Rec r) = Ok data) /\
         appendName (Rec r) = Raise KeyError))) /\
  (forall input e,
     main input = Some (Uncaught e) ->
     e = TypeError \/ e = KeyError \/ e = StructError \/
     e = IndexError \/ e = UnicodeDecodeError).
Proof.
  split; [|split].
  - intros s acc. split.
    + intros H. apply loop_body_exc in H.
      destruct H as [[_ H]|(r & _ & [[_ [E|[E|E]]]|[E _]])];
        [exact H | discriminate E ..].
    + intros H. unfold loop_body. destruct (readStream s) as [[r|] s'];
        [discriminate H | reflexivity].
  - intros s acc e H NT. apply loop_body_exc in H.
    destruct H as [[E _]|H]; [contradiction | exact H].
  - intros input e H. apply main_loop_uncaught in H.
    destruct H as (s & acc & H). apply loop_body_exc in H.
    destruct H as [[E _]|(r & _ & [[_ [E|[E|E]]]|[E _]])]; subst e; tauto.
Qed.

(** ** Whole files *)

Lemma main_loop_fuel_mono (fuel fuel' : nat) (s : stream) (acc : list entry)
  (o : outcome) :
  main_loop fuel s acc = Some o -> (fuel <= fuel')%nat ->
  main_loop fuel' s acc = Some o.
Proof.
  revert fuel' s acc. induction fuel as [|fuel IH]; intros fuel' s acc H L;
    [discriminate H|].
  destruct fuel' as [|fuel']; [lia|]. cbn [main_loop] in *.
  destruct (loop_body s acc) as [out|s1 out|e]; try exact H.
  apply IH; [exact H | lia].
Qed.

(** Any bound above the number of bytes ahead gives the same run. *)
Lemma main_loop_enough (fuel : nat) (s : stream) (acc : list entry) :
  (length (remaining s) < fuel)%nat ->
  main_loop fuel s acc = main_loop (S (length (remaining s))) s acc.
Proof.
  intros L.
  destruct (main_loop_total (S (length (remaining s))) s acc ltac:(lia)) as [o H].
  rewrite H. apply (main_loop_fuel_mono _ _ _ _ _ H). lia.
Qed.

Lemma loop_body_entry (s s' : stream) (r : record) (acc : list entry) :
  readStream s = (Rec r, s') ->
  loop_body s acc =
  match entry_of r with
  | Raise e => Exc e
  | Ok en => if rec_type r =? 0x04
             then Break (acc ++ [en]) else Continue s' (acc ++ [en])
  end.
Proof.
  intros R. unfold loop_body, entry_of. rewrite R.
  destruct (extractData (Rec r)) as [data|e]; cbn [bind]; [|reflexivity].
  destruct (appendName (Rec r)) as [name|e]; cbn [bind]; reflexivity.
Qed.

Lemma elem_width_ok (dt : Z) (w : nat) : dat_size dt = Ok w -> elem_width dt = w.
Proof. intros H. unfold elem_width. rewrite H. reflexivity. Qed.

(** Reading the bytes of a well-framed record gives its record and
    leaves the file just after it. *)
Lemma readStream_encode (s : stream) (f : raw_record) (rest : list byte) :
  well_framed f ->
  remaining s = encode f ++ rest ->
  exists s', readStream s = (Rec (record_of f), s') /\ remaining s' = rest.
Proof.
  intros ([w W] & M & B) R. rewrite (elem_width_ok _ _ W) in M.
  destruct (readStream_frame s (raw_type f) (raw_tag f) (raw_payload f) rest w R W M B)
    as [E1 E2].
  eexists. split; [|exact E2]. rewrite E1. unfold record_of.
  rewrite (elem_width_ok _ _ W). reflexivity.
Qed.

Lemma record_of_valid (f : raw_record) :
  well_framed f -> valid_record (record_of f).
Proof.
  intros ([w W] & M & _). unfold record_of. rewrite (elem_width_ok _ _ W) in *.
  apply (frame_valid (raw_type f) (raw_tag f) (raw_payload f) w W M).
Qed.

Lemma type_byte_endlib (b : byte) :
  sign_extend 8 (be_unsigned [b]) = 0x04 <-> b = x04.
Proof.
  split.
  - intros H. change (be_unsigned [b]) with (0 * 256 + bz b) in H.
    rewrite Z.mul_0_l, Z.add_0_l in H. unfold sign_extend in H.
    pose proof (bz_range b) as R. change (2 ^ (8 - 1)) with 128 in H.
    change (2 ^ 8) with 256 in H.
    assert (E : bz b = 4) by (destruct (bz b <? 128); lia).
    rewrite <- (byte_of_Z_bz b), E. reflexivity.
  - intros ->. reflexivity.
Qed.

Lemma mapM_app {A B} (f : A -> result B) (l1 l2 : list A) :
  mapM f (l1 ++ l2) =
  (a <- mapM f l1 ;; b <- mapM f l2 ;; Ok (a ++ b)).
Proof.
  induction l1 as [|x l1 IH]; cbn [app mapM bind].
  - destruct (mapM f l2); reflexivity.
  - destruct (f x) as [y|e]; cbn [bind]; [|reflexivity].
    rewrite IH. destruct (mapM f l1) as [a|e]; cbn [bind]; [|reflexivity].
    destruct (mapM f l2) as [b|e]; reflexivity.
Qed.

(** The loop over a run of well-framed records that are not ENDLIB: it
    appends their entries in order and goes on with the bytes after
    them, or stops at the first record whose entry raises. *)
Lemma main_loop_frames (fs : list raw_record) :
  Forall well_framed fs ->
  Forall (fun f => raw_type f <> x04) fs ->
  forall (s : stream) (acc : list entry) (rest : list byte),
    remaining s = concat (map encode fs) ++ rest ->
    main_loop (S (length (remaining s))) s acc =
    match mapM (fun f => entry_of (record_of f)) fs with
    | Ok es => main_loop (S (length rest)) (open_rb rest) (acc ++ es)
    | Raise e => Some (Uncaught e)
    end.
Proof.
  induction fs as [|f fs IH]; intros WF NE s acc rest R.
  - cbn [map concat app mapM] in *. rewrite app_nil_r, R.
    apply main_loop_remaining. rewrite R. reflexivity.
  - inversion WF as [|? ? Wf WF']; subst. inversion NE as [|? ? Nf NE']; subst.
    cbn [map concat] in R. rewrite <- app_assoc in R.
    destruct (readStream_encode s f _ Wf R) as (s1 & R1 & Rm).
    pose proof (readStream_consumes s s1 _ R1) as Cs.
    cbn [main_loop mapM]. rewrite (loop_body_entry s s1 _ acc R1).
    destruct (entry_of (record_of f)) as [en|e]; cbn [bind]; [|reflexivity].
    assert (T : (rec_type (record_of f) =? 4) = false).
    { apply Z.eqb_neq. intros C. apply Nf. apply type_byte_endlib. exact C. }
    rewrite T.
    rewrite main_loop_enough by lia.
    rewrite (IH WF' NE' s1 (acc ++ [en]) rest Rm).
    destruct (mapM (fun f => entry_of (record_of f)) fs) as [es|e]; cbn [bind];
      [|reflexivity].
    rewrite <- app_assoc. reflexivity.
Qed.

(** X13.  On a file made of well-framed records, the first ENDLIB
    record being [last], the run of [main] is the in-order map of the
    records to their entries, up to and including ENDLIB: it ends with
    [break] and the list of all the entries when every record decodes
    and has a known type, and otherwise with the exception of the first
    record that does not; whatever follows the ENDLIB record is never
    read.  Every such record is a valid record in the sense of the
    format. *)
Theorem main_well_framed
  (fs : list raw_record) (last : raw_record) (trailing : list byte) :
  Forall well_framed fs ->
  well_framed last ->
  Forall (fun f => raw_type f <> x04) fs ->
  raw_type last = x04 ->
  main (concat (map encode fs) ++ encode last ++ trailing) =
    Some (outcome_of (mapM (fun f => entry_of (record_of f)) (fs ++ [last]))) /\
  Forall (fun f => valid_record (record_of f)) (fs ++ [last]).
Proof.
  intros WF WL NE EL. split.
  - unfold main.
    pose proof (main_loop_frames fs WF NE
                  (open_rb (concat (map encode fs) ++ encode last ++ trailing)) []
                  (encode last ++ trailing) eq_refl) as H.
    change (remaining (open_rb (concat (map encode fs) ++ encode last ++ trailing)))
      with (concat (map encode fs) ++ encode last ++ trailing) in H.
    rewrite H. rewrite mapM_app.
    destruct (mapM (fun f => entry_of (record_of f)) fs) as [es|e]; cbn [bind];
      [|reflexivity].
    destruct (readStream_encode (open_rb (encode last ++ trailing)) last trailing WL eq_refl)
      as (s1 & R1 & _).
    cbn [main_loop mapM app]. rewrite (loop_body_entry _ s1 _ _ R1).
    destruct (entry_of (record_of last)) as [en|e]; cbn [bind outcome_of];
      [|reflexivity].
    assert (T : (rec_type (record_of last) =? 4) = true).
    { apply Z.eqb_eq. apply type_byte_endlib. exact EL. }
    rewrite T. reflexivity.
  - apply Forall_app. split.
    + eapply Forall_impl; [|exact WF]. apply record_of_valid.
    + constructor; [apply record_of_valid; exact WL | constructor].
Qed.

Lemma main_well_framed_witness :
  main (bytes_of [0; 6; 0x0D; 2; 0; 5; 0; 4; 4; 0; 0xFF]) =
  Some (Done [("LAYER"%string, [PInt 5]); ("ENDLIB"%string, [])]).
Proof.
  apply (main_well_framed [mkRaw x0d x02 (bytes_of [0; 5])] (mkRaw x04 x00 [])
           (bytes_of [0xFF])).
  - repeat constructor. exists 2%nat. reflexivity.
  - repeat constructor. exists 1%nat. reflexivity.
  - repeat constructor. discriminate.
  - reflexivity.
Defined.

(** X14.  A file of well-framed records without an ENDLIB record,
    followed by fewer than four bytes (none, in particular: this
    includes the empty file), never ends normally: when all the records
    decode, the read past the last one returns -1 and the run ends with
    [TypeError]; otherwise it ends with the exception of the first
    record that fails. *)
Theorem main_missing_endlib (fs : list raw_record) (tail : list byte) :
  Forall well_framed fs ->
  Forall (fun f => raw_type f <> x04) fs ->
  (length tail < 4)%nat ->
  main (concat (map encode fs) ++ tail) =
  Some (Uncaught
          match mapM (fun f => entry_of (record_of f)) fs with
          | Ok _ => TypeError
          | Raise e => e
          end).
Proof.
  intros WF NE L. unfold main.
  pose proof (main_loop_frames fs WF NE
                (open_rb (concat (map encode fs) ++ tail)) [] tail eq_refl) as H.
  change (remaining (open_rb (concat (map encode fs) ++ tail)))
    with (concat (map encode fs) ++ tail) in H.
  rewrite H.
  destruct (mapM (fun f => entry_of (record_of f)) fs) as [es|e]; [|reflexivity].
  cbn [main_loop]. unfold loop_body.
  pose proof (readStream_short (open_rb tail) L) as S.
  destruct (readStream (open_rb tail)) as [rcd s']. cbn [fst] in S. subst rcd.
  reflexivity.
Qed.

Lemma main_missing_endlib_witness :
  main (bytes_of [0; 6; 0x0D; 2; 0; 5; 0; 4]) = Some (Uncaught TypeError) /\
  main [] = Some (Uncaught TypeError).
Proof.
  split.
  - apply (main_missing_endlib [mkRaw x0d x02 (bytes_of [0; 5])] (bytes_of [0; 4])).
    + repeat constructor. exists 2%nat. reflexivity.
    + repeat constructor. discriminate.
    + simpl. lia.
  - apply (main_missing_endlib [] []).
    + constructor.
    + constructor.
    + simpl. lia.
Defined.

(** ** Bytes after the end of the library *)

Lemma chunks_of_app_le (n w : nat) (r extra : list byte) :
  (n * w <= length r)%nat ->
  chunks_of n w (r ++ extra) = chunks_of n w r.
Proof.
  revert r. induction n as [|n IH]; intros r H; cbn [chunks_of]; [reflexivity|].
  simpl in H.
  rewrite firstn_app, skipn_app.
  replace (w - length r)%nat with 0%nat by lia.
  cbn [firstn skipn]. rewrite app_nil_r. f_equal.
  apply IH. rewrite length_skipn. lia.
Qed.

(** Elements that decode are whole: for the data types that are decoded,
    the chunks cut out of [rest] decode only if [rest] holds them all. *)
Lemma decode_chunks_whole (dt : Z) (w n : nat) (rest : list byte) :
  dat_size dt = Ok w ->
  2 <= dt ->
  (exists data, decode_chunks dt (chunks_of n w rest) = Ok data) ->
  (n * w <= length rest)%nat.
Proof.
  intros W T. pose proof (dat_size_pos _ _ W) as Wp.
  unfold decode_chunks, element_decoder.
  destruct (dat_size_cases _ _ W) as [[D Ew]|[[D Ew]|[[D Ew]|[[D Ew]|[[D Ew]|[[D Ew]|[D Ew]]]]]]];
    try lia; rewrite D; cbn [Z.eqb Pos.eqb]; intros H.
  - apply (mapM_chunks_of dec_int16 w n rest Wp); [|exact H].
    intros c _. rewrite Ew. apply dec_int16_cases.
  - apply (mapM_chunks_of dec_int32 w n rest Wp); [|exact H].
    intros c _. rewrite Ew. apply dec_int32_cases.
  - apply (mapM_chunks_of dec_real32 w n rest Wp); [|exact H].
    intros c _. rewrite Ew. apply dec_real32_cases.
  - apply (mapM_chunks_of dec_real64 w n rest Wp); [|exact H].
    intros c Lc. rewrite (proj1 (dec_real64_cases c)). lia.
  - subst w. apply mapM_dec_char_chunks in H. lia.
Qed.

Lemma loop_body_short (s : stream) (acc : list entry) :
  (length (remaining s) < 4)%nat -> loop_body s acc = Exc TypeError.
Proof.
  intros L. unfold loop_body. pose proof (readStream_short s L) as S.
  destruct (readStream s) as [rcd s']. cbn [fst] in S. subst rcd. reflexivity.
Qed.

Lemma main_loop_short (fuel : nat) (s : stream) (acc out : list entry) :
  (length (remaining s) < 4)%nat -> main_loop fuel s acc <> Some (Done out).
Proof.
  intros L H. destruct fuel as [|fuel]; [discriminate H|].
  cbn [main_loop] in H. rewrite (loop_body_short s acc L) in H. discriminate H.
Qed.

(** A run that ends with [break] goes the same way when bytes are added
    at the end of the file. *)
Lemma main_loop_extend (extra : list byte) (fuel : nat) :
  forall (s1 s2 : stream) (acc out : list entry),
    remaining s2 = remaining s1 ++ extra ->
    main_loop fuel s1 acc = Some (Done out) ->
    main_loop fuel s2 acc = Some (Done out).
Proof.
  induction fuel as [|fuel IH]; intros s1 s2 acc out E H; [discriminate H|].
  destruct (remaining s1) as [|b0 [|b1 [|t [|d rest]]]] eqn:R1;
    try (exfalso; apply (main_loop_short (S fuel) s1 acc out);
         [rewrite R1; simpl; lia | exact H]).
  cbn [app] in E. cbn [main_loop] in *.
  pose proof (readStream_header s1 b0 b1 t d rest R1) as H1.
  pose proof (readStream_header s2 b0 b1 t d (rest ++ extra) E) as H2.
  unfold header_fields in H1, H2.
  destruct (dat_size (sign_extend 8 (be_unsigned [d]))) as [w|e] eqn:W.
  2:{ exfalso. unfold loop_body in H. rewrite H1 in H. discriminate H. }
  cbv zeta in H1, H2.
  set (len := sign_extend 16 (be_unsigned [b0; b1])) in *.
  set (rt := sign_extend 8 (be_unsigned [t])) in *.
  set (dt := sign_extend 8 (be_unsigned [d])) in *.
  set (n := Z.to_nat ((len - 4) / Z.of_nat w)) in *.
  rewrite (loop_body_entry _ _ _ acc H1) in H.
  rewrite (loop_body_entry _ _ _ acc H2).
  cbn [rec_type] in *.
  destruct (Nat.le_gt_cases (n * w) (length rest)) as [C|C].
  - rewrite (chunks_of_app_le n w rest extra C).
    destruct (entry_of _) as [en|e]; [|discriminate H].
    destruct (rt =? 4); [exact H|].
    refine (IH _ _ _ _ _ H).
    rewrite <- !Nat.add_assoc, !remaining_advance, R1, E. cbn [Nat.add skipn].
    rewrite !skipn_min, skipn_app.
    replace (n * w - length rest)%nat with 0%nat by lia. reflexivity.
  - assert (D01 : dt = 0 \/ dt = 1).
    { destruct (Z.lt_ge_cases dt 2) as [Lt|Ge].
      - apply dat_size_cases in W. lia.
      - exfalso.
        destruct (entry_of _) as [en|e] eqn:En in H; [|discriminate H].
        unfold entry_of in En.
        destruct (extractData _) as [data|e] eqn:X in En; [|discriminate En].
        rewrite (extractData_chunks _ w) in X
          by (try exact W; apply length_chunks_of).
        cbn [dat_type rec_data] in X.
        pose proof (decode_chunks_whole dt w n rest W Ge (ex_intro _ data X)). lia. }
    assert (En : forall chunks,
               entry_of (mkRecord len rt dt chunks) =
               (name <- name_list rt ;; Ok (name, []))).
    { intros chunks. unfold entry_of, extractData. cbn [dat_type appendName rec_type].
      destruct D01 as [D|D]; rewrite D; reflexivity. }
    rewrite En in *.
    destruct (name_list rt) as [name|e]; cbn [bind] in *; [|discriminate H].
    destruct (rt =? 4); [exact H|].
    exfalso. refine (main_loop_short fuel _ _ out _ H).
    rewrite <- Nat.add_assoc, remaining_advance, R1. cbn [Nat.add skipn].
    rewrite skipn_min, length_skipn. lia.
Qed.

(** X15.  The output is fixed by the bytes up to the end of the first
    ENDLIB record that the loop reaches: when a run over [input] ends
    normally, the run over [input] followed by any further bytes ends
    normally with the same output. *)
Theorem main_ignores_trailing (input extra : list byte) (out : list entry) :
  main input = Some (Done out) ->
  main (input ++ extra) = Some (Done out).
Proof.
  intros H. unfold main in *.
  apply (main_loop_fuel_mono (S (length input))); [|rewrite length_app; lia].
  apply (main_loop_extend extra _ (open_rb input)); [reflexivity | exact H].
Qed.

Lemma main_ignores_trailing_witness :
  main (bytes_of [0; 6; 0x0D; 2; 0; 5; 0; 4; 4; 0] ++ bytes_of [1; 2; 3]) =
  Some (Done [("LAYER"%string, [PInt 5]); ("ENDLIB"%string, [])]).
Proof.
  apply (main_ignores_trailing (bytes_of [0; 6; 0x0D; 2; 0; 5; 0; 4; 4; 0])
           (bytes_of [1; 2; 3])).
  reflexivity.
Defined.

(** ** The shape of the output *)

Lemma loop_body_continue_inv (s s' : stream) (acc acc' : list entry) :
  loop_body s acc = Continue s' acc' ->
  exists r name data,
    readStream s = (Rec r, s') /\
    extractData (Rec r) = Ok data /\
    appendName (Rec r) = Ok name /\
    rec_type r <> 0x04 /\
    acc' = acc ++ [(name, data)].
Proof.
  unfold loop_body. destruct (readStream s) as [[r|] s1]; [|discriminate].
  destruct (extractData (Rec r)) as [data|e] eqn:X; [|discriminate].
  destruct (appendName (Rec r)) as [name|e] eqn:N; [|discriminate].
  cbn [is_endlib]. destruct (Z.eqb_spec (rec_type r) 4) as [T|T]; [discriminate|].
  intros H. inversion H; subst.
  exists r, name, data. repeat split; assumption.
Qed.

Lemma main_loop_done (fuel : nat) :
  forall (s : stream) (acc out : list entry),
    main_loop fuel s acc = Some (Done out) ->
    exists es data,
      out = acc ++ es ++ [("ENDLIB"%string, data)] /\
      Forall (fun en => fst en <> "ENDLIB"%string) es /\
      (4 * (length es + 1) <= length (remaining s))%nat.
Proof.
  induction fuel as [|fuel IH]; intros s acc out H; [discriminate H|].
  cbn [main_loop] in H.
  destruct (loop_body s acc) as [out'|s1 acc1|e] eqn:B; [| |discriminate H].
  - inversion H; subst out'. apply loop_body_break in B.
    destruct B as (r & s' & data & R & _ & _ & O).
    exists [], data. split; [exact O|]. split; [constructor|].
    pose proof (readStream_consumes s s' r R). simpl. lia.
  - apply loop_body_continue_inv in B.
    destruct B as (r & name & data & R & _ & N & T & A).
    destruct (IH s1 acc1 out H) as (es & data' & O & F & L).
    exists ((name, data) :: es), data'. split; [|split].
    + rewrite O, A, <- app_assoc. reflexivity.
    + constructor; [|exact F]. cbn [fst]. intros C. apply T.
      rewrite C in N.
      apply (name_list_injective (rec_type r) 4 "ENDLIB"); [exact N | reflexivity].
    + pose proof (readStream_consumes s s1 r R). simpl length. lia.
Qed.

(** X16.  When a run ends normally the output is never empty: its last
    entry is the ENDLIB entry and no entry before it is named ENDLIB, so
    decoding stops at the first ENDLIB record; and every entry stands
    for at least four bytes of the input. *)
Theorem main_output_shape (input : list byte) (out : list entry) :
  main input = Some (Done out) ->
  exists es data,
    out = es ++ [("ENDLIB"%string, data)] /\
    Forall (fun en => fst en <> "ENDLIB"%string) es /\
    (4 * length out <= length input)%nat.
Proof.
  intros H. unfold main in H. apply main_loop_done in H.
  destruct H as (es & data & O & F & L).
  exists es, data. split; [exact O|]. split; [exact F|].
  rewrite O. cbn [app]. rewrite length_app. simpl length.
  change (remaining (open_rb input)) with input in L. lia.
Qed.

Lemma main_output_shape_witness :
  exists es data,
    [("LAYER"%string, [PInt 5]); ("ENDLIB"%string, [])] =
      es ++ [("ENDLIB"%string, data)] /\
    Forall (fun en : entry => fst en <> "ENDLIB"%string) es.
Proof.
  destruct (main_output_shape (bytes_of [0; 6; 0x0D; 2; 0; 5; 0; 4; 4; 0])
              [("LAYER"%string, [PInt 5]); ("ENDLIB"%string, [])] eq_refl)
    as (es & data & O & F & _).
  exists es, data. split; [exact O | exact F].
Defined.

(** ** Integers and text decode without loss *)

Lemma bz_inj (a b : byte) : bz a = bz b -> a = b.
Proof.
  intros H. rewrite <- (byte_of_Z_bz a), <- (byte_of_Z_bz b), H. reflexivity.
Qed.

Lemma be_unsigned_inj (l1 l2 : list byte) :
  length l1 = length l2 -> be_unsigned l1 = be_unsigned l2 -> l1 = l2.
Proof.
  revert l2. induction l1 as [|a l1 IH]; intros [|b l2] L H;
    try discriminate L; [reflexivity|].
  injection L as L. rewrite !be_unsigned_cons, <- L in H.
  pose proof (be_unsigned_range l1) as R1.
  pose proof (be_unsigned_range l2) as R2. rewrite <- L in R2.
  pose proof (bz_range a) as Ra. pose proof (bz_range b) as Rb.
  assert (P : 0 < 256 ^ Z.of_nat (length l1)) by (apply Z.pow_pos_nonneg; lia).
  assert (E : bz a = bz b) by nia.
  f_equal; [apply bz_inj; exact E|].
  apply IH; [exact L|]. rewrite E in H. lia.
Qed.

Lemma unpack_int_inj (size : nat) (c1 c2 : list byte) (n : Z) :
  (0 < size)%nat ->
  unpack_int size c1 = Ok n -> unpack_int size c2 = Ok n -> c1 = c2.
Proof.
  unfold unpack_int. intros S0 H1 H2.
  destruct (Nat.eqb_spec (length c1) size) as [L1|]; [|discriminate H1].
  destruct (Nat.eqb_spec (length c2) size) as [L2|]; [|discriminate H2].
  assert (E1 : sign_extend (8 * Z.of_nat size) (be_unsigned c1) = n) by congruence.
  assert (E2 : sign_extend (8 * Z.of_nat size) (be_unsigned c2) = n) by congruence.
  apply be_unsigned_inj; [congruence|].
  assert (R : forall c, length c = size ->
                        0 <= be_unsigned c < 2 ^ (8 * Z.of_nat size)).
  { intros c Lc. apply be_unsigned_lt. lia. }
  rewrite <- (sign_extend_mod (8 * Z.of_nat size) (be_unsigned c1)) by (try lia; auto).
  rewrite <- (sign_extend_mod (8 * Z.of_nat size) (be_unsigned c2)) by (try lia; auto).
  rewrite E1, E2. reflexivity.
Qed.

Lemma dec_char_inj (c1 c2 : list byte) (v : pyvalue) :
  dec_char c1 = Ok v -> dec_char c2 = Ok v -> c1 = c2.
Proof.
  intros H1 H2.
  destruct (proj1 (proj1 (dec_char_cases c1)) (ex_intro _ v H1)) as (b1 & -> & L1).
  destruct (proj1 (proj1 (dec_char_cases c2)) (ex_intro _ v H2)) as (b2 & -> & L2).
  unfold dec_char, unpack_c in H1, H2. cbn [length Nat.eqb bind decode_utf8] in H1, H2.
  apply Z.ltb_lt in L1, L2. rewrite L1 in H1. rewrite L2 in H2.
  cbn [bind] in H1, H2. rewrite <- H2 in H1. inversion H1 as [E].
  unfold ascii_of_byte in E.
  rewrite <- (Ascii.byte_of_ascii_of_byte b1), E, Ascii.byte_of_ascii_of_byte.
  reflexivity.
Qed.

Lemma mapM_inj {A B} (f : A -> result B) (l1 l2 : list A) (bs : list B) :
  (forall a1 a2 b, f a1 = Ok b -> f a2 = Ok b -> a1 = a2) ->
  mapM f l1 = Ok bs -> mapM f l2 = Ok bs -> l1 = l2.
Proof.
  intros Inj. revert l2 bs.
  induction l1 as [|a1 l1 IH]; intros [|a2 l2] bs H1 H2; cbn [mapM] in *.
  - reflexivity.
  - inversion H1; subst.
    destruct (f a2); cbn [bind] in H2; [|discriminate H2].
    destruct (mapM f l2); discriminate H2.
  - inversion H2; subst.
    destruct (f a1); cbn [bind] in H1; [|discriminate H1].
    destruct (mapM f l1); discriminate H1.
  - destruct (f a1) as [b1|] eqn:F1; cbn [bind] in H1; [|discriminate H1].
    destruct (mapM f l1) as [bs1|] eqn:M1; cbn [bind] in H1; [|discriminate H1].
    destruct (f a2) as [b2|] eqn:F2; cbn [bind] in H2; [|discriminate H2].
    destruct (mapM f l2) as [bs2|] eqn:M2; cbn [bind] in H2; [|discriminate H2].
    assert (E : b1 :: bs1 = b2 :: bs2) by congruence.
    injection E as Eb Ebs. subst b2 bs2.
    f_equal; [apply (Inj a1 a2 b1); assumption|].
    apply (IH l2 bs1); [reflexivity | assumption].
Qed.

Lemma dec_int16_inj (c1 c2 : list byte) (v : pyvalue) :
  dec_int16 c1 = Ok v -> dec_int16 c2 = Ok v -> c1 = c2.
Proof.
  unfold dec_int16, unpack_h. intros H1 H2.
  destruct (unpack_int 2 c1) as [n1|] eqn:U1; [|discriminate H1].
  destruct (unpack_int 2 c2) as [n2|] eqn:U2; [|discriminate H2].
  cbn [bind] in H1, H2. rewrite <- H2 in H1. inversion H1; subst.
  apply (unpack_int_inj 2 c1 c2 n2); [lia | assumption | assumption].
Qed.

Lemma dec_int32_inj (c1 c2 : list byte) (v : pyvalue) :
  dec_int32 c1 = Ok v -> dec_int32 c2 = Ok v -> c1 = c2.
Proof.
  unfold dec_int32, unpack_l. intros H1 H2.
  destruct (unpack_int 4 c1) as [n1|] eqn:U1; [|discriminate H1].
  destruct (unpack_int 4 c2) as [n2|] eqn:U2; [|discriminate H2].
  cbn [bind] in H1, H2. rewrite <- H2 in H1. inversion H1; subst.
  apply (unpack_int_inj 4 c1 c2 n2); [lia | assumption | assumption].
Qed.

(** X17.  Integers and text are decoded without loss: two valid records
    of the same data type, 2 (two-byte integers), 3 (four-byte integers)
    or 6 (ASCII), that [extractData] maps to the same list hold the same
    bytes and have the same length.  (Reals do not have this property:
    different eight-byte encodings convert to the same float.) *)
Theorem extractData_lossless (r1 r2 : record) (data : list pyvalue) :
  valid_record r1 ->
  valid_record r2 ->
  dat_type r1 = dat_type r2 ->
  dat_type r1 = 2 \/ dat_type r1 = 3 \/ dat_type r1 = 6 ->
  extractData (Rec r1) = Ok data ->
  extractData (Rec r2) = Ok data ->
  rec_data r1 = rec_data r2 /\ rec_size r1 = rec_size r2.
Proof.
  intros V1 V2 T T1 X1 X2.
  assert (D : rec_data r1 = rec_data r2).
  { pose proof V1 as (w1 & W1 & _ & _ & N1 & _).
    pose proof V2 as (w2 & W2 & _ & _ & N2 & _).
    rewrite (extractData_chunks r1 w1 W1) in X1 by lia.
    rewrite (extractData_chunks r2 w2 W2) in X2 by lia.
    rewrite <- T in X2. unfold decode_chunks, element_decoder in X1, X2.
    destruct T1 as [E|[E|E]]; rewrite E in X1, X2; cbn [Z.eqb Pos.eqb] in X1, X2.
    - apply (mapM_inj dec_int16 _ _ data dec_int16_inj X1 X2).
    - apply (mapM_inj dec_int32 _ _ data dec_int32_inj X1 X2).
    - apply (mapM_inj dec_char _ _ data dec_char_inj X1 X2). }
  split; [exact D|].
  destruct V1 as (w1 & W1 & S1 & M1 & N1 & _).
  destruct V2 as (w2 & W2 & S2 & M2 & N2 & _).
  rewrite <- T, W1 in W2. inversion W2; subst w2.
  pose proof (dat_size_pos _ _ W1) as Wp.
  rewrite D in N1. rewrite N1 in N2.
  pose proof (Z.div_mod (rec_size r1 - 4) (Z.of_nat w1) ltac:(lia)) as E1.
  pose proof (Z.div_mod (rec_size r2 - 4) (Z.of_nat w1) ltac:(lia)) as E2.
  rewrite M1 in E1. rewrite M2 in E2. rewrite N2 in E1. lia.
Qed.

Lemma extractData_lossless_witness :
  rec_data (mkRecord 6 0x0D 2 [bytes_of [0; 5]]) =
  rec_data (mkRecord 6 0x0E 2 [bytes_of [0; 5]]).
Proof.
  apply (extractData_lossless (mkRecord 6 0x0D 2 [bytes_of [0; 5]])
           (mkRecord 6 0x0E 2 [bytes_of [0; 5]]) [PInt 5]).
  - exists 2%nat. cbn [dat_type rec_size rec_data].
    repeat split; try reflexivity; try lia. repeat constructor.
  - exists 2%nat. cbn [dat_type rec_size rec_data].
    repeat split; try reflexivity; try lia. repeat constructor.
  - reflexivity.
  - left. reflexivity.
  - reflexivity.
  - reflexivity.
Defined.

(** ** Exact conversions *)

Lemma small_multiple_zero (a p : Z) :
  0 < p -> a mod p = 0 -> Z.abs a < p -> a = 0.
Proof.
  intros P M B. apply Z.mod_divide in M; [|lia]. destruct M as [c M].
  subst a. assert (c = 0) by nia. subst c. reflexivity.
Qed.

Lemma signed_dyadic_eq (s : bool) (m q e k : Z) :
  0 <= k ->
  (Qeq (inject_Z (cond_Zopp s m) * Qpower (2 # 1) (e + k))
       (inject_Z (cond_Zopp s q) * Qpower (2 # 1) e)
   <-> m * 2 ^ k = q).
Proof.
  intros K. split.
  - intros H. apply cond_Zopp_Q_inj in H.
    apply (dyadic_eq_scale m q (e + k) e ltac:(lia)) in H.
    replace (e + k - e) with k in H by lia. symmetry. exact H.
  - intros <-. rewrite cond_Zopp_mul, inject_Z_mult, Q2pow_split by exact K. ring.
Qed.

Lemma signed_dyadic_exact (s : bool) (m q e k : Z) :
  k <= 0 -> m = q * 2 ^ (- k) ->
  Qeq (inject_Z (cond_Zopp s m) * Qpower (2 # 1) (e + k))
      (inject_Z (cond_Zopp s q) * Qpower (2 # 1) e).
Proof.
  intros K ->. symmetry.
  replace e with (e + k + - k) at 1 by lia.
  rewrite cond_Zopp_mul, inject_Z_mult, Q2pow_split by lia. ring.
Qed.

(** X18.  The conversion is exact whenever the value can be a binary64
    number at all: the float equals the value the eight bytes denote
    exactly when the 56-bit fraction, from its leading one bit on, fits
    in 53 bits, that is when the bits below the 53rd are zero. *)
Theorem ibm370_exact_iff (b0 : byte) (rest : list byte) :
  length rest = 7%nat ->
  exists x,
    ibm370_to_ieee754 (b0 :: rest) = Ok x /\
    (Qeq (SF2Q x) (exact_value b0 rest) <->
     be_unsigned rest mod 2 ^ Z.max 0 (Zdigits2 (be_unsigned rest) - 53) = 0).
Proof.
  intros L. rewrite (ibm370_result b0 rest L). eexists. split; [reflexivity|].
  rewrite (exact_value_eq b0 rest L).
  pose proof (be_unsigned_lt rest 7 ltac:(lia)) as R.
  change (2 ^ (8 * Z.of_nat 7)) with (2 ^ 56) in R.
  pose proof (ibm370_exponent2_range b0) as E.
  set (sg := Z.testbit (bz b0) 7).
  set (e := ibm370_exponent2 b0 - 56).
  destruct (be_unsigned rest) as [|q|q] eqn:N; [| |lia].
  - replace (cond_Zopp sg 0) with 0 by (destruct sg; reflexivity).
    rewrite f64_normalize_zero. cbn [SF2Q Zdigits2]. split; [reflexivity|].
    intros _. rewrite Qmult_0_l. reflexivity.
  - rewrite f64_normalize_pos.
    destruct (binary_round_normal q) as (m & k & D & K & V & F & Er).
    pose proof (Zdigits2_le_56 (Zpos q) ltac:(lia)) as Dq. cbn [Zdigits2] in Dq |- *.
    rewrite (F sg e) by (subst e; lia). cbn [SF2Q].
    destruct (Z.le_gt_cases (Zpos (digits2_pos q)) 53) as [C|C].
    + rewrite Z.max_l by lia. change (2 ^ 0) with 1. rewrite Z.mod_1_r.
      split; [reflexivity|]. intros _.
      apply signed_dyadic_exact; [lia|].
      replace (- k) with (53 - Zpos (digits2_pos q)) by lia. apply V. exact C.
    + rewrite Z.max_r by lia.
      set (d := Zpos (digits2_pos q)) in *.
      assert (K0 : 0 <= k) by lia.
      assert (P : 0 < 2 ^ (d - 53)) by (apply Z.pow_pos_nonneg; lia).
      assert (M : (Zpos m * 2 ^ k) mod 2 ^ (d - 53) = 0).
      { replace k with ((k - (d - 53)) + (d - 53)) by lia.
        rewrite Z.pow_add_r by lia. rewrite Z.mul_assoc. apply Z.mod_mul. lia. }
      rewrite (signed_dyadic_eq sg (Zpos m) (Zpos q) e k K0).
      split.
      * intros H. rewrite <- H. exact M.
      * intros H. specialize (Er C).
        assert (Z0 : Zpos m * 2 ^ k - Zpos q = 0).
        { apply (small_multiple_zero _ (2 ^ (d - 53)) P).
          - rewrite Zminus_mod, M, H. reflexivity.
          - lia. }
        lia.
Qed.

Lemma ibm370_exact_iff_witness :
  exists x,
    ibm370_to_ieee754 (bytes_of [0x41; 0x80; 0; 0; 0; 0; 0; 0x08]) = Ok x /\
    Qeq (SF2Q x) (exact_value x41 (bytes_of [0x80; 0; 0; 0; 0; 0; 0x08])).
Proof.
  destruct (ibm370_exact_iff x41 (bytes_of [0x80; 0; 0; 0; 0; 0; 0x08]) eq_refl)
    as (x & Hx & E).
  exists x. split; [exact Hx|]. apply E. reflexivity.
Defined.

(** ** Rounding to nearest *)

Lemma valid_binary_digits (s : bool) (M : positive) (j : Z) :
  valid_binary 53 1024 (S754_finite s M j) = true -> Zpos M < 2 ^ 53.
Proof.
  cbn [valid_binary]. unfold bounded, canonical_mantissa. rewrite fexp_eq.
  intros H. apply andb_true_iff in H. destruct H as [H _].
  apply Z.eqb_eq in H.
  pose proof (digits2_pos_bounds M) as [_ B].
  assert (L : Zpos (digits2_pos M) <= 53) by lia.
  assert (2 ^ Zpos (digits2_pos M) <= 2 ^ 53) by (apply Z.pow_le_mono_r; lia).
  lia.
Qed.

(** Integers at a common scale compare as the dyadic numbers do. *)
Lemma Qabs_dyadic_le (A V B E0 : Z) :
  Z.abs (A - V) <= Z.abs (B - V) ->
  Qle (Qabs (inject_Z A * Qpower (2 # 1) E0 - inject_Z V * Qpower (2 # 1) E0))
      (Qabs (inject_Z B * Qpower (2 # 1) E0 - inject_Z V * Qpower (2 # 1) E0)).
Proof.
  intros H.
  setoid_replace (inject_Z A * Qpower (2 # 1) E0 - inject_Z V * Qpower (2 # 1) E0)%Q
    with (inject_Z (A - V) * Qpower (2 # 1) E0)%Q
    by (unfold Zminus; rewrite inject_Z_plus, inject_Z_opp; ring).
  setoid_replace (inject_Z B * Qpower (2 # 1) E0 - inject_Z V * Qpower (2 # 1) E0)%Q
    with (inject_Z (B - V) * Qpower (2 # 1) E0)%Q
    by (unfold Zminus; rewrite inject_Z_plus, inject_Z_opp; ring).
  rewrite !Qabs_scaled.
  apply Qmult_le_compat_r; [|apply Qpower_0_le; discriminate].
  rewrite <- Zle_Qle. exact H.
Qed.

Lemma dyadic_rescale (z E0 t : Z) :
  0 <= t ->
  Qeq (inject_Z z * Qpower (2 # 1) (E0 + t))
      (inject_Z (z * 2 ^ t) * Qpower (2 # 1) E0).
Proof.
  intros H. rewrite Q2pow_split by exact H. rewrite inject_Z_mult. ring.
Qed.

Lemma dyadic_rescale_down (z e j : Z) :
  j <= e ->
  Qeq (inject_Z z * Qpower (2 # 1) e)
      (inject_Z (z * 2 ^ (e - j)) * Qpower (2 # 1) j).
Proof.
  intros H. rewrite <- (dyadic_rescale z j (e - j)) by lia.
  replace (j + (e - j)) with e by lia. reflexivity.
Qed.

(** The integer core: [X] is a multiple of the unit [2 * h] within [h]
    of [q], and [q] is at least [2^53 * h]; then no number [B], a
    multiple of the unit or of magnitude at most [(2^53 - 1) * h], is
    nearer to [q] than [X] is, at any common scale [P]. *)
Lemma nearest_core (s s' : bool) (q X h P Bm : Z) :
  0 < h -> 0 < P -> 0 <= Bm ->
  X mod (2 * h) = 0 ->
  Z.abs (X - q) <= h ->
  2 ^ 53 * h <= q ->
  (exists Y, Bm = Y * P /\ Y mod (2 * h) = 0) \/ Bm <= (2 ^ 53 - 1) * h * P ->
  Z.abs (cond_Zopp s (X * P) - cond_Zopp s (q * P))
  <= Z.abs (cond_Zopp s' Bm - cond_Zopp s (q * P)).
Proof.
  intros Hh HP HB MX EX Hq Cases.
  rewrite cond_Zopp_abs.
  assert (L : Z.abs (X * P - q * P) <= h * P).
  { replace (X * P - q * P) with ((X - q) * P) by ring.
    rewrite Z.abs_mul, (Z.abs_eq P) by lia. apply Z.mul_le_mono_nonneg_r; lia. }
  assert (Q0 : 2 ^ 53 * h * P <= q * P) by (apply Z.mul_le_mono_nonneg_r; lia).
  assert (HPp : 0 < h * P) by (apply Z.mul_pos_pos; lia).
  destruct (Bool.bool_dec s s') as [Es|Ns].
  - subst s'. rewrite cond_Zopp_abs.
    destruct Cases as [(Y & EY & MY)|Bd].
    + subst Bm.
      replace (Y * P - q * P) with ((Y - q) * P) by ring.
      replace (X * P - q * P) with ((X - q) * P) by ring.
      rewrite !Z.abs_mul. apply Z.mul_le_mono_nonneg_r; [lia|].
      destruct (Z.eq_dec X Y) as [->|NE]; [lia|].
      apply Z.mod_divide in MX; [|lia]. apply Z.mod_divide in MY; [|lia].
      destruct MX as [a ->]. destruct MY as [b ->].
      assert (a <> b) by (intros ->; apply NE; reflexivity).
      assert (2 * h <= Z.abs (a * (2 * h) - b * (2 * h))).
      { replace (a * (2 * h) - b * (2 * h)) with ((a - b) * (2 * h)) by ring.
        rewrite Z.abs_mul, (Z.abs_eq (2 * h)) by lia.
        assert (1 <= Z.abs (a - b)) by lia. nia. }
      lia.
    + lia.
  - assert (E : Z.abs (cond_Zopp s' Bm - cond_Zopp s (q * P)) = Bm + q * P).
    { destruct s, s'; try (exfalso; apply Ns; reflexivity); cbn [cond_Zopp]; lia. }
    rewrite E. lia.
Qed.

Lemma nearest_scaled (sg s' : bool) (q X h M e j : Z) :
  0 < h -> 0 <= M < 2 ^ 53 ->
  X mod (2 * h) = 0 ->
  Z.abs (X - q) <= h ->
  2 ^ 53 * h <= q ->
  (e <= j -> 2 ^ (j - e) mod (2 * h) = 0 \/ 2 ^ (j - e) <= h) ->
  Qle (Qabs (inject_Z (cond_Zopp sg X) * Qpower (2 # 1) e
             - inject_Z (cond_Zopp sg q) * Qpower (2 # 1) e))
      (Qabs (inject_Z (cond_Zopp s' M) * Qpower (2 # 1) j
             - inject_Z (cond_Zopp sg q) * Qpower (2 # 1) e)).
Proof.
  intros Hh HM MX EX Hq Sp.
  destruct (Z.le_gt_cases e j) as [C|C].
  - rewrite (dyadic_rescale_down (cond_Zopp s' M) j e) by lia.
    rewrite <- cond_Zopp_mul.
    apply Qabs_dyadic_le.
    assert (T : 0 < 2 ^ (j - e)) by (apply Z.pow_pos_nonneg; lia).
    pose proof (nearest_core sg s' q X h 1 (M * 2 ^ (j - e)) Hh ltac:(lia)
                  ltac:(apply Z.mul_nonneg_nonneg; lia) MX EX Hq) as N.
    rewrite !Z.mul_1_r in N. apply N.
    destruct (Sp C) as [D|D].
    + left. exists (M * 2 ^ (j - e)). split; [lia|].
      apply Z.mod_divide; [lia|]. apply Z.mod_divide in D; [|lia].
      apply Z.divide_mul_r. exact D.
    + right. apply Z.mul_le_mono_nonneg; lia.
  - assert (T : 0 < 2 ^ (e - j)) by (apply Z.pow_pos_nonneg; lia).
    rewrite (dyadic_rescale_down (cond_Zopp sg X) e j) by lia.
    rewrite (dyadic_rescale_down (cond_Zopp sg q) e j) by lia.
    rewrite <- !cond_Zopp_mul.
    apply Qabs_dyadic_le.
    apply (nearest_core sg s' q X h (2 ^ (e - j)) M Hh T ltac:(lia) MX EX Hq).
    right.
    assert (1 * 1 <= h * 2 ^ (e - j)) by (apply Z.mul_le_mono_nonneg; lia).
    nia.
Qed.

(** X19.  The conversion rounds to nearest: no finite binary64 number
    is nearer to the value the eight bytes denote than the float that
    [ibm370_to_ieee754] returns. *)
Theorem ibm370_nearest (b0 : byte) (rest : list byte) :
  length rest = 7%nat ->
  exists x,
    ibm370_to_ieee754 (b0 :: rest) = Ok x /\
    forall y,
      valid_binary 53 1024 y = true ->
      is_finite y = true ->
      Qle (Qabs (SF2Q x - exact_value b0 rest))
          (Qabs (SF2Q y - exact_value b0 rest)).
Proof.
  intros L. rewrite (ibm370_result b0 rest L). eexists. split; [reflexivity|].
  intros y Vy Fy.
  rewrite (exact_value_eq b0 rest L).
  pose proof (be_unsigned_lt rest 7 ltac:(lia)) as R.
  change (2 ^ (8 * Z.of_nat 7)) with (2 ^ 56) in R.
  pose proof (ibm370_exponent2_range b0) as E.
  set (sg := Z.testbit (bz b0) 7).
  set (e := ibm370_exponent2 b0 - 56).
  assert (Exact : forall x : float,
            Qeq (SF2Q x)
                (inject_Z (cond_Zopp sg (be_unsigned rest)) * Qpower (2 # 1) e) ->
            Qle (Qabs (SF2Q x - inject_Z (cond_Zopp sg (be_unsigned rest))
                                * Qpower (2 # 1) e))
                (Qabs (SF2Q y - inject_Z (cond_Zopp sg (be_unsigned rest))
                                * Qpower (2 # 1) e))).
  { intros x Hx. rewrite Hx.
    setoid_replace (inject_Z (cond_Zopp sg (be_unsigned rest)) * Qpower (2 # 1) e
                    - inject_Z (cond_Zopp sg (be_unsigned rest)) * Qpower (2 # 1) e)%Q
      with 0%Q by ring.
    apply Qabs_nonneg. }
  destruct (be_unsigned rest) as [|q|q] eqn:N; [| |lia].
  - apply Exact.
    replace (cond_Zopp sg 0) with 0 by (destruct sg; reflexivity).
    rewrite f64_normalize_zero. cbn [SF2Q]. rewrite Qmult_0_l. reflexivity.
  - rewrite f64_normalize_pos.
    destruct (binary_round_normal q) as (m & k & D & K & V & F & Er).
    pose proof (Zdigits2_le_56 (Zpos q) ltac:(lia)) as Dq. cbn [Zdigits2] in Dq.
    rewrite (F sg e) by (subst e; lia).
    destruct (Z.le_gt_cases (Zpos (digits2_pos q)) 53) as [C|C].
    + apply Exact. cbn [SF2Q].
      apply signed_dyadic_exact; [lia|].
      replace (- k) with (53 - Zpos (digits2_pos q)) by lia. apply V. exact C.
    + specialize (Er C).
      pose proof (digits2_pos_bounds q) as [Lo _].
      set (d := Zpos (digits2_pos q)) in *.
      assert (K0 : 0 <= k) by lia.
      assert (Hh : 0 < 2 ^ (d - 54)) by (apply Z.pow_pos_nonneg; lia).
      assert (U : 2 * 2 ^ (d - 54) = 2 ^ (d - 53)).
      { rewrite <- Z.pow_succ_r by lia. f_equal. lia. }
      assert (Q53 : 2 ^ 53 * 2 ^ (d - 54) = 2 ^ (d - 1)).
      { rewrite <- Z.pow_add_r by lia. f_equal. lia. }
      assert (MX : (Zpos m * 2 ^ k) mod (2 * 2 ^ (d - 54)) = 0).
      { rewrite U. replace k with ((k - (d - 53)) + (d - 53)) by lia.
        rewrite Z.pow_add_r by lia. rewrite Z.mul_assoc. apply Z.mod_mul. lia. }
      cbn [SF2Q].
      rewrite (dyadic_rescale (cond_Zopp sg (Zpos m)) e k K0), <- cond_Zopp_mul.
      assert (Near : forall (s' : bool) (M j : Z),
                0 <= M < 2 ^ 53 ->
                Qle (Qabs (inject_Z (cond_Zopp sg (Zpos m * 2 ^ k)) * Qpower (2 # 1) e
                           - inject_Z (cond_Zopp sg (Zpos q)) * Qpower (2 # 1) e))
                    (Qabs (inject_Z (cond_Zopp s' M) * Qpower (2 # 1) j
                           - inject_Z (cond_Zopp sg (Zpos q)) * Qpower (2 # 1) e))).
      { intros s' M j HM.
        apply (nearest_scaled sg s' (Zpos q) (Zpos m * 2 ^ k) (2 ^ (d - 54)) M e j
                 Hh HM MX); [lia | lia |].
        intros Le. destruct (Z.le_gt_cases (d - 53) (j - e)) as [A|B].
        - left. rewrite U. replace (j - e) with ((j - e - (d - 53)) + (d - 53)) by lia.
          rewrite Z.pow_add_r by lia. apply Z.mod_mul. lia.
        - right. apply Z.pow_le_mono_r; lia. }
      destruct y as [s'|s'| |s' M j]; try discriminate Fy.
      * cbn [SF2Q].
        setoid_replace 0%Q with (inject_Z (cond_Zopp s' 0) * Qpower (2 # 1) e)%Q
          by (destruct s'; cbn [cond_Zopp Z.opp]; rewrite Qmult_0_l; reflexivity).
        apply Near. lia.
      * cbn [SF2Q]. apply Near.
        pose proof (valid_binary_digits s' M j Vy). lia.
Qed.

Lemma ibm370_nearest_witness :
  exists x,
    ibm370_to_ieee754 (bytes_of [0x3e; 0x41; 0x89; 0x37; 0x4b; 0xc6; 0xa7; 0xf0]) = Ok x /\
    Qle (Qabs (SF2Q x - exact_value x3e (bytes_of [0x41; 0x89; 0x37; 0x4b; 0xc6; 0xa7; 0xf0])))
        (Qabs (SF2Q (S754_finite false 4503599627370496 (-62))
               - exact_value x3e (bytes_of [0x41; 0x89; 0x37; 0x4b; 0xc6; 0xa7; 0xf0]))).
Proof.
  destruct (ibm370_nearest x3e (bytes_of [0x41; 0x89; 0x37; 0x4b; 0xc6; 0xa7; 0xf0]) eq_refl)
    as (x & Hx & Nx).
  exists x. split; [exact Hx|]. apply Nx; reflexivity.
Defined.
